(** * whatrecord.shell: the IOC shell interpreter and its state container

    A shallow embedding of [whatrecord/shell.py] and the properties of it
    that the specification states.

    Python objects that the module mutates become explicit state: a
    [ShellState] record threaded through every handler.  The asyn port
    objects are kept in a store of their own, because one motor object is
    reachable both from the port registry and from its parent's [motors]
    mapping; the entries of the load-context stack carry their identity,
    because the interpreter writes to an entry through its reference and
    removes it through [==].  A raised exception is a value of the outcome
    type, and the state reached before the raise is kept, as in Python.  The
    generators are run to exhaustion under a bound on their nesting.

    The modules that [shell.py] imports are not among the verified sources.
    Their functions are parameters (the class [External]); their classes
    are records with the attributes that [shell.py] uses.

    The file has the definitions first: Python string primitives, the data
    model, the methods of [ShellState], the interpreter, the queries, the
    container and the loaders, then one concrete world to run them in and
    the vocabulary of the statements.  The properties follow: those the
    specification states (C1 to C10), then further ones read off the code
    (X1 to X27). *)

From Stdlib Require Import Ascii String ZArith Lia OrdersEx.
From stdpp Require Import base option gmap strings list fin_maps sorting.

Local Open Scope string_scope.
Local Open Scope list_scope.

(** ** Python string primitives used by the module *)

Module PyStr.

Definition chars (s : string) : list ascii := list_ascii_of_string s.
Definition str (l : list ascii) : string := string_of_list_ascii l.

(** [str.isspace] on one code point below 256 (the module decodes files
    as latin-1, one code point per byte). *)
Definition isspace (c : ascii) : bool :=
  let n := nat_of_ascii c in
  (((9 <=? n) && (n <=? 13)) || ((28 <=? n) && (n <=? 32))
   || (n =? 133) || (n =? 160))%nat.

Definition mem (set : list ascii) (c : ascii) : bool :=
  existsb (Ascii.eqb c) set.

Fixpoint dropwhile (p : ascii -> bool) (l : list ascii) : list ascii :=
  match l with
  | [] => []
  | c :: l' => if p c then dropwhile p l' else l
  end.

Definition lstrip_by (p : ascii -> bool) (l : list ascii) : list ascii :=
  dropwhile p l.
Definition rstrip_by (p : ascii -> bool) (l : list ascii) : list ascii :=
  rev (dropwhile p (rev l)).
Definition strip_by (p : ascii -> bool) (l : list ascii) : list ascii :=
  rstrip_by p (lstrip_by p l).

Fixpoint startswith_l (pre l : list ascii) : bool :=
  match pre, l with
  | [], _ => true
  | _ :: _, [] => false
  | a :: pre', b :: l' => Ascii.eqb a b && startswith_l pre' l'
  end.

(** [s.split(sep)] for a non-empty [sep]: scan left to right, cut at every
    occurrence, resume after it.  [skip] counts the characters of the
    occurrence still to be passed over; [acc] is the current piece,
    reversed. *)
Fixpoint split_go (sep : list ascii) (skip : nat) (acc l : list ascii)
  : list (list ascii) :=
  match l with
  | [] => [rev acc]
  | c :: l' =>
      match skip with
      | S k => split_go sep k acc l'
      | O =>
          if startswith_l sep l
          then rev acc :: split_go sep (length sep - 1) [] l'
          else split_go sep 0 (c :: acc) l'
      end
  end.

Definition split_l (sep l : list ascii) : list (list ascii) :=
  split_go sep 0 [] l.

(** The text before the first occurrence of [sep], and the text after it
    when there is one. *)
Fixpoint break_on (sep l : list ascii) : list ascii * option (list ascii) :=
  match l with
  | [] => ([], None)
  | c :: l' =>
      if startswith_l sep l then ([], Some (drop (length sep) l))
      else let '(a, r) := break_on sep l' in (c :: a, r)
  end.

(** [s.split(sep, 1)]. *)
Definition split1_l (sep l : list ascii) : list (list ascii) :=
  match break_on sep l with
  | (a, None) => [a]
  | (a, Some r) => [a; r]
  end.

(** String-level wrappers, named after the Python methods. *)
Definition strip (s : string) : string := str (strip_by isspace (chars s)).
Definition strip_chars (set s : string) : string :=
  str (strip_by (mem (chars set)) (chars s)).
Definition lstrip_chars (set s : string) : string :=
  str (lstrip_by (mem (chars set)) (chars s)).
Definition startswith (s pre : string) : bool :=
  startswith_l (chars pre) (chars s).
Definition split (s sep : string) : list string :=
  map str (split_l (chars sep) (chars s)).
Definition split1 (s sep : string) : list string :=
  map str (split1_l (chars sep) (chars s)).
Definition contains (s sub : string) : bool :=
  match snd (break_on (chars sub) (chars s)) with
  | Some _ => true
  | None => false
  end.
Definition slice_from (n : nat) (s : string) : string :=
  str (drop n (chars s)).
Definition len (s : string) : nat := length (chars s).

(** [str.splitlines]: the line boundaries among the code points below
    256 are LF, CR, CR LF, VT, FF, FS, GS, RS and NEL; no empty last
    line is produced. *)
Definition is_linebreak (c : ascii) : bool :=
  let n := nat_of_ascii c in
  (((10 <=? n) && (n <=? 13)) || ((28 <=? n) && (n <=? 30))
   || (n =? 133))%nat.

Fixpoint splitlines_go (acc l : list ascii) : list (list ascii) :=
  match l with
  | [] => match acc with [] => [] | _ => [rev acc] end
  | c :: l' =>
      if is_linebreak c then
        match l' with
        | c2 :: l'' =>
            if ((nat_of_ascii c =? 13) && (nat_of_ascii c2 =? 10))%nat
            then rev acc :: splitlines_go [] l''
            else rev acc :: splitlines_go [] l'
        | [] => [rev acc]
        end
      else splitlines_go (c :: acc) l'
  end.

Definition splitlines (s : string) : list string :=
  map str (splitlines_go [] (chars s)).

(** [sep.join(items)]. *)
Fixpoint join (sep : string) (items : list string) : string :=
  match items with
  | [] => ""
  | [x] => x
  | x :: rest => x +:+ sep +:+ join sep rest
  end.

End PyStr.

#[global] Arguments PyStr.strip : simpl never.
#[global] Arguments PyStr.strip_chars : simpl never.
#[global] Arguments PyStr.lstrip_chars : simpl never.
#[global] Arguments PyStr.startswith : simpl never.
#[global] Arguments PyStr.split : simpl never.
#[global] Arguments PyStr.split1 : simpl never.
#[global] Arguments PyStr.contains : simpl never.
#[global] Arguments PyStr.slice_from : simpl never.
#[global] Arguments PyStr.len : simpl never.
#[global] Arguments PyStr.splitlines : simpl never.

(** ** Values of [whatrecord.common], [whatrecord.asyn], [whatrecord.db]

    Those modules are not among the sources verified here.  Their classes
    are modelled from the data model of the specification, with the
    attributes that [shell.py] reads or writes. *)

(** A raised Python exception: class name and message. *)
Record Exc := mkExc { exc_type : string; exc_msg : string }.

(** Modelled from the spec: [FullLoadContext] of [whatrecord.common], "an
    ordered sequence of (filename, line-number) pairs". *)
Definition FullLoadContext := list (string * nat).

(** Modelled from the spec: [MutableLoadContext(name, line)] of
    [whatrecord.common], an entry of the load-context stack: a (filename,
    line-number) pair whose line is assignable.  Two entries are equal
    when their components are, as pairs and dataclass instances are.
    [ctx_id] is the identity of the Python object: [load_ctx.line = lineno]
    writes through it, whereas [==] (hence [list.remove]) looks at [name]
    and [line] only. *)
Record MutableLoadContext := mkCtx {
  ctx_id : nat;
  ctx_name : string;
  ctx_line : nat
}.

Definition to_load_context (c : MutableLoadContext) : string * nat :=
  (ctx_name c, ctx_line c).

(** Modelled from the spec: the field values and [RecordInstance] of
    [whatrecord.common]: "record-type name, mapping of field-name to
    FieldValue, provenance LoadContext, a flag marking it as a structured
    (PVA) group, and free-form metadata". *)
Record RecordField := mkField {
  rf_dtype : string;
  rf_name : string;
  rf_value : string;
  rf_context : FullLoadContext
}.

Record RecordInstance := mkRecord {
  ri_context : FullLoadContext;
  ri_name : string;
  ri_record_type : string;
  ri_fields : gmap string RecordField;
  ri_is_pva : bool;
  ri_metadata : gmap string (gmap string string)
}.

Definition ri_with_context (c : FullLoadContext) (r : RecordInstance)
  : RecordInstance :=
  mkRecord c (ri_name r) (ri_record_type r) (ri_fields r) (ri_is_pva r)
           (ri_metadata r).

Definition ri_with_fields (f : gmap string RecordField) (r : RecordInstance)
  : RecordInstance :=
  mkRecord (ri_context r) (ri_name r) (ri_record_type r) f (ri_is_pva r)
           (ri_metadata r).

(** A scalar Python value kept in a port's [metadata] dict: an argument
    string taken from the command line, or the default of the parameter. *)
Inductive PyVal :=
| PyStr (s : string)
| PyInt (z : Z)
| PyFloatZero.

(** Modelled from the spec: the port classes of [whatrecord.asyn].  A
    port "may own child device sub-objects addressed by an integer
    address, and may reference a parent port by name"; options are kept
    per key on the port or on a device. *)
Record AsynPortOption := mkOption {
  opt_context : FullLoadContext;
  opt_key : string;
  opt_value : string
}.

Record AsynPortDevice := mkDevice {
  dev_options : gmap string AsynPortOption
}.

Inductive PortClass :=
| AsynSerialPort
| AsynIPPort
| AdsAsynPort
| AsynMotor.

(** Modelled from the spec: one asyn port object.  [port_args] holds the keyword arguments given to
    the constructor besides [context], [name], [parent] and [metadata].
    [port_parent] is what [getattr(port, "parent", None)] returns.
    [port_devices] is [Some] exactly for instances of
    [AsynPortMultiDevice].  [port_motors] maps a motor name to the motor
    object (a reference into the object store, not a copy). *)
Record AsynPort := mkPort {
  port_class : PortClass;
  port_context : FullLoadContext;
  port_name : string;
  port_args : list (string * option string);
  port_parent : option string;
  port_metadata : gmap string PyVal;
  port_options : gmap string AsynPortOption;
  port_devices : option (gmap string AsynPortDevice);
  port_motors : gmap string nat
}.

Definition port_with_options (o : gmap string AsynPortOption) (p : AsynPort)
  : AsynPort :=
  mkPort (port_class p) (port_context p) (port_name p) (port_args p)
         (port_parent p) (port_metadata p) o (port_devices p) (port_motors p).

Definition port_with_devices (d : option (gmap string AsynPortDevice))
  (p : AsynPort) : AsynPort :=
  mkPort (port_class p) (port_context p) (port_name p) (port_args p)
         (port_parent p) (port_metadata p) (port_options p) d (port_motors p).

Definition port_with_motors (m : gmap string nat) (p : AsynPort) : AsynPort :=
  mkPort (port_class p) (port_context p) (port_name p) (port_args p)
         (port_parent p) (port_metadata p) (port_options p) (port_devices p) m.

(** [pathlib.Path], identified by its [str()]. *)
Record Path := mkPath { path_str : string }.

(** Modelled from the spec: [MacroContext] of [whatrecord.macro], an
    "ordered scope stack, each scope a mapping"; innermost scope first. *)
Record MacroContext := mkMacroContext {
  mc_scopes : list (gmap string string);
  mc_string_encoding : string
}.

(** Modelled from the spec: [Database] of [whatrecord.db], which "owns a
    schema (record-type definitions) and a mapping from record name to
    RecordInstance"; the records and PVA groups of one file are kept in
    the order [dict.items()] yields them. *)
Record Database := mkDatabase {
  record_types : gmap string (gmap string string);
  records : list (string * RecordInstance);
  pva_groups : list (string * RecordInstance)
}.

(** Modelled from the spec: [LinterResults] of [whatrecord.db], by the
    keyword arguments [handle_dbLoadRecords] constructs it with. *)
Record LinterResults := mkLinterResults {
  lr_record_types : gmap string (gmap string string);
  lr_records : list (string * RecordInstance);
  lr_pva_groups : list (string * RecordInstance);
  lr_extinst : list string;
  lr_errors : list string;
  lr_warnings : list string
}.

(** Modelled from the spec: [IocshCmdArgs] of [whatrecord.common], the
    marker of a command to re-invoke. *)
Record IocshCmdArgs := mkCmdArgs {
  ca_context : FullLoadContext;
  ca_command : string
}.

(** What a command handler returns: [None], a string, the dict of
    [handle_epicsEnvSet], the macro mapping, a list, the metadata dict of
    [handle_NDPvaConfigure], the re-invocation marker, or the arguments
    that [ShortLinterResults.from_full_results] is called with. *)
Inductive CmdResult :=
| ResNone
| ResStr (s : string)
| ResEnvSet (variable value : string) (hook : option string)
| ResMacros (m : gmap string string)
| ResList (l : list string)
| ResMetadata (m : gmap string string)
| ResCmdArgs (a : IocshCmdArgs)
| ResShortLinter (full : LinterResults) (macros : gmap string string).

(** Modelled from the spec: [IocshRedirect] and [IocshResult] of
    [whatrecord.common]: "an ordered argument vector, a set of
    redirection directives (each with mode, a target name, and an optional
    target file-descriptor number), and an optional parse-error message",
    plus the result of the command. *)
Record IocshRedirect := mkRedirect {
  redir_fileno : nat;
  redir_name : string;
  redir_mode : string
}.

Record IocshResult := mkResult {
  sr_context : FullLoadContext;
  sr_line : string;
  sr_outputs : list string;
  sr_argv : option (list string);
  sr_error : option string;
  sr_redirects : list IocshRedirect;
  sr_result : CmdResult
}.

Definition sr_with_error (e : string) (r : IocshResult) : IocshResult :=
  mkResult (sr_context r) (sr_line r) (sr_outputs r) (sr_argv r) (Some e)
           (sr_redirects r) (sr_result r).

Definition sr_with_result (v : CmdResult) (r : IocshResult) : IocshResult :=
  mkResult (sr_context r) (sr_line r) (sr_outputs r) (sr_argv r) (sr_error r)
           (sr_redirects r) v.

(** Modelled from the spec: [IocMetadata] of [whatrecord.common], the IOC
    descriptor, with the attributes that [shell.py] reads or assigns.
    [database_version_spec], which [shell.py] only reads, is no stored
    attribute: [whatrecord.common] computes it from the descriptor, and
    it stands among the collaborators below. *)
Record IocMetadata := mkMetadata {
  md_name : string;
  md_script : Path;
  md_startup_directory : Path;
  md_macros : gmap string string;
  md_standin_directories : list (string * string);
  md_loaded_files : gmap string string;
  md_base_version : string
}.

Definition md_with_loaded_files (f : gmap string string) (m : IocMetadata)
  : IocMetadata :=
  mkMetadata (md_name m) (md_script m) (md_startup_directory m) (md_macros m)
             (md_standin_directories m) f (md_base_version m).

Definition md_with_base_version (v : string) (m : IocMetadata) : IocMetadata :=
  mkMetadata (md_name m) (md_script m) (md_startup_directory m) (md_macros m)
             (md_standin_directories m) (md_loaded_files m) v.

(** The entries of the dispatch table: one tag per attribute whose name
    starts with [handle_] (which includes [handle_command] itself), and
    [functools.partial(self._generic_motor_handler, name)]. *)
Inductive Handler :=
| H_NDPvaConfigure
| H_EthercatMCCreateController
| H_adsAsynPortDriverConfigure
| H_asynSetOption
| H_cd
| H_chdir
| H_command
| H_dbLoadDatabase
| H_dbLoadRecords
| H_dbl
| H_drvAsynIPPortConfigure
| H_drvAsynMotorConfigure
| H_drvAsynSerialPortConfigure
| H_epicsEnvSet
| H_epicsEnvShow
| H_iocInit
| H_iocshCmd
| H_iocshRegisterVariable
| H_generic_motor (name : string).

(** ** [ShellState] *)

(** The dataclass fields, in declaration order.  [standin_directories] is
    kept as the sequence [dict.items()] yields, because [_fix_path] depends
    on that order.  [database_definition] is [None] or a [Database] object,
    and such an object counts as true in a condition.  [asyn_ports] maps a
    name to a port object, that is, to an index into [port_objects], the
    store of all port objects created so far; [ctx_next] numbers the
    [MutableLoadContext] objects created so far.  The last two fields
    belong to the model, not to the dataclass. *)
Record ShellState := mkState {
  prompt : string;
  variables : gmap string string;
  string_encoding : string;
  ioc_initialized : bool;
  standin_directories : list (string * string);
  working_directory : Path;
  database_definition : option Database;
  database : gmap string RecordInstance;
  pva_database : gmap string RecordInstance;
  load_context : list MutableLoadContext;
  asyn_ports : gmap string nat;
  loaded_files : gmap string string;
  macro_context : MacroContext;
  ioc_info : IocMetadata;
  _handlers : gmap string Handler;
  port_objects : list AsynPort;
  ctx_next : nat
}.

(** Attribute assignment [self.<field> = v], one function per field that
    the module writes. *)
Definition set_variables (v : gmap string string) (st : ShellState)
  : ShellState :=
  mkState (prompt st) v (string_encoding st) (ioc_initialized st)
         (standin_directories st) (working_directory st)
         (database_definition st) (database st) (pva_database st)
         (load_context st) (asyn_ports st) (loaded_files st)
         (macro_context st) (ioc_info st) (_handlers st) (port_objects st)
         (ctx_next st).

Definition set_ioc_initialized (v : bool) (st : ShellState)
  : ShellState :=
  mkState (prompt st) (variables st) (string_encoding st) v
         (standin_directories st) (working_directory st)
         (database_definition st) (database st) (pva_database st)
         (load_context st) (asyn_ports st) (loaded_files st)
         (macro_context st) (ioc_info st) (_handlers st) (port_objects st)
         (ctx_next st).

Definition set_working_directory (v : Path) (st : ShellState)
  : ShellState :=
  mkState (prompt st) (variables st) (string_encoding st) (ioc_initialized st)
         (standin_directories st) v (database_definition st) (database st)
         (pva_database st) (load_context st) (asyn_ports st) (loaded_files st)
         (macro_context st) (ioc_info st) (_handlers st) (port_objects st)
         (ctx_next st).

Definition set_database_definition (v : option Database) (st : ShellState)
  : ShellState :=
  mkState (prompt st) (variables st) (string_encoding st) (ioc_initialized st)
         (standin_directories st) (working_directory st) v (database st)
         (pva_database st) (load_context st) (asyn_ports st) (loaded_files st)
         (macro_context st) (ioc_info st) (_handlers st) (port_objects st)
         (ctx_next st).

Definition set_database (v : gmap string RecordInstance) (st : ShellState)
  : ShellState :=
  mkState (prompt st) (variables st) (string_encoding st) (ioc_initialized st)
         (standin_directories st) (working_directory st)
         (database_definition st) v (pva_database st) (load_context st)
         (asyn_ports st) (loaded_files st) (macro_context st) (ioc_info st)
         (_handlers st) (port_objects st) (ctx_next st).

Definition set_pva_database (v : gmap string RecordInstance) (st : ShellState)
  : ShellState :=
  mkState (prompt st) (variables st) (string_encoding st) (ioc_initialized st)
         (standin_directories st) (working_directory st)
         (database_definition st) (database st) v (load_context st)
         (asyn_ports st) (loaded_files st) (macro_context st) (ioc_info st)
         (_handlers st) (port_objects st) (ctx_next st).

Definition set_load_context (v : list MutableLoadContext) (st : ShellState)
  : ShellState :=
  mkState (prompt st) (variables st) (string_encoding st) (ioc_initialized st)
         (standin_directories st) (working_directory st)
         (database_definition st) (database st) (pva_database st) v
         (asyn_ports st) (loaded_files st) (macro_context st) (ioc_info st)
         (_handlers st) (port_objects st) (ctx_next st).

Definition set_asyn_ports (v : gmap string nat) (st : ShellState)
  : ShellState :=
  mkState (prompt st) (variables st) (string_encoding st) (ioc_initialized st)
         (standin_directories st) (working_directory st)
         (database_definition st) (database st) (pva_database st)
         (load_context st) v (loaded_files st) (macro_context st)
         (ioc_info st) (_handlers st) (port_objects st) (ctx_next st).

Definition set_loaded_files (v : gmap string string) (st : ShellState)
  : ShellState :=
  mkState (prompt st) (variables st) (string_encoding st) (ioc_initialized st)
         (standin_directories st) (working_directory st)
         (database_definition st) (database st) (pva_database st)
         (load_context st) (asyn_ports st) v (macro_context st) (ioc_info st)
         (_handlers st) (port_objects st) (ctx_next st).

Definition set_macro_context (v : MacroContext) (st : ShellState)
  : ShellState :=
  mkState (prompt st) (variables st) (string_encoding st) (ioc_initialized st)
         (standin_directories st) (working_directory st)
         (database_definition st) (database st) (pva_database st)
         (load_context st) (asyn_ports st) (loaded_files st) v (ioc_info st)
         (_handlers st) (port_objects st) (ctx_next st).

Definition set_ioc_info (v : IocMetadata) (st : ShellState)
  : ShellState :=
  mkState (prompt st) (variables st) (string_encoding st) (ioc_initialized st)
         (standin_directories st) (working_directory st)
         (database_definition st) (database st) (pva_database st)
         (load_context st) (asyn_ports st) (loaded_files st)
         (macro_context st) v (_handlers st) (port_objects st) (ctx_next st).

Definition set_port_objects (v : list AsynPort) (st : ShellState)
  : ShellState :=
  mkState (prompt st) (variables st) (string_encoding st) (ioc_initialized st)
         (standin_directories st) (working_directory st)
         (database_definition st) (database st) (pva_database st)
         (load_context st) (asyn_ports st) (loaded_files st)
         (macro_context st) (ioc_info st) (_handlers st) v (ctx_next st).

Definition set_ctx_next (v : nat) (st : ShellState)
  : ShellState :=
  mkState (prompt st) (variables st) (string_encoding st) (ioc_initialized st)
         (standin_directories st) (working_directory st)
         (database_definition st) (database st) (pva_database st)
         (load_context st) (asyn_ports st) (loaded_files st)
         (macro_context st) (ioc_info st) (_handlers st) (port_objects st) v.

(** ** The collaborators of [shell.py]

    Functions of modules that are not among the verified sources
    ([iocsh], [macro], [db], [util], [motor], [settings], [asyn]) and of the
    Python library ([pathlib], [traceback], [repr]).  Everything below is
    stated for an arbitrary implementation of them. *)
Class External := {
  (** [iocsh.parse_iocsh_line(line, context, prompt, macro_context,
      string_encoding)] *)
  parse_iocsh_line :
    string -> FullLoadContext -> string -> MacroContext -> string -> IocshResult;
  (** [traceback.format_exc()] while the exception is being handled *)
  format_exc : Exc -> string;
  (** [repr(s)] of a string *)
  py_repr : string -> string;
  (** [pathlib.Path(s)], [p / s], [p.resolve()], [p.exists()] *)
  pathlib_Path : string -> Path;
  path_join : Path -> string -> Path;
  path_resolve : Path -> Path;
  path_exists : Path -> bool;
  (** [util.read_text_file_with_hash(filename, encoding)]: the hash and the
      contents, or the exception raised *)
  read_text_file_with_hash : Path -> string -> Exc + (string * string);
  (** [MacroContext] methods *)
  definitions_to_dict : MacroContext -> string -> Exc + gmap string string;
  macro_define : MacroContext -> gmap string string -> MacroContext;
  macro_scoped_enter : MacroContext -> gmap string string -> MacroContext;
  macro_scoped_exit : MacroContext -> MacroContext;
  macro_get_macros : MacroContext -> gmap string string;
  (** [Database.from_string(contents, version, filename)] and
      [Database.from_file(filename, dbd, macro_context, version)] *)
  Database_from_string : string -> nat -> Path -> Exc + Database;
  Database_from_file : Path -> Database -> MacroContext -> nat -> Exc + Database;
  (** [motor.shell_commands]: per command, the ordered (argument name,
      type name) pairs *)
  motor_shell_commands : gmap string (list (string * string));
  (** [settings.DEFAULT_BASE_VERSION] *)
  DEFAULT_BASE_VERSION : string;
  (** [md.database_version_spec], read from an [IocMetadata]: the
      version of the database grammar that goes with the descriptor *)
  database_version_spec : IocMetadata -> nat;
  (** whether a port class derives from [asyn.AsynPortMultiDevice] *)
  multi_device : PortClass -> bool
}.

(** ** Computations on a [ShellState] that may raise *)

Inductive Outcome (A : Type) :=
| Return (a : A)
| Raise (e : Exc).
Arguments Return {A} a.
Arguments Raise {A} e.

Definition M (A : Type) : Type := ShellState -> ShellState * Outcome A.

Definition ret {A} (a : A) : M A := fun st => (st, Return a).
Definition raise {A} (e : Exc) : M A := fun st => (st, Raise e).
Definition bind {A B} (m : M A) (k : A -> M B) : M B :=
  fun st =>
    match m st with
    | (st', Return a) => k a st'
    | (st', Raise e) => (st', Raise e)
    end.
Definition gets {A} (f : ShellState -> A) : M A := fun st => (st, Return (f st)).
Definition modify (f : ShellState -> ShellState) : M unit :=
  fun st => (f st, Return tt).
(** [try: m  except Exception as ex: h ex] *)
Definition try_except {A} (m : M A) (h : Exc -> M A) : M A :=
  fun st =>
    match m st with
    | (st', Return a) => (st', Return a)
    | (st', Raise e) => h e st'
    end.
(** the value or exception of a call into a collaborator *)
Definition lift {A} (r : Exc + A) : M A :=
  match r with
  | inl e => raise e
  | inr a => ret a
  end.

Notation "x <- m ;; k" := (bind m (fun x => k))
  (at level 100, m at next level, right associativity).
Notation "m ;;; k" := (bind m (fun _ => k))
  (at level 100, right associativity).

Definition RuntimeError (msg : string) : Exc := mkExc "RuntimeError" msg.
Definition TypeError (msg : string) : Exc := mkExc "TypeError" msg.
Definition ValueError (msg : string) : Exc := mkExc "ValueError" msg.

(** ** The methods of [ShellState] *)

Section Shell.
Context `{Ext : External}.

(** [d[key]] on a missing key raises [KeyError(key)], whose [str()] is
    the [repr] of the key. *)
Definition KeyError (key : string) : Exc := mkExc "KeyError" (py_repr key).

(** A call that leaves a required positional parameter unbound raises
    [TypeError] before the body runs. *)
Definition missing_arguments (method : string) : Exc :=
  TypeError (method +:+ "() missing required positional arguments").

(** Truth value of an optional string argument: [None] and [""] are
    false. *)
Definition truthy (o : option string) : bool :=
  match o with
  | Some s => negb (String.eqb s "")
  | None => false
  end.

(** [x or ""] *)
Definition or_empty (o : option string) : string :=
  if truthy o then default "" o else "".

Definition os_path_isabs (filename : string) : bool :=
  PyStr.startswith filename "/".

Definition is_absolute (p : Path) : bool :=
  PyStr.startswith (path_str p) "/".

Definition get_load_context (st : ShellState) : FullLoadContext :=
  map to_load_context (load_context st).

(** The [for from_, to in self.standin_directories.items()] loop of
    [_fix_path]: [None] when the loop ends without returning. *)
Fixpoint fix_path_standin (items : list (string * string)) (filename : string)
  : option (Exc + Path) :=
  match items with
  | [] => None
  | (from_, to) :: rest =>
      if PyStr.startswith filename from_ then
        if String.eqb from_ "" then Some (inl (ValueError "empty separator"))
        else
          match PyStr.split1 filename from_ with
          | [_; suffix] => Some (inr (pathlib_Path (to +:+ suffix)))
          | _ => Some (inl (ValueError "not enough values to unpack"))
          end
      else fix_path_standin rest filename
  end.

Definition _fix_path (st : ShellState) (filename : string) : Exc + Path :=
  let fallback := inr (path_join (working_directory st) filename) in
  if os_path_isabs filename then
    match fix_path_standin (standin_directories st) filename with
    | Some r => r
    | None => fallback
    end
  else fallback.

Definition fix_path (filename : string) : M Path :=
  fun st => lift (_fix_path st filename) st.

Definition load_file (filename : string) : M (Path * string) :=
  p <- fix_path filename ;;
  let filename := path_resolve p in
  encoding <- gets string_encoding ;;
  hc <- lift (read_text_file_with_hash filename encoding) ;;
  let '(shasum, contents) := hc in
  modify (fun st =>
    set_loaded_files (<[path_str filename := shasum]> (loaded_files st)) st) ;;;
  modify (fun st =>
    set_ioc_info
      (md_with_loaded_files
         (<[path_str filename := shasum]> (md_loaded_files (ioc_info st)))
         (ioc_info st)) st) ;;;
  ret (filename, contents).

(** [with self.macro_context.scoped( **macros ): body]: the scope is left
    on both exits of [body]. *)
Definition with_scoped {A} (macros : gmap string string) (body : M A) : M A :=
  fun st =>
    let st1 :=
      set_macro_context (macro_scoped_enter (macro_context st) macros) st in
    let '(st2, out) := body st1 in
    (set_macro_context (macro_scoped_exit (macro_context st2)) st2, out).

Definition unhandled (command : string) (args : list string) : M CmdResult :=
  ret ResNone.

Definition _generic_motor_handler (name : string) (args : list string)
  : M string :=
  match motor_shell_commands !! name with
  | None => raise (KeyError name)
  | Some params =>
      ret (PyStr.join (String "010" "")
             (map (fun '((name, type_name), value) =>
                     "(" +:+ type_name +:+ ") " +:+ name +:+ " = "
                     +:+ py_repr value)
                  (zip params args)))
  end.

(** The decorator [_motor_wrapper]: run the specific handler, then the
    generic one, and join their texts. *)
Definition _motor_wrapper (name : string)
  (method : list string -> M (option string)) (args : list string)
  : M CmdResult :=
  r <- method args ;;
  let specific_info := or_empty r in
  generic_info <- _generic_motor_handler name args ;;
  if negb (String.eqb specific_info "")
  then ret (ResStr (specific_info +:+ String "010" (String "010" "")
                    +:+ generic_info))
  else ret (ResStr generic_info).

Definition handle_iocshRegisterVariable (args : list string) : M CmdResult :=
  match args with
  | variable :: value :: _ =>
      modify (fun st =>
        set_variables (<[variable := value]> (variables st)) st) ;;;
      ret (ResStr ("Registered variable: " +:+ py_repr variable +:+ "="
                   +:+ py_repr value))
  | _ => raise (missing_arguments "handle_iocshRegisterVariable")
  end.

Fixpoint env_set_EPICS_BASE_loop (prefixes : list string) (path : string)
  : M (option string) :=
  match prefixes with
  | [] => ret None
  | prefix :: rest =>
      if PyStr.startswith path prefix then
        let path := PyStr.slice_from (PyStr.len prefix) path in
        let path :=
          if PyStr.contains path "/"
          then default "" (head (PyStr.split path "/"))
          else path in
        let version := PyStr.lstrip_chars "R" path in
        base_version <- gets (fun st => md_base_version (ioc_info st)) ;;
        if String.eqb base_version DEFAULT_BASE_VERSION then
          modify (fun st =>
            set_ioc_info (md_with_base_version version (ioc_info st)) st) ;;;
          ret (Some ("Set base version: " +:+ version))
        else
          ret (Some ("Found version (" +:+ version
                     +:+ ") but version already specified: "
                     +:+ base_version))
      else env_set_EPICS_BASE_loop rest path
  end.

Definition env_set_EPICS_BASE (path : string) : M (option string) :=
  let path := path_str (path_resolve (pathlib_Path path)) in
  env_set_EPICS_BASE_loop
    ["/reg/g/pcds/epics/base/"; "/cds/group/pcds/epics/base/"] path.

(** [getattr(self, f"env_set_{variable}", None)] finds a method for
    [EPICS_BASE] only. *)
Definition handle_epicsEnvSet (args : list string) : M CmdResult :=
  match args with
  | variable :: value :: _ =>
      modify (fun st =>
        set_macro_context
          (macro_define (macro_context st) {[variable := value]}) st) ;;;
      hook_result <-
        (if String.eqb variable "EPICS_BASE"
         then env_set_EPICS_BASE value
         else ret (Some "")) ;;
      ret (ResEnvSet variable value hook_result)
  | _ => raise (missing_arguments "handle_epicsEnvSet")
  end.

Definition handle_epicsEnvShow (args : list string) : M CmdResult :=
  mc <- gets macro_context ;;
  ret (ResMacros (macro_get_macros mc)).

Definition handle_iocshCmd (args : list string) : M CmdResult :=
  match args with
  | command :: _ =>
      context <- gets get_load_context ;;
      ret (ResCmdArgs (mkCmdArgs context command))
  | _ => raise (missing_arguments "handle_iocshCmd")
  end.

Definition handle_cd (args : list string) : M CmdResult :=
  match args with
  | path :: _ =>
      path <- fix_path path ;;
      wd <- gets working_directory ;;
      let new_dir :=
        if is_absolute path then path else path_join wd (path_str path) in
      if negb (path_exists new_dir) then
        raise (RuntimeError ("Path does not exist: " +:+ path_str new_dir))
      else
        modify (set_working_directory (path_resolve new_dir)) ;;;
        ret (ResStr ("New working directory: "
                     +:+ path_str (path_resolve new_dir)))
  | _ => raise (missing_arguments "handle_cd")
  end.

Definition handle_chdir := handle_cd.

Definition handle_iocInit (args : list string) : M CmdResult :=
  modify (set_ioc_initialized true) ;;;
  ret ResNone.

Definition handle_dbLoadDatabase (args : list string) : M CmdResult :=
  match args with
  | dbd :: rest =>
      let substitutions := rest !! 1 in
      initialized <- gets ioc_initialized ;;
      if initialized : bool then
        raise (RuntimeError "Database cannot be loaded after iocInit")
      else
        dbdef <- gets database_definition ;;
        match dbdef with
        | Some _ => ret (ResStr "whatrecord: TODO multiple dbLoadDatabase")
        | None =>
            fc <- load_file dbd ;;
            let '(fn, contents) := fc in
            mc <- gets macro_context ;;
            macros <-
              (if truthy substitutions
               then lift (definitions_to_dict mc (default "" substitutions))
               else ret ∅) ;;
            with_scoped macros (
              version <- gets (fun st =>
                database_version_spec (ioc_info st)) ;;
              db <- lift (Database_from_string contents version fn) ;;
              modify (set_database_definition (Some db))) ;;;
            ret (ResStr ("Loaded database: " +:+ path_str fn))
        end
  | [] => raise (missing_arguments "handle_dbLoadDatabase")
  end.

(** One step of [for name, rec in linter_results.records.items()]. *)
Definition merge_record (context : FullLoadContext)
  (db : gmap string RecordInstance) (item : string * RecordInstance)
  : gmap string RecordInstance :=
  let '(name, rec) := item in
  match db !! name with
  | None => <[name := ri_with_context (context ++ ri_context rec) rec]> db
  | Some entry =>
      <[name := ri_with_fields (ri_fields rec ∪ ri_fields entry)
                  (ri_with_context (ri_context entry ++ ri_context rec)
                     entry)]> db
  end.

Definition merge_records (context : FullLoadContext)
  (items : list (string * RecordInstance)) : M unit :=
  modify (fun st =>
    set_database (foldl (merge_record context) (database st) items) st).

(** One step of [for name, rec in linter_results.pva_groups.items()]:
    the [else] branch reads [self.database[name]]. *)
Definition merge_pva_group (context : FullLoadContext)
  (item : string * RecordInstance) : M unit :=
  let '(name, rec) := item in
  pva <- gets pva_database ;;
  match pva !! name with
  | None =>
      modify (set_pva_database
        (<[name := ri_with_context (context ++ ri_context rec) rec]> pva))
  | Some _ =>
      db <- gets database ;;
      match db !! name with
      | None => raise (KeyError name)
      | Some entry =>
          modify (set_database
            (<[name := ri_with_fields (ri_fields rec ∪ ri_fields entry)
                        (ri_with_context (ri_context entry ++ ri_context rec)
                           entry)]> db))
      end
  end.

Fixpoint merge_pva_groups (context : FullLoadContext)
  (items : list (string * RecordInstance)) : M unit :=
  match items with
  | [] => ret tt
  | item :: rest =>
      merge_pva_group context item ;;;
      merge_pva_groups context rest
  end.

Definition DatabaseLoadFailure (filename : Path) (ex : Exc) : Exc :=
  mkExc "DatabaseLoadFailure"
    ("Failed to load " +:+ path_str filename +:+ ": " +:+ exc_type ex
     +:+ " " +:+ exc_msg ex).

(** The value returned is [ShortLinterResults.from_full_results(
    linter_results, macros=macros)], kept as its two arguments. *)
Definition handle_dbLoadRecords (args : list string) : M CmdResult :=
  match args with
  | filename :: macros :: _ =>
      dbdef <- gets database_definition ;;
      match dbdef with
      | None => raise (RuntimeError "dbd not yet loaded")
      | Some dbd =>
          initialized <- gets ioc_initialized ;;
          if initialized : bool then
            raise (RuntimeError "Records cannot be loaded after iocInit")
          else
            fc <- load_file filename ;;
            let '(filename, contents) := fc in
            mc <- gets macro_context ;;
            macros <- lift (definitions_to_dict mc macros) ;;
            db <- try_except
                    (with_scoped macros (
                       mc <- gets macro_context ;;
                       version <- gets (fun st =>
                         database_version_spec (ioc_info st)) ;;
                       lift (Database_from_file filename dbd mc version)))
                    (fun ex => raise (DatabaseLoadFailure filename ex)) ;;
            let linter_results :=
              mkLinterResults (record_types dbd) (records db) (pva_groups db)
                              [] [] [] in
            context <- gets get_load_context ;;
            merge_records context (lr_records linter_results) ;;;
            merge_pva_groups context (lr_pva_groups linter_results) ;;;
            ret (ResShortLinter linter_results macros)
      end
  | _ => raise (missing_arguments "handle_dbLoadRecords")
  end.

Definition handle_dbl (args : list string) : M CmdResult :=
  ret (ResList []).

Definition handle_NDPvaConfigure (args : list string) : M CmdResult :=
  match args !! 5 with
  | None => ret ResNone
  | Some pvName =>
      let metadata : gmap string string :=
        list_to_map
          [("portName", or_empty (args !! 0));
           ("queueSize", or_empty (args !! 1));
           ("blockingCallbacks", or_empty (args !! 2));
           ("NDArrayPort", or_empty (args !! 3));
           ("NDArrayAddr", or_empty (args !! 4));
           ("pvName", or_empty (args !! 5));
           ("maxBuffers", or_empty (args !! 6));
           ("maxMemory", or_empty (args !! 7));
           ("priority", or_empty (args !! 8));
           ("stackSize", or_empty (args !! 9))] in
      context <- gets get_load_context ;;
      modify (fun st =>
        set_pva_database
          (<[pvName := mkRecord context pvName "PVA" ∅ true
                         {["areaDetector" := metadata]}]> (pva_database st))
          st) ;;;
      ret (ResMetadata metadata)
  end.

(** Creating a port object of class [cls]: its [options] and [motors]
    start empty, and so does [devices] where the class has it. *)
Definition make_port (cls : PortClass) (context : FullLoadContext)
  (name : string) (args : list (string * option string))
  (parent : option string) (metadata : gmap string PyVal) : AsynPort :=
  mkPort cls context name args parent metadata ∅
         (if multi_device cls then Some ∅ else None) ∅.

Definition new_object (p : AsynPort) : M nat :=
  fun st =>
    (set_port_objects (port_objects st ++ [p]) st,
     Return (length (port_objects st))).

(** Reading the object behind a reference.  A reference held by a Python
    state always has its object; the [None] case stands for states that
    only the model can express. *)
Definition object_at (ref : nat) : M AsynPort :=
  fun st =>
    match port_objects st !! ref with
    | Some p => (st, Return p)
    | None => (st, Raise (mkExc "SystemError" "dangling reference"))
    end.

Definition update_object (ref : nat) (p : AsynPort) : M unit :=
  modify (fun st => set_port_objects (<[ref := p]> (port_objects st)) st).

(** [self.asyn_ports[name] = <object>] *)
Definition register_port (name : string) (ref : nat) : M unit :=
  modify (fun st => set_asyn_ports (<[name := ref]> (asyn_ports st)) st).

(** [self.asyn_ports[name]] *)
Definition lookup_port (name : string) : M nat :=
  ports <- gets asyn_ports ;;
  match ports !! name with
  | Some ref => ret ref
  | None => raise (KeyError name)
  end.

Definition handle_drvAsynSerialPortConfigure (args : list string)
  : M CmdResult :=
  let portName := args !! 0 in
  if negb (truthy portName) then ret ResNone
  else
    context <- gets get_load_context ;;
    ref <- new_object
             (make_port AsynSerialPort context (default "" portName)
                [("ttyName", args !! 1); ("priority", args !! 2);
                 ("noAutoConnect", args !! 3); ("noProcessEos", args !! 4)]
                None ∅) ;;
    register_port (default "" portName) ref ;;;
    ret ResNone.

Definition handle_drvAsynIPPortConfigure (args : list string)
  : M CmdResult :=
  let portName := args !! 0 in
  if truthy portName then
    context <- gets get_load_context ;;
    ref <- new_object
             (make_port AsynIPPort context (default "" portName)
                [("hostInfo", args !! 1); ("priority", args !! 2);
                 ("noAutoConnect", args !! 3); ("noProcessEos", args !! 4)]
                None ∅) ;;
    register_port (default "" portName) ref ;;;
    ret ResNone
  else ret ResNone.

(** The undecorated bodies of the three [@_motor_wrapper] methods. *)
Definition adsAsynPortDriverConfigure_body (args : list string)
  : M (option string) :=
  let portName := args !! 0 in
  if truthy portName then
    context <- gets get_load_context ;;
    ref <- new_object
             (make_port AdsAsynPort context (default "" portName)
                [("ipaddr", args !! 1); ("amsaddr", args !! 2);
                 ("amsport", args !! 3);
                 ("asynParamTableSize", args !! 4);
                 ("priority", args !! 5); ("noAutoConnect", args !! 6);
                 ("defaultSampleTimeMS", args !! 7);
                 ("maxDelayTimeMS", args !! 8);
                 ("adsTimeoutMS", args !! 9);
                 ("defaultTimeSource", args !! 10)]
                None ∅) ;;
    register_port (default "" portName) ref ;;;
    ret None
  else ret None.

Definition handle_adsAsynPortDriverConfigure : list string -> M CmdResult :=
  _motor_wrapper "adsAsynPortDriverConfigure" adsAsynPortDriverConfigure_body.

Definition handle_asynSetOption (args : list string) : M CmdResult :=
  match args with
  | name :: addr :: key :: value :: _ =>
      ref <- lookup_port name ;;
      port <- object_at ref ;;
      context <- gets get_load_context ;;
      let opt := mkOption context key value in
      match port_devices port with
      | Some devices =>
          match devices !! addr with
          | None => raise (KeyError addr)
          | Some dev =>
              update_object ref
                (port_with_devices
                   (Some (<[addr := mkDevice (<[key := opt]> (dev_options dev))]>
                            devices)) port) ;;;
              ret ResNone
          end
      | None =>
          update_object ref
            (port_with_options (<[key := opt]> (port_options port)) port) ;;;
          ret ResNone
      end
  | _ => raise (missing_arguments "handle_asynSetOption")
  end.

(** An argument string, or the default of the parameter. *)
Definition arg_or (d : PyVal) (o : option string) : PyVal :=
  match o with
  | Some s => PyStr s
  | None => d
  end.

Definition drvAsynMotorConfigure_body (args : list string)
  : M (option string) :=
  let port_name := default "" (args !! 0) in
  let driver_name := arg_or (PyStr "") (args !! 1) in
  let card_num := arg_or (PyInt 0) (args !! 2) in
  let num_axes := arg_or (PyInt 0) (args !! 3) in
  context <- gets get_load_context ;;
  ref <- new_object
           (make_port AsynMotor context port_name [] None
              (list_to_map [("num_axes", num_axes); ("card_num", card_num);
                            ("driver_name", driver_name)])) ;;
  register_port port_name ref ;;;
  ret None.

Definition handle_drvAsynMotorConfigure : list string -> M CmdResult :=
  _motor_wrapper "drvAsynMotorConfigure" drvAsynMotorConfigure_body.

Definition EthercatMCCreateController_body (args : list string)
  : M (option string) :=
  let motor_port := default "" (args !! 0) in
  let asyn_port := default "" (args !! 1) in
  let num_axes := arg_or (PyInt 0) (args !! 2) in
  let move_poll_rate := arg_or PyFloatZero (args !! 3) in
  let idle_poll_rate := arg_or PyFloatZero (args !! 4) in
  port_ref <- lookup_port asyn_port ;;
  context <- gets get_load_context ;;
  motor <- new_object
             (make_port AsynMotor context motor_port [] (Some asyn_port)
                (list_to_map [("num_axes", num_axes);
                              ("move_poll_rate", move_poll_rate);
                              ("idle_poll_rate", idle_poll_rate)])) ;;
  (* Tie it to both the original asyn port (as a motor) and also the
     top-level asyn ports. *)
  port <- object_at port_ref ;;
  update_object port_ref
    (port_with_motors (<[motor_port := motor]> (port_motors port)) port) ;;;
  register_port motor_port motor ;;;
  ret None.

Definition handle_EthercatMCCreateController : list string -> M CmdResult :=
  _motor_wrapper "EthercatMCCreateController" EthercatMCCreateController_body.

(** ** Dispatch *)

(** Calling a table entry with the argument strings.  The entry for
    [handle_command] dispatches again on its first argument. *)
Fixpoint call_handler (h : Handler) (args : list string) {struct args}
  : M CmdResult :=
  match h with
  | H_NDPvaConfigure => handle_NDPvaConfigure args
  | H_EthercatMCCreateController => handle_EthercatMCCreateController args
  | H_adsAsynPortDriverConfigure => handle_adsAsynPortDriverConfigure args
  | H_asynSetOption => handle_asynSetOption args
  | H_cd => handle_cd args
  | H_chdir => handle_chdir args
  | H_command =>
      match args with
      | command :: args' =>
          handlers <- gets _handlers ;;
          match handlers !! command with
          | Some handler => call_handler handler args'
          | None => unhandled command args'
          end
      | [] => raise (missing_arguments "handle_command")
      end
  | H_dbLoadDatabase => handle_dbLoadDatabase args
  | H_dbLoadRecords => handle_dbLoadRecords args
  | H_dbl => handle_dbl args
  | H_drvAsynIPPortConfigure => handle_drvAsynIPPortConfigure args
  | H_drvAsynMotorConfigure => handle_drvAsynMotorConfigure args
  | H_drvAsynSerialPortConfigure => handle_drvAsynSerialPortConfigure args
  | H_epicsEnvSet => handle_epicsEnvSet args
  | H_epicsEnvShow => handle_epicsEnvShow args
  | H_iocInit => handle_iocInit args
  | H_iocshCmd => handle_iocshCmd args
  | H_iocshRegisterVariable => handle_iocshRegisterVariable args
  | H_generic_motor name =>
      s <- _generic_motor_handler name args ;; ret (ResStr s)
  end.

(** [find_handlers]: every callable attribute [handle_<name>], as
    (name, method), in the order of [inspect.getmembers]. *)
Definition find_handlers : list (string * Handler) :=
  [("EthercatMCCreateController", H_EthercatMCCreateController);
   ("NDPvaConfigure", H_NDPvaConfigure);
   ("adsAsynPortDriverConfigure", H_adsAsynPortDriverConfigure);
   ("asynSetOption", H_asynSetOption);
   ("cd", H_cd);
   ("chdir", H_chdir);
   ("command", H_command);
   ("dbLoadDatabase", H_dbLoadDatabase);
   ("dbLoadRecords", H_dbLoadRecords);
   ("dbl", H_dbl);
   ("drvAsynIPPortConfigure", H_drvAsynIPPortConfigure);
   ("drvAsynMotorConfigure", H_drvAsynMotorConfigure);
   ("drvAsynSerialPortConfigure", H_drvAsynSerialPortConfigure);
   ("epicsEnvSet", H_epicsEnvSet);
   ("epicsEnvShow", H_epicsEnvShow);
   ("iocInit", H_iocInit);
   ("iocshCmd", H_iocshCmd);
   ("iocshRegisterVariable", H_iocshRegisterVariable)].

(** [_setup_dynamic_handlers]: a generic handler for every motor command
    that has no handler yet. *)
Definition _setup_dynamic_handlers (handlers : gmap string Handler)
  : gmap string Handler :=
  handlers ∪ map_imap (fun name _ => Some (H_generic_motor name))
                      motor_shell_commands.

(** [__post_init__] on the handler table given to the constructor. *)
Definition post_init_handlers (given : gmap string Handler)
  : gmap string Handler :=
  _setup_dynamic_handlers (list_to_map find_handlers ∪ given).

Definition handle_command (command : string) (args : list string)
  : M CmdResult :=
  handlers <- gets _handlers ;;
  match handlers !! command with
  | Some handler => call_handler handler args
  | None => unhandled command args
  end.

(** ** The interpreter

    The three generators are run to exhaustion: a run is the final state,
    the results yielded in order, and the exception that ended it, if
    any.  The nesting of [<] redirections and of re-invoked commands is
    not bounded by the code, so the definitions take [fuel], the number
    of nested interpretations allowed; [None] means the fuel did not
    suffice. *)

Definition Run : Type := ShellState * list IocshResult * option Exc.

(** [load_ctx.line = lineno], through the object's identity. *)
Definition set_line (id lineno : nat) (stack : list MutableLoadContext)
  : list MutableLoadContext :=
  map (fun c =>
         if Nat.eqb (ctx_id c) id then mkCtx id (ctx_name c) lineno else c)
      stack.

(** [a == b] as [list.remove] evaluates it: the same object, or two
    objects with equal [name] and [line]. *)
Definition ctx_equal (a b : MutableLoadContext) : bool :=
  Nat.eqb (ctx_id a) (ctx_id b)
  || (String.eqb (ctx_name a) (ctx_name b)
      && Nat.eqb (ctx_line a) (ctx_line b)).

(** [stack.remove(x)]: drops the first element equal to [x]; [None] when
    there is none ([ValueError]). *)
Fixpoint list_remove (x : MutableLoadContext) (stack : list MutableLoadContext)
  : option (list MutableLoadContext) :=
  match stack with
  | [] => None
  | e :: rest =>
      if ctx_equal e x then Some rest
      else cons e <$> list_remove x rest
  end.

(** The [for lineno, line in enumerate(lines, 1)] loop.  The last
    component is the value of [load_ctx.line] when the loop is left. *)
Fixpoint script_loop (interpret_line : string -> ShellState -> option Run)
  (id lineno current : nat) (lines : list string) (st : ShellState)
  : option (Run * nat) :=
  match lines with
  | [] => Some ((st, [], None), current)
  | line :: rest =>
      let st := set_load_context (set_line id lineno (load_context st)) st in
      match interpret_line line st with
      | None => None
      | Some (st, ys, Some ex) => Some ((st, ys, Some ex), lineno)
      | Some (st, ys, None) =>
          match script_loop interpret_line id (S lineno) lineno rest st with
          | None => None
          | Some ((st, ys', ex), current) => Some ((st, ys ++ ys', ex), current)
          end
      end
  end.

(** [interpret_shell_script], given how one line is interpreted. *)
Definition interpret_shell_script_with
  (interpret_line : string -> ShellState -> option Run)
  (lines : list string) (name : string) (st : ShellState) : option Run :=
  let id := ctx_next st in
  let load_ctx := mkCtx id name 0 in
  let st := set_ctx_next (S id) st in
  let st := set_load_context (load_context st ++ [load_ctx]) st in
  match script_loop interpret_line id 1 0 lines st with
  | None => None
  | Some ((st, ys, ex), current) =>
      (* finally: self.load_context.remove(load_ctx) *)
      match list_remove (mkCtx id name current) (load_context st) with
      | Some stack => Some (set_load_context stack st, ys, ex)
      | None =>
          Some (st, ys, Some (ValueError "list.remove(x): x not in list"))
      end
  end.

(** [_handle_input_redirect], given how a nested script is interpreted.
    The nested call is made without [raise_on_error]. *)
Definition _handle_input_redirect
  (interpret_script : list string -> string -> ShellState -> option Run)
  (redir : IocshRedirect) (shresult : IocshResult) (st : ShellState)
  : option Run :=
  match load_file (redir_name redir) st with
  | (st, Raise ex) =>
      Some (st,
            [sr_with_error (exc_type ex +:+ ": " +:+ redir_name redir)
               shresult],
            None)
  | (st, Return (filename, contents)) =>
      match interpret_script (PyStr.splitlines contents) (path_str filename) st
      with
      | None => None
      | Some (st, ys, ex) => Some (st, shresult :: ys, ex)
      end
  end.

Definition is_input_redirect (redir : IocshRedirect) : bool :=
  String.eqb (redir_mode redir) "r".

Definition argv_of (shresult : IocshResult) : list string :=
  default [] (sr_argv shresult).

Fixpoint interpret_shell_line (fuel : nat) (line : string)
  (recurse raise_on_error : bool) (st : ShellState) {struct fuel}
  : option Run :=
  match fuel with
  | O => None
  | S fuel =>
      let shresult :=
        parse_iocsh_line line (get_load_context st) (prompt st)
          (macro_context st) (string_encoding st) in
      let input_redirects :=
        List.filter is_input_redirect (sr_redirects shresult) in
      (* yield shresult, then interpret the command it may carry *)
      let yield_and_reinvoke (shresult : IocshResult) (st : ShellState) :=
        match sr_result shresult with
        | ResCmdArgs a =>
            match interpret_shell_line fuel (ca_command a) recurse false st
            with
            | None => None
            | Some (st, ys, ex) => Some (st, shresult :: ys, ex)
            end
        | _ => Some (st, [shresult], None)
        end in
      if truthy (sr_error shresult) then Some (st, [shresult], None)
      else
        match input_redirects with
        | redir :: _ =>
            if recurse then
              _handle_input_redirect
                (interpret_shell_script_with
                   (fun line => interpret_shell_line fuel line recurse false))
                redir shresult st
            else Some (st, [], None)
        | [] =>
            match argv_of shresult with
            | command :: args =>
                match handle_command command args st with
                | (st, Return result) =>
                    yield_and_reinvoke (sr_with_result result shresult) st
                | (st, Raise ex) =>
                    if raise_on_error then Some (st, [], Some ex)
                    else
                      yield_and_reinvoke
                        (sr_with_error
                           ("Failed to execute: " +:+ exc_msg ex +:+ ":"
                            +:+ String "010" (format_exc ex))
                           shresult) st
                end
            | [] => Some (st, [shresult], None)
            end
        end
  end.

Definition interpret_shell_script (fuel : nat) (lines : list string)
  (name : string) (recurse raise_on_error : bool) (st : ShellState)
  : option Run :=
  interpret_shell_script_with
    (fun line => interpret_shell_line fuel line recurse raise_on_error)
    lines name st.

(** ** Queries *)

(** The [try] block of [get_asyn_port_from_record]; [None] also stands
    for the exception that the [except] clause swallows. *)
Definition asyn_port_name (value : string) : option string :=
  asyn_args ← PyStr.strip_chars " ()" <$> (PyStr.split value "@asyn" !! 1);
  asyn_port ← head (PyStr.split asyn_args ",");
  Some (PyStr.strip asyn_port).

Definition get_asyn_port_from_record (st : ShellState) (inst : RecordInstance)
  : option nat :=
  let rec_field :=
    match ri_fields inst !! "INP" with
    | Some f => Some f
    | None => ri_fields inst !! "OUT"
    end in
  match rec_field with
  | None => None
  | Some rec_field =>
      let value := PyStr.strip (rf_value rec_field) in
      if PyStr.startswith value "@asyn" then
        name ← asyn_port_name value;
        asyn_ports st !! name
      else None
  end.
End Shell.

Record WhatRecord := mkWhatRecord {
  wr_name : string;
  wr_owner : option string;
  wr_instances : list RecordInstance;
  wr_asyn_ports : list (option nat);
  wr_ioc : option IocMetadata
}.

(** The module-level function [whatrec].  The port list holds references to
    port objects; [state.asyn_ports.get(parent_port, None)] may put [None]
    in front. *)
Definition whatrec (state : ShellState) (rec : string) (field : option string)
  (include_pva : bool) : option WhatRecord :=
  let v3_inst := database state !! rec in
  let pva_inst := if include_pva then pva_database state !! rec else None in
  match v3_inst, pva_inst with
  | None, None => None
  | _, _ =>
      let asyn_ports :=
        match v3_inst with
        | Some inst =>
            match get_asyn_port_from_record state inst with
            | Some asyn_port =>
                let parent_port :=
                  p ← port_objects state !! asyn_port; port_parent p in
                match parent_port with
                | Some parent_port =>
                    [asyn_ports state !! parent_port; Some asyn_port]
                | None => [Some asyn_port]
                end
            | None => []
            end
        | None => []
        end in
      let instances := option_list v3_inst ++ option_list pva_inst in
      Some (mkWhatRecord rec None instances asyn_ports None)
  end.

(** ** [LoadedIoc] and [ScriptContainer] *)

Record IocshScript := mkScript {
  script_path : string;
  script_lines : list IocshResult
}.

Record LoadedIoc := mkLoadedIoc {
  li_name : string;
  li_path : Path;
  li_metadata : IocMetadata;
  li_shell_state : ShellState;
  li_script : IocshScript
}.

Record ScriptContainer := mkContainer {
  sc_database : gmap string RecordInstance;
  sc_pva_database : gmap string RecordInstance;
  sc_scripts : gmap string LoadedIoc;
  sc_loaded_files : gmap string string
}.

(** [dict.update]: the entries of [other] replace those of [d]. *)
Definition dict_update {V} (d other : gmap string V) : gmap string V :=
  other ∪ d.

Definition add_script (self : ScriptContainer) (loaded : LoadedIoc)
  : ScriptContainer :=
  {| sc_scripts :=
       <[path_str (md_script (li_metadata loaded)) := loaded]> (sc_scripts self);
     sc_database :=
       dict_update (sc_database self) (database (li_shell_state loaded));
     sc_pva_database :=
       dict_update (sc_pva_database self) (pva_database (li_shell_state loaded));
     sc_loaded_files :=
       dict_update (sc_loaded_files self) (loaded_files (li_shell_state loaded))
  |}.

(** [ShellState(working_directory=wd, macro_context=mc, ioc_info=md)]:
    the defaults of the other fields, then [__post_init__]. *)
Definition new_ShellState `{Ext : External} (wd : Path) (mc : MacroContext)
  (md : IocMetadata) : ShellState :=
  mkState "epics>" ∅ "latin-1" false [] wd None ∅ ∅ [] ∅ ∅
          (mkMacroContext (mc_scopes mc) "latin-1") md
          (post_init_handlers ∅) [] 0.

(** ** [ScriptContainer.whatrec]

    What the method passes to [fmt.render_object] and prints: a record
    instance, or a port object ([None] where the port list holds
    [None]). *)
Inductive Printed :=
| PrintInstance (inst : RecordInstance)
| PrintPort (port : option AsynPort).

(** The body of the loop for one script that knows the record: the result
    is given its owner and its IOC, and every instance is printed,
    followed each time by all the ports.  [file] tells whether the [file]
    argument is other than [None]. *)
Definition whatrec_owned (stcmd : string) (loaded : LoadedIoc)
  (info : WhatRecord) : WhatRecord :=
  mkWhatRecord (wr_name info) (Some stcmd) (wr_instances info)
               (wr_asyn_ports info) (Some (li_metadata loaded)).

Definition whatrec_printed (loaded : LoadedIoc) (info : WhatRecord)
  (file : bool) : list Printed :=
  if file then
    flat_map
      (fun inst =>
         PrintInstance inst
         :: map (fun asyn_port =>
                   PrintPort
                     (ref ← asyn_port;
                      port_objects (li_shell_state loaded) !! ref))
                (wr_asyn_ports info))
      (wr_instances info)
  else [].

(** The method, over [self.scripts.items()] in the order of the dict (the
    container of the model keeps the scripts in a finite map, which has no
    such order): the results, and what was printed. *)
Fixpoint ScriptContainer_whatrec (items : list (string * LoadedIoc))
  (rec : string) (field : option string) (include_pva file : bool)
  : list WhatRecord * list Printed :=
  match items with
  | [] => ([], [])
  | (stcmd, loaded) :: rest =>
      let '(result, printed) :=
        ScriptContainer_whatrec rest rec field include_pva file in
      match whatrec (li_shell_state loaded) rec field include_pva with
      | Some info =>
          (whatrec_owned stcmd loaded info :: result,
           whatrec_printed loaded info file ++ printed)
      | None => (result, printed)
      end
  end.

(** A script whose state knows the record. *)
Definition knows (rec : string) (include_pva : bool)
  (item : string * LoadedIoc) : bool :=
  let st := li_shell_state item.2 in
  match database st !! rec, (if include_pva then pva_database st !! rec else None)
  with
  | None, None => false
  | _, _ => true
  end.

(** The empty container, and a container filled from a sequence of
    loaded IOCs. *)
Definition new_ScriptContainer : ScriptContainer := mkContainer ∅ ∅ ∅ ∅.

Definition add_scripts (self : ScriptContainer) (loaded : list LoadedIoc)
  : ScriptContainer :=
  foldl add_script self loaded.

(** What the last of the loaded IOCs that gives a value gives, or [d] when
    none does. *)
Definition latest {V} (loaded : list LoadedIoc) (f : LoadedIoc -> option V)
  (d : option V) : option V :=
  match last (omap f loaded) with
  | Some v => Some v
  | None => d
  end.

(** ** Loading IOCs into a container *)

(** What the loaders call outside [shell.py]: the defaults that
    [ShellState()] takes for its fields, and the class methods of
    [whatrecord.common].  [IocshScript.from_metadata(md, sh=sh)] works on
    the state [sh] it is given and returns the script, or raises. *)
Class Loading := {
  (** [pathlib.Path.cwd()], [MacroContext()], [IocMetadata()] *)
  Path_cwd : Path;
  MacroContext_new : MacroContext;
  IocMetadata_new : IocMetadata;
  (** [IocMetadata.from_filename(fn, standin_directories=...)] *)
  IocMetadata_from_filename :
    string -> option (list (string * string)) -> Exc + IocMetadata;
  (** [IocshScript.from_metadata(md, sh=sh)] *)
  IocshScript_from_metadata : IocMetadata -> M IocshScript;
  (** [IocshResult.from_line(line)] *)
  IocshResult_from_line : string -> IocshResult
}.

Definition set_standin_directories (v : list (string * string))
  (st : ShellState) : ShellState :=
  mkState (prompt st) (variables st) (string_encoding st) (ioc_initialized st)
         v (working_directory st) (database_definition st) (database st)
         (pva_database st) (load_context st) (asyn_ports st) (loaded_files st)
         (macro_context st) (ioc_info st) (_handlers st) (port_objects st)
         (ctx_next st).

(** [LoadedIoc.from_errored_load(md, ex)].  The second component is the
    text stored in [md.metadata] under [load_error], a dict that the
    model of [IocMetadata] does not carry. *)
Definition from_errored_load `{Ext : External} `{Load : Loading}
  (md : IocMetadata) (ex : Exc) : LoadedIoc * string :=
  let script :=
    mkScript (path_str (md_script md))
             (map IocshResult_from_line (PyStr.splitlines (exc_msg ex))) in
  (mkLoadedIoc (md_name md) (md_script md) md
     (new_ShellState Path_cwd MacroContext_new IocMetadata_new) script,
   exc_type ex +:+ ": " +:+ exc_msg ex).

(** [LoadedIoc.from_metadata(md)].  The state is constructed around the
    very object [md], so what the interpretation writes to [ioc_info] is
    what the [metadata] of the result shows. *)
Definition from_metadata `{Ext : External} `{Load : Loading}
  (md : IocMetadata) : Exc + LoadedIoc :=
  let sh := new_ShellState Path_cwd MacroContext_new md in
  let sh := set_working_directory (md_startup_directory md) sh in
  let sh :=
    set_macro_context (macro_define (macro_context sh) (md_macros md)) sh in
  let sh := set_standin_directories (md_standin_directories md) sh in
  match IocshScript_from_metadata md sh with
  | (sh, Return script) =>
      inr (mkLoadedIoc (md_name md) (md_script md) (ioc_info sh) sh script)
  | (_, Raise ex) => inl ex
  end.

(** [sorted(set(fns))]: the distinct names in the order of [str]. *)
Definition str_le (a b : string) : Prop := String.leb a b = true.

#[global] Instance str_le_dec (a b : string) : Decision (str_le a b).
Proof. unfold str_le. apply _. Defined.

Definition sorted_set (fns : list string) : list string :=
  merge_sort str_le (remove_dups fns).

(** The loop of [load_startup_scripts]: the first exception ends it. *)
Fixpoint load_each `{Ext : External} `{Load : Loading}
  (standin_directories : option (list (string * string)))
  (container : ScriptContainer) (fns : list string) : Exc + ScriptContainer :=
  match fns with
  | [] => inr container
  | fn :: rest =>
      match IocMetadata_from_filename fn standin_directories with
      | inl ex => inl ex
      | inr md =>
          match from_metadata md with
          | inl ex => inl ex
          | inr loaded =>
              load_each standin_directories (add_script container loaded) rest
          end
      end
  end.

(** [load_startup_scripts( *fns, standin_directories, processes)]: the
    container returned, or the exception raised.  The branch for more
    than one process has no statement but [...].  The progress messages
    and the interruption of the loop from the keyboard are not
    modelled. *)
Definition load_startup_scripts `{Ext : External} `{Load : Loading}
  (fns : list string) (standin_directories : option (list (string * string)))
  (processes : Z) : Exc + ScriptContainer :=
  let container := new_ScriptContainer in
  if (1 <? processes)%Z then inr container
  else load_each standin_directories container (sorted_set fns).

(** ** The behaviour the specification words differently

    Two definitions that follow the specification's sentences rather than
    the code, to compare the code against. *)

(** "longest-matching absolute-path prefix rewrite": among the stand-in
    prefixes that [filename] starts with, the longest one. *)
Fixpoint longest_standin (items : list (string * string)) (filename : string)
  (best : option (string * string)) : option (string * string) :=
  match items with
  | [] => best
  | (from_, to) :: rest =>
      let better :=
        match best with
        | None => true
        | Some (b, _) => Nat.ltb (PyStr.len b) (PyStr.len from_)
        end in
      if PyStr.startswith filename from_ && better
      then longest_standin rest filename (Some (from_, to))
      else longest_standin rest filename best
  end.

Definition fix_path_longest_prefix `{Ext : External} (st : ShellState)
  (filename : string) : Path :=
  match
    (if os_path_isabs filename
     then longest_standin (standin_directories st) filename None
     else None)
  with
  | Some (from_, to) =>
      pathlib_Path (to +:+ PyStr.slice_from (PyStr.len from_) filename)
  | None => path_join (working_directory st) filename
  end.

(** "a field-level merge, not whole-object replacement": the merge rule of
    the data model (fields merged, later values win; provenance appended)
    applied to every record of the added state. *)
Definition field_level_merge (old new : gmap string RecordInstance)
  : gmap string RecordInstance :=
  union_with
    (fun n o =>
       Some (ri_with_fields (ri_fields n ∪ ri_fields o)
               (ri_with_context (ri_context o ++ ri_context n) o)))
    new old.

(** ** A small concrete world

    One implementation of the collaborators, used to run the definitions
    on concrete inputs: a tokenizer that knows blanks, double quotes and a
    leading [<]; a file system of four files and three directories. *)

Module World.

Definition nl : string := String "010" "".

Fixpoint tokens (l : list ascii) (quoted : bool) (cur : list ascii)
  (started : bool) : list string :=
  match l with
  | [] => if started then [PyStr.str (rev cur)] else []
  | c :: l' =>
      if Ascii.eqb c "034" then tokens l' (negb quoted) cur true
      else if Ascii.eqb c " " && negb quoted then
        (if started then [PyStr.str (rev cur)] else [])
        ++ tokens l' false [] false
      else tokens l' quoted (c :: cur) true
  end.

Definition parse (line : string) (context : FullLoadContext)
  (prompt : string) (mc : MacroContext) (encoding : string) : IocshResult :=
  match tokens (PyStr.chars line) false [] false with
  | "<" :: name :: _ =>
      mkResult context line [] None None [mkRedirect 0 name "r"] ResNone
  | argv => mkResult context line [] (Some argv) None [] ResNone
  end.

Definition join (p : Path) (s : string) : Path :=
  if PyStr.startswith s "/" then mkPath s
  else mkPath (path_str p +:+ "/" +:+ s).

Definition exists_ (p : Path) : bool :=
  bool_decide (path_str p ∈ ["/ioc"; "/ioc/sub"; "/ioc/sub/sub"]).

Definition FileNotFoundError (p : Path) : Exc :=
  mkExc "FileNotFoundError" (path_str p).

Definition read (p : Path) (encoding : string) : Exc + (string * string) :=
  let name := path_str p in
  if String.eqb name "/ioc/st.cmd" then inr ("sha-st", "< /ioc/a.cmd")
  else if String.eqb name "/ioc/a.cmd"
  then inr ("sha-a", "cd sub" +:+ nl +:+ "< b.cmd")
  else if String.eqb name "/ioc/sub/b.cmd"
  then inr ("sha-b", "< /ioc/a.cmd" +:+ nl +:+ "dbl")
  else if String.eqb name "/ioc/base.dbd" then inr ("sha-dbd", "")
  else if String.eqb name "/ioc/recs.db" then inr ("sha-db", "")
  else inl (FileNotFoundError p).

Definition rbv : RecordInstance :=
  mkRecord [("/ioc/recs.db", 1)] "test:rbv" "ao"
           {["OUT" := mkField "DBF_OUTLINK" "OUT" "@asyn(M1,0,1)POS"
                              [("/ioc/recs.db", 2)]]}
           false ∅.

Definition grp : RecordInstance :=
  mkRecord [("/ioc/recs.db", 4)] "test:grp" "PVA"
           {["value" := mkField "" "value" "test:rbv.VAL"
                                [("/ioc/recs.db", 4)]]}
           true ∅.

Definition from_file (p : Path) (dbd : Database) (mc : MacroContext)
  (version : nat) : Exc + Database :=
  if String.eqb (path_str p) "/ioc/recs.db"
  then inr (mkDatabase ∅ [("test:rbv", rbv)] [("test:grp", grp)])
  else inl (FileNotFoundError p).

#[export] Instance world : External := {|
  parse_iocsh_line := parse;
  format_exc := fun ex => "Traceback (most recent call last): " +:+ exc_type ex;
  py_repr := fun s => "'" +:+ s +:+ "'";
  pathlib_Path := mkPath;
  path_join := join;
  path_resolve := fun p => p;
  path_exists := exists_;
  read_text_file_with_hash := read;
  definitions_to_dict := fun _ _ => inr ∅;
  macro_define := fun mc m =>
    match mc_scopes mc with
    | top :: rest => mkMacroContext ((m ∪ top) :: rest) (mc_string_encoding mc)
    | [] => mkMacroContext [m] (mc_string_encoding mc)
    end;
  macro_scoped_enter := fun mc m =>
    mkMacroContext (m :: mc_scopes mc) (mc_string_encoding mc);
  macro_scoped_exit := fun mc =>
    mkMacroContext (tail (mc_scopes mc)) (mc_string_encoding mc);
  macro_get_macros := fun mc => foldr (fun m acc => m ∪ acc) ∅ (mc_scopes mc);
  Database_from_string := fun _ _ _ => inr (mkDatabase ∅ [] []);
  Database_from_file := from_file;
  motor_shell_commands :=
    {["drvAsynMotorConfigure" :=
        [("port_name", "str"); ("driver_name", "str"); ("card_num", "int");
         ("num_axes", "int")];
      "EthercatMCCreateController" :=
        [("motor_port", "str"); ("asyn_port", "str"); ("num_axes", "int");
         ("move_poll_rate", "float"); ("idle_poll_rate", "float")];
      "adsAsynPortDriverConfigure" := [("portName", "str")]]};
  DEFAULT_BASE_VERSION := "3.15";
  database_version_spec := fun md =>
    if PyStr.startswith (md_base_version md) "3." then 3 else 4;
  multi_device := fun cls =>
    match cls with AdsAsynPort => true | _ => false end
|}.

Definition metadata : IocMetadata :=
  mkMetadata "ioc" (mkPath "/ioc/st.cmd") (mkPath "/ioc") ∅ [] ∅ "3.15".

(** A freshly constructed state in directory [/ioc]. *)
Definition fresh : ShellState :=
  new_ShellState (mkPath "/ioc") (mkMacroContext [∅] "latin-1") metadata.

(** The state a handler leaves behind. *)
Definition after (h : M CmdResult) (st : ShellState) : ShellState := fst (h st).


(** After [dbLoadDatabase base.dbd], and after [iocInit] on top of it. *)
Definition with_schema : ShellState :=
  after (handle_dbLoadDatabase ["base.dbd"]) fresh.
Definition initialized : ShellState :=
  after (handle_iocInit []) with_schema.

(** A serial port [L0]; an ADS port [ADS] that owns a sub-device at
    address [0]. *)
Definition with_serial : ShellState :=
  after (handle_drvAsynSerialPortConfigure ["L0"; "/dev/ttyS0"]) fresh.
Definition ads_port : AsynPort :=
  mkPort AdsAsynPort [] "ADS" [] None ∅ ∅ (Some {["0" := mkDevice ∅]}) ∅.
Definition with_ads_device : ShellState :=
  set_asyn_ports {["ADS" := 0]} (set_port_objects [ads_port] fresh).

(** Two stand-in prefixes, the shorter one configured first. *)
Definition with_standins : ShellState :=
  mkState "epics>" ∅ "latin-1" false
          [("/a/", "/x/"); ("/a/b/", "/y/")]
          (mkPath "/ioc") None ∅ ∅ [] ∅ ∅ (mkMacroContext [∅] "latin-1")
          metadata (post_init_handlers ∅) [] 0.

(** A container that already holds [test:rbv] from another IOC, and a
    loaded IOC that declares [test:rbv] again. *)
Definition rbv_other : RecordInstance :=
  mkRecord [("/other/st.cmd", 3); ("/other/recs.db", 1)] "test:rbv" "ao"
           {["EGU" := mkField "DBF_STRING" "EGU" "mm" [("/other/recs.db", 2)]]}
           false ∅.
Definition container : ScriptContainer :=
  mkContainer {["test:rbv" := rbv_other]} ∅ ∅ ∅.
Definition loaded : LoadedIoc :=
  mkLoadedIoc "ioc" (mkPath "/ioc/st.cmd") metadata
              (set_database {["test:rbv" := rbv]} fresh)
              (mkScript "/ioc/st.cmd" []).

(** The schema attached and [recs.db] loaded once: a classic record
    [test:rbv] and a PVA group [test:grp]. *)
Definition loaded_once : ShellState :=
  after (handle_dbLoadRecords ["recs.db"; "P=test:"]) with_schema.

(** The line [iocshCmd "dbLoadRecords recs.db P=test:"]. *)
Definition quote : string := String "034" "".
Definition iocshCmd_line : string :=
  "iocshCmd " +:+ quote +:+ "dbLoadRecords recs.db P=test:" +:+ quote.

(** [loaded_once] with a serial port [L0] and a motor [M1] on it:
    [test:rbv] has the link [@asyn(M1,0,1)POS]. *)
Definition with_motor : ShellState :=
  after (handle_EthercatMCCreateController ["M1"; "L0"; "4"])
    (after (handle_drvAsynSerialPortConfigure ["L0"; "/dev/ttyS0"])
       loaded_once).

(** The moment at which [b.cmd], included from line 2 of [a.cmd],
    includes [a.cmd] again: the stack holds [st.cmd], [a.cmd] and [b.cmd],
    and the first pass over [a.cmd] has changed directory to [/ioc/sub]. *)
Definition inside_b : ShellState :=
  set_ctx_next 3
    (set_load_context
       [mkCtx 0 "/ioc/st.cmd" 1; mkCtx 1 "/ioc/a.cmd" 2;
        mkCtx 2 "/ioc/sub/b.cmd" 1]
       (set_working_directory (mkPath "/ioc/sub") fresh)).
Definition a_cmd : list string := ["cd sub"; "< b.cmd"].

(** A start-up script that uses most of the commands. *)
Definition boot : list string :=
  ["dbLoadDatabase base.dbd";
   "dbLoadRecords recs.db P=test:";
   "drvAsynSerialPortConfigure L0 /dev/ttyS0";
   "EthercatMCCreateController M1 L0 4";
   "asynSetOption L0 0 baud 9600";
   "epicsEnvSet EPICS_BASE /reg/g/pcds/epics/base/R7.0.2-2.0/";
   "iocshRegisterVariable x 1";
   "iocInit";
   "cd sub";
   "dbLoadRecords recs.db P=test:"].

(** An IOC whose record [test:rbv] is also a PVA group, and the scripts
    of a container that holds it beside one that knows no record. *)
Definition with_group : ShellState :=
  after (handle_NDPvaConfigure ["PVA1"; ""; ""; ""; ""; "test:rbv"])
    with_motor.
Definition scripts : list (string * LoadedIoc) :=
  [("/ioc/st.cmd",
    mkLoadedIoc "ioc" (mkPath "/ioc/st.cmd") metadata with_group
      (mkScript "/ioc/st.cmd" []));
   ("/empty/st.cmd",
    mkLoadedIoc "empty" (mkPath "/empty/st.cmd") metadata fresh
      (mkScript "/empty/st.cmd" []))].

(** The loaders of the concrete world: one start-up script, [/ioc/st.cmd],
    interpreted from its text. *)
Definition from_filename (fn : string)
  (standin_directories : option (list (string * string)))
  : Exc + IocMetadata :=
  if String.eqb fn "/ioc/st.cmd" then inr metadata
  else inl (FileNotFoundError (mkPath fn)).

Definition script_from_metadata (md : IocMetadata) : M IocshScript :=
  fun sh =>
    match load_file (Ext := world) (path_str (md_script md)) sh with
    | (sh, Raise ex) => (sh, Raise ex)
    | (sh, Return (filename, contents)) =>
        match
          interpret_shell_script (Ext := world) 6
            (PyStr.splitlines contents) (path_str filename) true false sh
        with
        | Some (sh, ys, None) => (sh, Return (mkScript (path_str filename) ys))
        | Some (sh, _, Some ex) => (sh, Raise ex)
        | None => (sh, Raise (mkExc "RecursionError" ""))
        end
    end.

#[export] Instance loading : Loading := {|
  Path_cwd := mkPath "/";
  MacroContext_new := mkMacroContext [∅] "latin-1";
  IocMetadata_new := mkMetadata "" (mkPath "") (mkPath "") ∅ [] ∅ "3.15";
  IocMetadata_from_filename := from_filename;
  IocshScript_from_metadata := script_from_metadata;
  IocshResult_from_line := fun line => mkResult [] line [] None None [] ResNone
|}.

(** A serial port [P1] and three records whose [INP] links name it: with
    address and timeout, with the port name alone, and through
    [asynMask]. *)
Definition linked (name link : string) : RecordInstance :=
  mkRecord [("/ioc/asyn.db", 1)] name "ai"
           {["INP" := mkField "DBF_INLINK" "INP" link [("/ioc/asyn.db", 2)]]}
           false ∅.
Definition with_links : ShellState :=
  set_database
    (list_to_map
       [("test:addr", linked "test:addr" "@asyn(P1,0,1)PARAM");
        ("test:bare", linked "test:bare" "@asyn(P1)PARAM");
        ("test:mask", linked "test:mask" "@asynMask(P1,0,255)PARAM")])
    (after (handle_drvAsynSerialPortConfigure ["P1"; "/dev/ttyS0"]) fresh).

End World.

(** ** Vocabulary of the statements *)

(** [self.asyn_ports.get(name)] as a value: the port object registered
    under [name]. *)
Definition port_named (st : ShellState) (name : string) : option AsynPort :=
  ref ← asyn_ports st !! name; port_objects st !! ref.

(** The handler call [h] returns normally and leaves the state as it was. *)
Definition no_op (h : M CmdResult) (st : ShellState) : Prop :=
  exists r, h st = (st, Return r).

(** The handler call [h] returns normally, having created a port object of
    class [cls] with the given name, parent and the current load context,
    and registered it under [name]; the other names of the registry are as
    before. *)
Definition registers (h : M CmdResult) (st : ShellState) (name : string)
  (cls : PortClass) (parent : option string) : Prop :=
  exists st' ref port r,
    h st = (st', Return r)
    /\ asyn_ports st' !! name = Some ref
    /\ port_objects st' !! ref = Some port
    /\ port_name port = name
    /\ port_class port = cls
    /\ port_parent port = parent
    /\ port_context port = get_load_context st
    /\ forall other, other <> name ->
         asyn_ports st' !! other = asyn_ports st !! other.

(** The merge rule of the data model for a re-declared record: the fields
    of the new declaration overwrite those of the stored one, and the new
    provenance is appended to the stored one. *)
Definition redeclared (entry rec : RecordInstance) : RecordInstance :=
  ri_with_fields (ri_fields rec ∪ ri_fields entry)
    (ri_with_context (ri_context entry ++ ri_context rec) entry).

(** A port name as the [@asyn] link syntax can carry it: no white space,
    comma, parenthesis or [@] in it. *)
Definition port_name_char (c : ascii) : bool :=
  negb (PyStr.isspace c) && negb (PyStr.mem (PyStr.chars ",()@") c).

Definition is_port_name (port : string) : Prop :=
  forallb port_name_char (PyStr.chars port) = true.

(** The link text [value] is an asyn reference to [port]: [@asyn], the
    opening parenthesis (blanks are tolerated around it), the port name,
    and then either a comma and the rest of the link, or only closing
    parentheses.  White space may surround the whole. *)
Definition asyn_reference (value port : string) : Prop :=
  exists before opening after : string,
    forallb PyStr.isspace (PyStr.chars before) = true
    /\ forallb (PyStr.mem (PyStr.chars " ()")) (PyStr.chars opening) = true
    /\ forallb PyStr.isspace (PyStr.chars after) = true
    /\ ((exists rest, value = before +:+ "@asyn" +:+ opening +:+ port +:+ ","
                              +:+ rest)
        \/ (exists closing,
              port <> ""
              /\ forallb (PyStr.mem (PyStr.chars "()")) (PyStr.chars closing)
                 = true
              /\ value = before +:+ "@asyn" +:+ opening +:+ port +:+ closing
                         +:+ after)).

(** [inst.fields.get("INP", inst.fields.get("OUT", None))] is [link]. *)
Definition primary_link (inst : RecordInstance) (link : RecordField) : Prop :=
  ri_fields inst !! "INP" = Some link
  \/ (ri_fields inst !! "INP" = None /\ ri_fields inst !! "OUT" = Some link).

(** The load-context stack and the numbering of its entries are the same
    in [st'] as in [st]. *)
Definition same_stack (st st' : ShellState) : Prop :=
  load_context st' = load_context st /\ ctx_next st' = ctx_next st.

(** Every port object that names a parent names a registered port; and
    the relation between two states that the second has this property if
    the first has. *)
Definition parents_registered (st : ShellState) : Prop :=
  forall ref port parent,
    port_objects st !! ref = Some port -> port_parent port = Some parent ->
    is_Some (asyn_ports st !! parent).

Definition parents_stay (st st' : ShellState) : Prop :=
  parents_registered st -> parents_registered st'.

(** A computation keeps a relation [R] when every run of it relates its
    start state to its end state, whether it returns or raises. *)
Definition keeps (R : ShellState -> ShellState -> Prop) {A} (m : M A) : Prop :=
  forall st st' out, m st = (st', out) -> R st st'.

(** The relations this is used with: reflexive, transitive, and blind to
    the macro context. *)
Class Frame (R : ShellState -> ShellState -> Prop) : Prop := {
  frame_refl : forall st, R st st;
  frame_trans : forall st1 st2 st3, R st1 st2 -> R st2 st3 -> R st1 st3;
  frame_macro : forall mc st, R st (set_macro_context mc st)
}.

(** The parts of a run, when the fuel sufficed. *)
Definition run_state (r : option Run) : option ShellState :=
  (fun r : Run => r.1.1) <$> r.
Definition run_results (r : option Run) : option (list IocshResult) :=
  (fun r : Run => r.1.2) <$> r.
Definition run_exception (r : option Run) : option (option Exc) :=
  (fun r : Run => r.2) <$> r.

(** The marker [handle_dbLoadDatabase] returns when a schema is already
    attached, and the error text of a line whose handler raised. *)
Definition multiple_dbLoadDatabase : CmdResult :=
  ResStr "whatrecord: TODO multiple dbLoadDatabase".

Definition failed_to_execute `{Ext : External} (ex : Exc) : string :=
  "Failed to execute: " +:+ exc_msg ex +:+ ":" +:+ String "010" (format_exc ex).

(** What [asyn_port_name] computes, on lists of characters. *)
Definition extracted (s : list ascii) : option (list ascii) :=
  piece ← PyStr.split_l (PyStr.chars "@asyn") s !! 1;
  h ← head (PyStr.split_l (PyStr.chars ",")
              (PyStr.strip_by (PyStr.mem (PyStr.chars " ()")) piece));
  Some (PyStr.strip_by PyStr.isspace h).

(** ** Vocabulary of the invariants *)

(** Every key of [m] is a key of [m']. *)
Definition keys_kept {V W} (m : gmap string V) (m' : gmap string W) : Prop :=
  forall k, is_Some (m !! k) -> is_Some (m' !! k).

(** The attributes that are fixed when the state is constructed. *)
Definition same_configuration (st st' : ShellState) : Prop :=
  prompt st' = prompt st
  /\ string_encoding st' = string_encoding st
  /\ standin_directories st' = standin_directories st
  /\ _handlers st' = _handlers st.

(** The initialized flag stays set, and an attached schema stays the one
    attached. *)
Definition lifecycle_advances (st st' : ShellState) : Prop :=
  (ioc_initialized st = true -> ioc_initialized st' = true)
  /\ (forall dbd, database_definition st = Some dbd ->
        database_definition st' = Some dbd).

(** No mapping of the state loses a key. *)
Definition registries_grow (st st' : ShellState) : Prop :=
  keys_kept (variables st) (variables st')
  /\ keys_kept (database st) (database st')
  /\ keys_kept (pva_database st) (pva_database st')
  /\ keys_kept (asyn_ports st) (asyn_ports st')
  /\ keys_kept (loaded_files st) (loaded_files st').

(** [r'] is [r] after further declarations: the same name, type, flag and
    metadata, the provenance of [r] followed by more, and every field of
    [r] still there. *)
Definition extends (r r' : RecordInstance) : Prop :=
  ri_name r' = ri_name r
  /\ ri_record_type r' = ri_record_type r
  /\ ri_is_pva r' = ri_is_pva r
  /\ ri_metadata r' = ri_metadata r
  /\ ri_context r `prefix_of` ri_context r'
  /\ keys_kept (ri_fields r) (ri_fields r').

Definition records_extended (st st' : ShellState) : Prop :=
  forall name r, database st !! name = Some r ->
    exists r', database st' !! name = Some r' /\ extends r r'.

(** The IOC metadata once [load_file] has entered the file [p] with its
    hash in the ledger: the descriptor that the version of the database
    grammar is read from when the file is parsed. *)
Definition entered (p : Path) (shasum : string) (md : IocMetadata)
  : IocMetadata :=
  md_with_loaded_files (<[path_str p := shasum]> (md_loaded_files md)) md.

(** The ledger of loaded files of the state and the one of its IOC
    metadata hold the same entries. *)
Definition ledgers_agree (st : ShellState) : Prop :=
  loaded_files st = md_loaded_files (ioc_info st).

Definition ledgers_stay (st st' : ShellState) : Prop :=
  ledgers_agree st -> ledgers_agree st'.

(** The name, the script, the start-up directory, the macros and the
    stand-in directories of the IOC metadata are the same in [st'] as in
    [st]; and so is the base version, unless it is the default one in
    [st].  Nothing is said of what [whatrecord.common] computes from the
    base version. *)
Definition metadata_settled `{Ext : External} (st st' : ShellState) : Prop :=
  md_name (ioc_info st') = md_name (ioc_info st)
  /\ md_script (ioc_info st') = md_script (ioc_info st)
  /\ md_startup_directory (ioc_info st') = md_startup_directory (ioc_info st)
  /\ md_macros (ioc_info st') = md_macros (ioc_info st)
  /\ md_standin_directories (ioc_info st')
     = md_standin_directories (ioc_info st)
  /\ (md_base_version (ioc_info st) <> DEFAULT_BASE_VERSION ->
      md_base_version (ioc_info st') = md_base_version (ioc_info st)).

(** The working directory is the one of [st], or the resolution of a
    directory that exists. *)
Definition directory_checked `{Ext : External} (st st' : ShellState) : Prop :=
  working_directory st' = working_directory st
  \/ exists d, path_exists d = true /\ working_directory st' = path_resolve d.

(** The two registries of port objects are consistent: a name of
    [asyn_ports] leads to an object of that name, and a name in the
    [motors] of a port leads to a motor object of that name whose parent
    is the port. *)
Definition ports_filed (st : ShellState) : Prop :=
  forall name ref, asyn_ports st !! name = Some ref ->
    exists p, port_objects st !! ref = Some p /\ port_name p = name.

Definition motors_filed (st : ShellState) : Prop :=
  forall ref p m mref,
    port_objects st !! ref = Some p -> port_motors p !! m = Some mref ->
    exists q, port_objects st !! mref = Some q
              /\ port_name q = m
              /\ port_class q = AsynMotor
              /\ port_parent q = Some (port_name p).

Definition ports_consistent (st : ShellState) : Prop :=
  ports_filed st /\ motors_filed st.

Definition ports_stay (st st' : ShellState) : Prop :=
  ports_consistent st -> ports_consistent st'.

(** The two directories below which [env_set_EPICS_BASE] looks for a
    release of EPICS base. *)
Definition version_prefix (prefix : string) : Prop :=
  prefix = "/reg/g/pcds/epics/base/" \/ prefix = "/cds/group/pcds/epics/base/".


(** The PVA group that [handle_NDPvaConfigure] creates. *)
Definition NDPva_group (context : FullLoadContext) (pvName : string)
  (metadata : gmap string string) : RecordInstance :=
  mkRecord context pvName "PVA" ∅ true {["areaDetector" := metadata]}.

(** The parameter names of [handle_NDPvaConfigure], in order. *)
Definition NDPva_parameters : list string :=
  ["portName"; "queueSize"; "blockingCallbacks"; "NDArrayPort"; "NDArrayAddr";
   "pvName"; "maxBuffers"; "maxMemory"; "priority"; "stackSize"].

(** What [parse_iocsh_line] makes of [line] in the state [st], and the
    input redirection that the interpreter follows: the first one with
    mode [r]. *)
Definition parsed `{Ext : External} (st : ShellState) (line : string)
  : IocshResult :=
  parse_iocsh_line line (get_load_context st) (prompt st) (macro_context st)
    (string_encoding st).

Definition input_redirect (shresult : IocshResult) : option IocshRedirect :=
  head (List.filter is_input_redirect (sr_redirects shresult)).

(** The parser stamps its result with the context it is given. *)
Definition parser_keeps_context `{Ext : External} : Prop :=
  forall line context prompt mc encoding,
    sr_context (parse_iocsh_line line context prompt mc encoding) = context.

(** A computation that returns hands back a value with the property
    [P]. *)
Definition returns {A} (P : A -> Prop) (m : M A) : Prop :=
  forall st st' a, m st = (st', Return a) -> P a.

(** If the result of a command is the marker that [interpret_shell_line]
    re-invokes, its command is one of the arguments of the call. *)
Definition reinvoked_from (args : list string) (r : CmdResult) : Prop :=
  forall a, r = ResCmdArgs a -> ca_command a ∈ args.

(** The parser leaves the result of the line to the interpreter, and
    every argument that follows the command name is shorter than the
    line it was read from (as it is for a tokenizer that cuts the line
    up and expands nothing). *)
Definition parser_shortens `{Ext : External} : Prop :=
  forall line context prompt mc encoding,
    let shresult := parse_iocsh_line line context prompt mc encoding in
    (forall a, sr_result shresult <> ResCmdArgs a)
    /\ Forall (fun arg => String.length arg < String.length line)
              (tail (argv_of shresult)).

(** * Properties *)

(** ** The primitives on sample inputs *)

Example strip_sample :
  PyStr.strip ("  @asyn(P1, 0) x" +:+ String "009" (String "010" ""))
  = "@asyn(P1, 0) x"
  /\ PyStr.strip_chars " ()" " ( (P1 , 0))" = "P1 , 0"
  /\ PyStr.lstrip_chars "R" "R3.14.12" = "3.14.12".
Proof. repeat split; reflexivity. Qed.

Example split_sample :
  PyStr.split "@asyn(P,0)@asynX" "@asyn" = [""; "(P,0)"; "X"]
  /\ PyStr.split "a,,b," "," = ["a"; ""; "b"; ""]
  /\ PyStr.split "aaa" "aa" = [""; "a"]
  /\ PyStr.split1 "/a/b/a/c" "/a/" = [""; "b/a/c"].
Proof. repeat split; reflexivity. Qed.

Example splitlines_sample :
  PyStr.splitlines
    ("a" +:+ String "013" (String "010" ("b" +:+ String "010"
       (String "010" ("c" +:+ String "013" "")))))
  = ["a"; "b"; ""; "c"]
  /\ PyStr.splitlines "" = []
  /\ PyStr.splitlines (String "010" "") = [""].
Proof. repeat split; reflexivity. Qed.

Example asyn_port_name_sample :
  asyn_port_name "@asyn(P1, 0, 1)POSITION" = Some "P1"
  /\ asyn_port_name "@asyn( L0 )" = Some "L0".
Proof. split; reflexivity. Qed.

(** [list.remove] compares by value: the first entry with the name and
    line of the argument goes, whichever object it is. *)
Example list_remove_sample :
  list_remove (mkCtx 9 "a.cmd" 2)
    [mkCtx 0 "a.cmd" 2; mkCtx 1 "b.cmd" 1; mkCtx 9 "a.cmd" 2]
  = Some [mkCtx 1 "b.cmd" 1; mkCtx 9 "a.cmd" 2]
  /\ list_remove (mkCtx 9 "a.cmd" 3) [mkCtx 0 "a.cmd" 2] = None.
Proof. split; reflexivity. Qed.

(** Unfolding the plumbing of [M]. *)
Ltac run_m :=
  unfold bind, gets, ret, raise, modify, lift, try_except, fix_path in *;
  cbn beta iota zeta in *.

(** ** Dispatch of unknown commands *)

(** C8. A command name without a handler in the table makes
    [handle_command] return the value of [unhandled] (Python's [None])
    without raising and without touching the state; interpreting a line
    that carries such a command yields one result and no exception,
    whether or not strict mode is on, so the load goes on. *)
Theorem handle_command_unhandled `{Ext : External} (st : ShellState)
  (command : string) (args : list string) :
  _handlers st !! command = None ->
  handle_command command args st = (st, Return ResNone)
  /\ forall fuel line recurse raise_on_error,
       let shresult :=
         parse_iocsh_line line (get_load_context st) (prompt st)
           (macro_context st) (string_encoding st) in
       truthy (sr_error shresult) = false ->
       List.filter is_input_redirect (sr_redirects shresult) = [] ->
       sr_argv shresult = Some (command :: args) ->
       interpret_shell_line (S fuel) line recurse raise_on_error st
       = Some (st, [sr_with_result ResNone shresult], None).
Proof.
  intros Hnone.
  assert (Hcmd : handle_command command args st = (st, Return ResNone)).
  { unfold handle_command. run_m. now rewrite Hnone. }
  split; [exact Hcmd|].
  intros fuel line recurse raise_on_error shresult Herr Hredir Hargv.
  cbn [interpret_shell_line]. fold shresult.
  rewrite Herr, Hredir. unfold argv_of. rewrite Hargv.
  cbn [default from_option id]. rewrite Hcmd. reflexivity.
Qed.

Lemma handle_command_unhandled_witness :
  _handlers World.fresh !! "asynReport" = None
  /\ handle_command (Ext := World.world) "asynReport" ["2"] World.fresh
     = (World.fresh, Return ResNone)
  /\ interpret_shell_line (Ext := World.world) 1 "asynReport 2" true true
       World.fresh
     = Some (World.fresh,
             [mkResult [] "asynReport 2" [] (Some ["asynReport"; "2"]) None []
                       ResNone],
             None).
Proof.
  assert (Hnone : _handlers World.fresh !! "asynReport" = None)
    by (vm_compute; reflexivity).
  destruct (handle_command_unhandled (Ext := World.world) World.fresh
              "asynReport" ["2"] Hnone) as [Hcmd Hline].
  split; [exact Hnone|]. split; [exact Hcmd|].
  apply (Hline 0 "asynReport 2" true true); vm_compute; reflexivity.
Defined.

(** ** The load-order state machine *)

(** Case analysis on whatever a [match] or [if] in the goal or in a
    hypothesis inspects. *)
Ltac case_any :=
  match goal with
  | H : context [match ?x with _ => _ end] |- _ =>
      first [is_var x; destruct x | destruct x eqn:?]
  | |- context [match ?x with _ => _ end] =>
      first [is_var x; destruct x | destruct x eqn:?]
  end.

(** Running a computation symbolically: unfold, simplify, split cases. *)
Ltac exec :=
  repeat (progress (run_m; cbn in *; simplify_eq) || case_any).

(** A load of the schema that returns normally leaves a schema attached
    and does not set the initialized flag. *)
Lemma handle_dbLoadDatabase_success `{Ext : External} (st st1 : ShellState)
  (args : list string) (r : CmdResult) :
  handle_dbLoadDatabase args st = (st1, Return r) ->
  ioc_initialized st1 = ioc_initialized st
  /\ ioc_initialized st = false
  /\ is_Some (database_definition st1).
Proof.
  unfold handle_dbLoadDatabase, load_file, with_scoped. run_m.
  destruct args as [|dbd rest]; [discriminate|].
  destruct (ioc_initialized st) eqn:Hinit; [discriminate|].
  destruct (database_definition st) eqn:Hdb.
  - intros [= <- <-]. rewrite Hdb. eauto.
  - intros Hrun.
    exec; eauto.
Qed.

(** C1. Load-order state machine: [handle_dbLoadRecords] raises whenever no
    schema is attached; [handle_dbLoadDatabase] called with a schema
    already attached and the IOC not initialized returns the no-op marker
    and changes nothing, which is in particular what a second call after a
    successful first one does; and both commands raise once the
    initialized flag is set. *)
Theorem load_order_state_machine `{Ext : External} (st : ShellState) :
  (database_definition st = None ->
   forall args, exists ex, handle_dbLoadRecords args st = (st, Raise ex))
  /\ (ioc_initialized st = false -> is_Some (database_definition st) ->
      forall dbd rest,
        handle_dbLoadDatabase (dbd :: rest) st = (st, Return multiple_dbLoadDatabase))
  /\ (forall args st1 r,
        handle_dbLoadDatabase args st = (st1, Return r) ->
        forall dbd rest,
          handle_dbLoadDatabase (dbd :: rest) st1
          = (st1, Return multiple_dbLoadDatabase))
  /\ (ioc_initialized st = true ->
      forall args,
        (exists ex, handle_dbLoadDatabase args st = (st, Raise ex))
        /\ (exists ex, handle_dbLoadRecords args st = (st, Raise ex))).
Proof.
  assert (Hmarker : forall s, ioc_initialized s = false ->
            is_Some (database_definition s) ->
            forall dbd rest,
              handle_dbLoadDatabase (dbd :: rest) s
              = (s, Return multiple_dbLoadDatabase)).
  { intros s Hinit [db Hdb] dbd rest.
    unfold handle_dbLoadDatabase. run_m. now rewrite Hinit, Hdb. }
  repeat split.
  - intros Hdb args. unfold handle_dbLoadRecords. run_m.
    destruct args as [|filename [|macros rest]]; try (eexists; reflexivity).
    rewrite Hdb. eexists; reflexivity.
  - apply Hmarker.
  - intros args st1 r Hfirst dbd rest.
    destruct (handle_dbLoadDatabase_success _ _ _ _ Hfirst) as (Heq & Hinit & Hdb).
    apply Hmarker; [congruence | exact Hdb].
  - unfold handle_dbLoadDatabase. run_m.
    destruct args as [|dbd rest]; [eexists; reflexivity|].
    rewrite H. eexists; reflexivity.
  - unfold handle_dbLoadRecords. run_m.
    destruct args as [|filename [|macros rest]]; try (eexists; reflexivity).
    destruct (database_definition st); [rewrite H|]; eexists; reflexivity.
Qed.

Lemma load_order_state_machine_witness :
  (exists ex,
     handle_dbLoadRecords (Ext := World.world) ["recs.db"; "P=test:"] World.fresh
     = (World.fresh, Raise ex))
  /\ handle_dbLoadDatabase (Ext := World.world) ["base.dbd"] World.with_schema
     = (World.with_schema, Return multiple_dbLoadDatabase)
  /\ (exists ex,
        handle_dbLoadRecords (Ext := World.world) ["recs.db"; "P=test:"]
          World.initialized
        = (World.initialized, Raise ex)).
Proof.
  destruct (load_order_state_machine (Ext := World.world) World.fresh)
    as (Hrecords & _ & Hsecond & _).
  destruct (load_order_state_machine (Ext := World.world) World.initialized)
    as (_ & _ & _ & Hinit).
  split; [apply Hrecords; reflexivity|].
  split.
  - apply (Hsecond ["base.dbd"] World.with_schema
             (ResStr "Loaded database: /ioc/base.dbd")).
    vm_compute. reflexivity.
  - apply Hinit. vm_compute. reflexivity.
Defined.

(** ** Port options *)

Lemma port_named_update (st : ShellState) (name : string) (ref : nat)
  (old new : AsynPort) :
  asyn_ports st !! name = Some ref ->
  port_objects st !! ref = Some old ->
  port_named (set_port_objects (<[ref := new]> (port_objects st)) st) name
  = Some new.
Proof.
  intros Hname Hobj. unfold port_named. cbn. rewrite Hname. cbn.
  apply list_lookup_insert_eq. eapply lookup_lt_Some, Hobj.
Qed.

(** C7. [handle_asynSetOption] on a registered port stores the option
    (with the current load context) under [key], on the port itself or,
    for a multi-device port, on the sub-device found at [addr]; the
    registry of names is untouched.  On a name that is not registered it
    raises [KeyError] and the state, port registry included, is
    unchanged. *)
Theorem handle_asynSetOption_spec `{Ext : External} (st : ShellState)
  (name addr key value : string) (rest : list string) :
  let args := name :: addr :: key :: value :: rest in
  let opt := mkOption (get_load_context st) key value in
  (asyn_ports st !! name = None ->
   handle_asynSetOption args st = (st, Raise (KeyError name)))
  /\ (forall port, port_named st name = Some port ->
      (port_devices port = None ->
       exists st',
         handle_asynSetOption args st = (st', Return ResNone)
         /\ asyn_ports st' = asyn_ports st
         /\ port_named st' name
            = Some (port_with_options (<[key := opt]> (port_options port)) port))
      /\ (forall devices dev,
            port_devices port = Some devices -> devices !! addr = Some dev ->
            exists st',
              handle_asynSetOption args st = (st', Return ResNone)
              /\ asyn_ports st' = asyn_ports st
              /\ port_named st' name
                 = Some (port_with_devices
                           (Some (<[addr := mkDevice (<[key := opt]> (dev_options dev))]>
                                    devices)) port))).
Proof.
  intros args opt. split.
  - intros Hnone. unfold args, handle_asynSetOption, lookup_port. run_m.
    now rewrite Hnone.
  - intros port Hport. unfold port_named in Hport.
    destruct (asyn_ports st !! name) as [ref|] eqn:Hname; [|discriminate].
    cbn in Hport. split.
    + intros Hdev. eexists. split; [|split].
      * unfold args, handle_asynSetOption, lookup_port, object_at,
          update_object. run_m. rewrite Hname, Hport, Hdev. reflexivity.
      * reflexivity.
      * eapply port_named_update; eauto.
    + intros devices dev Hdev Haddr. eexists. split; [|split].
      * unfold args, handle_asynSetOption, lookup_port, object_at,
          update_object. run_m. rewrite Hname, Hport, Hdev, Haddr. reflexivity.
      * reflexivity.
      * eapply port_named_update; eauto.
Qed.

Lemma handle_asynSetOption_spec_witness :
  handle_asynSetOption (Ext := World.world) ["L9"; "0"; "baud"; "9600"]
    World.with_serial
  = (World.with_serial, Raise (KeyError (Ext := World.world) "L9"))
  /\ (exists st',
        handle_asynSetOption (Ext := World.world) ["L0"; "0"; "baud"; "9600"]
          World.with_serial = (st', Return ResNone)
        /\ (port_options <$> port_named st' "L0")
           = Some {["baud" := mkOption [] "baud" "9600"]})
  /\ (exists st',
        handle_asynSetOption (Ext := World.world) ["ADS"; "0"; "baud"; "9600"]
          World.with_ads_device = (st', Return ResNone)
        /\ (port_devices <$> port_named st' "ADS")
           = Some (Some {["0" := mkDevice {["baud" := mkOption [] "baud" "9600"]}]})).
Proof.
  destruct (handle_asynSetOption_spec (Ext := World.world) World.with_serial
              "L9" "0" "baud" "9600" []) as [Hmissing _].
  destruct (handle_asynSetOption_spec (Ext := World.world) World.with_serial
              "L0" "0" "baud" "9600" []) as [_ Hserial].
  destruct (handle_asynSetOption_spec (Ext := World.world)
              World.with_ads_device "ADS" "0" "baud" "9600" []) as [_ Hads].
  split; [apply Hmissing; vm_compute; reflexivity|].
  split.
  - destruct (Hserial (mkPort AsynSerialPort [] "L0"
                         [("ttyName", Some "/dev/ttyS0"); ("priority", None);
                          ("noAutoConnect", None); ("noProcessEos", None)]
                         None ∅ ∅ None ∅))
      as [Hone _]; [vm_compute; reflexivity|].
    destruct Hone as (st' & Hrun & _ & Hport); [reflexivity|].
    exists st'. split; [exact Hrun|]. rewrite Hport. vm_compute. reflexivity.
  - destruct (Hads World.ads_port) as [_ Hmulti]; [vm_compute; reflexivity|].
    destruct (Hmulti {["0" := mkDevice ∅]} (mkDevice ∅))
      as (st' & Hrun & _ & Hport); [reflexivity | vm_compute; reflexivity |].
    exists st'. split; [exact Hrun|]. rewrite Hport. vm_compute. reflexivity.
Defined.

(** ** Port configuration commands *)

Lemma truthy_Some (name : string) : name <> "" -> truthy (Some name) = true.
Proof.
  intros Hne. unfold truthy.
  destruct (String.eqb_spec name "") as [Heq|_]; [contradiction|reflexivity].
Qed.

(** Appending a new object and registering it under [name]. *)
Lemma registers_intro (h : M CmdResult) (st : ShellState)
  (name : string) (port : AsynPort) (r : CmdResult) (cls : PortClass)
  (parent : option string) :
  h st = (set_asyn_ports (<[name := length (port_objects st)]> (asyn_ports st))
            (set_port_objects (port_objects st ++ [port]) st), Return r) ->
  port_name port = name ->
  port_class port = cls ->
  port_parent port = parent ->
  port_context port = get_load_context st ->
  registers h st name cls parent.
Proof.
  intros Hrun Hname Hcls Hparent Hctx. unfold registers.
  exists (set_asyn_ports (<[name := length (port_objects st)]> (asyn_ports st))
            (set_port_objects (port_objects st ++ [port]) st)),
    (length (port_objects st)), port, r.
  split; [exact Hrun|]. cbn.
  split; [apply lookup_insert_eq|].
  split; [apply list_lookup_middle; reflexivity|].
  repeat split; try assumption.
  intros other Hne. now apply lookup_insert_ne.
Qed.

(** What the decorator adds to a body that returned [None]. *)
Lemma motor_wrapper_return `{Ext : External} (name : string)
  (body : list string -> M (option string)) (args : list string)
  (st st' : ShellState) :
  body args st = (st', Return None) ->
  is_Some (motor_shell_commands !! name) ->
  exists info, _motor_wrapper name body args st = (st', Return (ResStr info)).
Proof.
  intros Hbody [params Hparams].
  unfold _motor_wrapper, _generic_motor_handler. run_m.
  rewrite Hbody, Hparams. cbn. eexists; reflexivity.
Qed.

Lemma motor_wrapper_raise `{Ext : External} (name : string)
  (body : list string -> M (option string)) (args : list string)
  (st st' : ShellState) (ex : Exc) :
  body args st = (st', Raise ex) ->
  _motor_wrapper name body args st = (st', Raise ex).
Proof. intros Hbody. unfold _motor_wrapper. run_m. now rewrite Hbody. Qed.




(** ** Merging a loaded IOC into the container *)

Lemma dict_update_lookup {V} (d other : gmap string V) (k : string) :
  dict_update d other !! k
  = match other !! k with
    | Some v => Some v
    | None => d !! k
    end.
Proof.
  unfold dict_update. rewrite lookup_union.
  destruct (other !! k), (d !! k); reflexivity.
Qed.

(** C3, as the code has it.  [add_script] files the loaded IOC under its
    script path and merges its record store, its structured-record store
    and its file ledger into the container last-write-wins per key: an
    entry of the added state replaces the container's entry of the same
    key as a whole, and the other entries stay. *)
Theorem add_script_last_write_wins (self : ScriptContainer)
  (loaded : LoadedIoc) :
  let st := li_shell_state loaded in
  let c := add_script self loaded in
  sc_scripts c !! path_str (md_script (li_metadata loaded)) = Some loaded
  /\ (forall name,
        sc_database c !! name
        = match database st !! name with
          | Some rec => Some rec
          | None => sc_database self !! name
          end)
  /\ (forall name,
        sc_pva_database c !! name
        = match pva_database st !! name with
          | Some rec => Some rec
          | None => sc_pva_database self !! name
          end)
  /\ (forall file,
        sc_loaded_files c !! file
        = match loaded_files st !! file with
          | Some sha => Some sha
          | None => sc_loaded_files self !! file
          end).
Proof.
  cbn. split; [apply lookup_insert_eq|].
  repeat split; intros; apply dict_update_lookup.
Qed.

(** C3 as worded fails: a record name present on both sides ends up with
    the added state's record alone, whereas a field-level merge would keep
    the field [EGU] of the old record and both provenance contexts. *)
Lemma add_script_field_merge_counterexample :
  sc_database (add_script World.container World.loaded) !! "test:rbv"
  = Some World.rbv
  /\ (ri_fields <$>
        field_level_merge (sc_database World.container)
          (database (li_shell_state World.loaded)) !! "test:rbv")
     = Some (ri_fields World.rbv ∪ ri_fields World.rbv_other)
  /\ sc_database (add_script World.container World.loaded)
     <> field_level_merge (sc_database World.container)
          (database (li_shell_state World.loaded)).
Proof.
  split; [vm_compute; reflexivity|].
  split; [vm_compute; reflexivity|].
  intros Heq.
  apply (f_equal (fun m => ri_context <$> m !! "test:rbv")) in Heq.
  vm_compute in Heq. discriminate.
Qed.

(** ** Path resolution *)

Lemma chars_nil (s : string) : PyStr.chars s = [] -> s = "".
Proof. destruct s; [reflexivity|discriminate]. Qed.

(** Splitting once at a prefix leaves the empty string and the rest. *)
Lemma split1_prefix (s pre : string) :
  pre <> "" -> PyStr.startswith s pre = true ->
  PyStr.split1 s pre = [""; PyStr.slice_from (PyStr.len pre) s].
Proof.
  intros Hne Hstart.
  unfold PyStr.split1, PyStr.split1_l, PyStr.startswith, PyStr.slice_from,
    PyStr.len in *.
  destruct (PyStr.chars pre) as [|a pre'] eqn:Hpre.
  { apply chars_nil in Hpre. contradiction. }
  destruct (PyStr.chars s) as [|c l] eqn:Hs; [discriminate|].
  cbn [PyStr.break_on]. rewrite Hstart. reflexivity.
Qed.

Lemma fix_path_standin_none (items : list (string * string)) `{Ext : External}
  (filename : string) :
  Forall (fun item => PyStr.startswith filename item.1 = false) items ->
  fix_path_standin items filename = None.
Proof.
  induction 1 as [|[from_ to] rest Hhead _ IH]; [reflexivity|].
  cbn in *. now rewrite Hhead.
Qed.

Lemma fix_path_standin_first `{Ext : External}
  (before after : list (string * string)) (from_ to filename : string) :
  Forall (fun item => PyStr.startswith filename item.1 = false) before ->
  from_ <> "" -> PyStr.startswith filename from_ = true ->
  fix_path_standin (before ++ (from_, to) :: after) filename
  = Some (inr (pathlib_Path
                 (to +:+ PyStr.slice_from (PyStr.len from_) filename))).
Proof.
  intros Hbefore Hne Hstart.
  induction Hbefore as [|[f t] rest Hhead _ IH]; cbn in *.
  - rewrite Hstart, split1_prefix by assumption.
    destruct (String.eqb_spec from_ ""); [contradiction|reflexivity].
  - now rewrite Hhead.
Qed.

(** C5, as the code has it.  For an absolute path, [_fix_path] rewrites
    with the FIRST stand-in entry, in the order of the table, whose prefix
    the path starts with: the prefix is cut off and the replacement put in
    its place.  A relative path, and an absolute path that no entry
    matches, is joined to the current working directory. *)
Theorem fix_path_first_match `{Ext : External} (st : ShellState)
  (filename : string) :
  (os_path_isabs filename = false ->
   _fix_path st filename = inr (path_join (working_directory st) filename))
  /\ (forall before from_ to after,
        os_path_isabs filename = true ->
        standin_directories st = before ++ (from_, to) :: after ->
        Forall (fun item => PyStr.startswith filename item.1 = false) before ->
        from_ <> "" -> PyStr.startswith filename from_ = true ->
        _fix_path st filename
        = inr (pathlib_Path
                 (to +:+ PyStr.slice_from (PyStr.len from_) filename)))
  /\ (os_path_isabs filename = true ->
      Forall (fun item => PyStr.startswith filename item.1 = false)
        (standin_directories st) ->
      _fix_path st filename = inr (path_join (working_directory st) filename)).
Proof.
  unfold _fix_path. split; [|split].
  - now intros ->.
  - intros before from_ to after -> -> Hbefore Hne Hstart.
    now rewrite fix_path_standin_first.
  - intros -> Hnone. now rewrite fix_path_standin_none.
Qed.

Lemma fix_path_first_match_witness :
  _fix_path (Ext := World.world) World.with_standins "recs.db"
  = inr (mkPath "/ioc/recs.db")
  /\ _fix_path (Ext := World.world) World.with_standins "/a/b/c"
     = inr (mkPath "/x/b/c")
  /\ _fix_path (Ext := World.world) World.with_standins "/etc/c"
     = inr (mkPath "/etc/c").
Proof.
  destruct (fix_path_first_match (Ext := World.world) World.with_standins
              "recs.db") as (Hrel & _).
  destruct (fix_path_first_match (Ext := World.world) World.with_standins
              "/a/b/c") as (_ & Hfirst & _).
  destruct (fix_path_first_match (Ext := World.world) World.with_standins
              "/etc/c") as (_ & _ & Hnone).
  split; [apply Hrel; reflexivity|].
  split.
  - apply (Hfirst [] "/a/" "/x/" [("/a/b/", "/y/")]);
      try reflexivity; [constructor | discriminate].
  - apply Hnone; [reflexivity|].
    repeat constructor.
Defined.

(** C5 as worded fails: with the prefixes [/a/] and [/a/b/] configured in
    that order, [/a/b/c] is rewritten with [/a/], although [/a/b/] is the
    longest prefix that matches. *)
Lemma fix_path_longest_prefix_counterexample :
  _fix_path (Ext := World.world) World.with_standins "/a/b/c"
  = inr (mkPath "/x/b/c")
  /\ fix_path_longest_prefix (Ext := World.world) World.with_standins "/a/b/c"
     = mkPath "/y/c"
  /\ _fix_path (Ext := World.world) World.with_standins "/a/b/c"
     <> inr (fix_path_longest_prefix (Ext := World.world) World.with_standins
               "/a/b/c").
Proof.
  split; [vm_compute; reflexivity|].
  split; [vm_compute; reflexivity|].
  vm_compute. discriminate.
Qed.

(** ** Loading records *)

Lemma merge_record_other `{Ext : External} (context : FullLoadContext)
  (db : gmap string RecordInstance) (item : string * RecordInstance)
  (name : string) :
  item.1 <> name -> merge_record context db item !! name = db !! name.
Proof.
  destruct item as [n rec]. cbn. intros Hne. unfold merge_record.
  destruct (db !! n); now rewrite lookup_insert_ne.
Qed.

Lemma merge_records_other `{Ext : External} (context : FullLoadContext)
  (items : list (string * RecordInstance)) (db : gmap string RecordInstance)
  (name : string) :
  name ∉ items.*1 ->
  foldl (merge_record context) db items !! name = db !! name.
Proof.
  revert db. induction items as [|item rest IH]; intros db Hnot; [reflexivity|].
  cbn in *. apply not_elem_of_cons in Hnot as [Hne Hrest].
  rewrite IH by assumption. now apply merge_record_other.
Qed.

(** The classic namespace: a load that declares again a record already in
    [self.database] leaves it with the fields merged, the later values
    winning, and the new provenance appended to the old one. *)
Lemma merge_records_redeclared `{Ext : External} (context : FullLoadContext)
  (items : list (string * RecordInstance)) (db : gmap string RecordInstance)
  (name : string) (rec entry : RecordInstance) :
  NoDup items.*1 -> (name, rec) ∈ items -> db !! name = Some entry ->
  foldl (merge_record context) db items !! name = Some (redeclared entry rec).
Proof.
  revert db entry. induction items as [|[n r] rest IH];
    intros db entry Hnodup Hin Hentry.
  { inversion Hin. }
  cbn in Hnodup. apply NoDup_cons in Hnodup as [Hfresh Hnodup].
  apply elem_of_cons in Hin as [Hhead|Hrest]; cbn [foldl].
  - injection Hhead as <- <-.
    rewrite merge_records_other by assumption.
    unfold merge_record. rewrite Hentry. apply lookup_insert_eq.
  - assert (n <> name) as Hne.
    { intros ->. apply Hfresh. apply list_elem_of_fmap. now exists (name, rec). }
    apply IH; [assumption..|].
    rewrite (merge_record_other context db (n, r) name) by assumption.
    exact Hentry.
Qed.

(** The structured namespace: for a group already in [self.pva_database]
    the loop reads [self.database]; without a classic record of that name
    this is a [KeyError], and with one it is the classic record that gets
    the group's fields and provenance.  The stored group is not touched
    in either case. *)
Lemma merge_pva_group_reads_classic_store `{Ext : External}
  (context : FullLoadContext) (st : ShellState) (name : string)
  (rec old : RecordInstance) :
  pva_database st !! name = Some old ->
  match database st !! name with
  | None => merge_pva_group context (name, rec) st = (st, Raise (KeyError name))
  | Some entry =>
      merge_pva_group context (name, rec) st
      = (set_database (<[name := redeclared entry rec]> (database st)) st,
         Return tt)
  end.
Proof.
  intros Hold. unfold merge_pva_group. run_m. rewrite Hold.
  destruct (database st !! name); reflexivity.
Qed.

(** C2 fails in the structured namespace.  Loading [recs.db], which
    declares the PVA group [test:grp], a second time raises
    [KeyError('test:grp')]; the classic record [test:rbv] of the same file
    has been merged by then (its provenance is the old one followed by the
    new one), but the stored group [test:grp] is exactly as it was. *)
Theorem dbLoadRecords_pva_redeclaration_raises :
  let st := World.loaded_once in
  let run :=
    handle_dbLoadRecords (Ext := World.world) ["recs.db"; "P=test:"] st in
  is_Some (pva_database st !! "test:grp")
  /\ database st !! "test:grp" = None
  /\ run.2 = Raise (KeyError (Ext := World.world) "test:grp")
  /\ pva_database run.1 !! "test:grp" = pva_database st !! "test:grp"
  /\ (ri_context <$> database st !! "test:rbv")
     = Some [("/ioc/recs.db", 1)]
  /\ (ri_context <$> database run.1 !! "test:rbv")
     = Some [("/ioc/recs.db", 1); ("/ioc/recs.db", 1)].
Proof.
  cbv zeta. split; [eexists; vm_compute; reflexivity|].
  repeat split; vm_compute; reflexivity.
Qed.

(** ** Strict mode and re-invoked commands *)

(** C10. A line interpreted with [raise_on_error=True] whose command
    returns the re-invocation marker has the marked command interpreted
    with [raise_on_error=False]: when the handler of that command raises,
    the run ends normally with two results, the second carrying the
    failure as its [error].  The same command interpreted directly in
    strict mode lets the exception through. *)
Theorem strict_mode_not_preserved `{Ext : External} (fuel : nat)
  (st st1 st2 : ShellState) (line : string) (recurse : bool)
  (command command2 : string) (args args2 : list string) (a : IocshCmdArgs)
  (ex : Exc) :
  let shresult :=
    parse_iocsh_line line (get_load_context st) (prompt st)
      (macro_context st) (string_encoding st) in
  let nested :=
    parse_iocsh_line (ca_command a) (get_load_context st1) (prompt st1)
      (macro_context st1) (string_encoding st1) in
  truthy (sr_error shresult) = false ->
  List.filter is_input_redirect (sr_redirects shresult) = [] ->
  sr_argv shresult = Some (command :: args) ->
  handle_command command args st = (st1, Return (ResCmdArgs a)) ->
  truthy (sr_error nested) = false ->
  List.filter is_input_redirect (sr_redirects nested) = [] ->
  sr_argv nested = Some (command2 :: args2) ->
  sr_result nested = ResNone ->
  handle_command command2 args2 st1 = (st2, Raise ex) ->
  interpret_shell_line (S (S fuel)) line recurse true st
  = Some (st2,
          [sr_with_result (ResCmdArgs a) shresult;
           sr_with_error (failed_to_execute ex) nested],
          None)
  /\ interpret_shell_line (S fuel) (ca_command a) recurse true st1
     = Some (st2, [], Some ex).
Proof.
  intros shresult nested Herr Hredir Hargv Hcmd Herr2 Hredir2 Hargv2 Hres2
    Hcmd2.
  assert (Hnested : forall strict,
            interpret_shell_line (S fuel) (ca_command a) recurse strict st1
            = if strict then Some (st2, [], Some ex)
              else Some (st2, [sr_with_error (failed_to_execute ex) nested],
                         None)).
  { intros strict. cbn [interpret_shell_line]. fold nested.
    rewrite Herr2, Hredir2. unfold argv_of. rewrite Hargv2.
    cbn [default from_option id]. rewrite Hcmd2.
    destruct strict; [reflexivity|].
    cbn [sr_result sr_with_error]. rewrite Hres2. reflexivity. }
  split; [|apply (Hnested true)].
  specialize (Hnested false). cbv iota in Hnested.
  remember (S fuel) as fuel' eqn:Hfuel.
  cbn [interpret_shell_line]. fold shresult.
  rewrite Herr, Hredir. unfold argv_of. rewrite Hargv.
  cbn [default from_option id]. rewrite Hcmd.
  cbn [sr_result sr_with_result]. rewrite Hnested. reflexivity.
Qed.

Lemma strict_mode_not_preserved_witness :
  exists st2 first second,
    interpret_shell_line (Ext := World.world) 2 World.iocshCmd_line true true
      World.fresh
    = Some (st2, [first; second], None)
    /\ sr_error second
       = Some (failed_to_execute (Ext := World.world)
                 (RuntimeError "dbd not yet loaded"))
    /\ interpret_shell_line (Ext := World.world) 1
         "dbLoadRecords recs.db P=test:" true true World.fresh
       = Some (st2, [], Some (RuntimeError "dbd not yet loaded")).
Proof.
  destruct (strict_mode_not_preserved (Ext := World.world) 0 World.fresh
              World.fresh World.fresh World.iocshCmd_line true
              "iocshCmd" "dbLoadRecords"
              ["dbLoadRecords recs.db P=test:"] ["recs.db"; "P=test:"]
              (mkCmdArgs [] "dbLoadRecords recs.db P=test:")
              (RuntimeError "dbd not yet loaded"))
    as [Hline Hdirect]; try (vm_compute; reflexivity).
  eexists _, _, _. split; [exact Hline|]. split; [reflexivity|exact Hdirect].
Defined.

(** ** Facts about the string primitives *)

Section StringFacts.
Import PyStr.

Lemma chars_app (a b : string) : chars (a +:+ b) = chars a ++ chars b.
Proof.
  unfold chars. induction a as [|c a IH]; [reflexivity|].
  change (String c a +:+ b) with (String c (a +:+ b)).
  cbn [list_ascii_of_string app]. now rewrite IH.
Qed.

Lemma str_chars (s : string) : str (chars s) = s.
Proof. apply string_of_list_ascii_of_string. Qed.

Lemma chars_str (l : list ascii) : chars (str l) = l.
Proof. apply list_ascii_of_string_of_list_ascii. Qed.

Lemma dropwhile_all (p : ascii -> bool) (a l : list ascii) :
  forallb p a = true -> dropwhile p (a ++ l) = dropwhile p l.
Proof.
  induction a as [|c a IH]; cbn; [reflexivity|].
  intros [Hc Ha]%andb_prop. rewrite Hc. auto.
Qed.

Lemma dropwhile_stop (p : ascii -> bool) (c : ascii) (l : list ascii) :
  p c = false -> dropwhile p (c :: l) = c :: l.
Proof. cbn. now intros ->. Qed.

Lemma dropwhile_app (p : ascii -> bool) (l1 l2 : list ascii) :
  dropwhile p (l1 ++ l2)
  = match dropwhile p l1 with
    | [] => dropwhile p l2
    | d => d ++ l2
    end.
Proof.
  induction l1 as [|c l1 IH]; cbn; [now destruct (dropwhile p l2)|].
  destruct (p c); [exact IH|reflexivity].
Qed.

(** Stripping on the right stops at a character that is not stripped. *)
Lemma rstrip_stop (p : ascii -> bool) (x : list ascii) (c : ascii)
  (rest : list ascii) :
  p c = false ->
  rstrip_by p (x ++ c :: rest) = x ++ c :: rstrip_by p rest.
Proof.
  intros Hc. unfold rstrip_by.
  rewrite rev_app_distr. cbn [rev]. rewrite <- app_assoc. cbn [app].
  rewrite dropwhile_app.
  destruct (dropwhile p (rev rest)) as [|d ds].
  - rewrite dropwhile_stop by assumption. cbn [rev].
    now rewrite rev_involutive.
  - rewrite rev_app_distr. cbn [rev]. rewrite rev_involutive.
    now rewrite <- app_assoc.
Qed.

Lemma forallb_rev (p : ascii -> bool) (l : list ascii) :
  forallb p (rev l) = forallb p l.
Proof.
  induction l as [|c l IH]; [reflexivity|].
  cbn. rewrite forallb_app, IH. cbn. rewrite andb_true_r. apply andb_comm.
Qed.

Lemma rstrip_all (p : ascii -> bool) (l : list ascii) :
  forallb p l = true -> rstrip_by p l = [].
Proof.
  intros Hall. unfold rstrip_by.
  rewrite <- (app_nil_r (rev l)), dropwhile_all; [reflexivity|].
  now rewrite forallb_rev.
Qed.

Lemma rstrip_app_all (p : ascii -> bool) (l tail : list ascii) :
  forallb p tail = true -> rstrip_by p (l ++ tail) = rstrip_by p l.
Proof.
  intros Hall. unfold rstrip_by. rewrite rev_app_distr, dropwhile_all;
    [reflexivity|]. now rewrite forallb_rev.
Qed.

(** A text whose first and last characters are kept is left alone. *)
Lemma strip_fixed (p : ascii -> bool) (l : list ascii) :
  forallb (fun c => negb (p c)) l = true -> strip_by p l = l.
Proof.
  intros Hall. unfold strip_by, lstrip_by.
  destruct l as [|c l]; [reflexivity|].
  cbn in Hall. apply andb_prop in Hall as [Hc Hl].
  apply negb_true_iff in Hc. rewrite dropwhile_stop by assumption.
  destruct (exists_last (l := c :: l)) as (front & z & Hlast); [discriminate|].
  rewrite Hlast.
  assert (p z = false) as Hz.
  { assert (forallb (fun c => negb (p c)) (c :: l) = true) as Hcl
      by (cbn; now rewrite Hc, Hl).
    rewrite Hlast, forallb_app in Hcl. apply andb_prop in Hcl as [_ Hz].
    cbn in Hz. rewrite andb_true_r in Hz. now apply negb_true_iff. }
  rewrite rstrip_stop by assumption. now rewrite rstrip_all.
Qed.

End StringFacts.

Section SplitFacts.
Import PyStr.

Lemma forallb_weaken (f g : ascii -> bool) (l : list ascii) :
  (forall c, f c = true -> g c = true) ->
  forallb f l = true -> forallb g l = true.
Proof.
  intros Himp. induction l as [|c l IH]; cbn; [reflexivity|].
  intros [Hc Hl]%andb_prop. rewrite (Himp c Hc). auto.
Qed.

Lemma lstrip_fixed (p : ascii -> bool) (l : list ascii) (c : ascii)
  (rest : list ascii) :
  forallb (fun x => negb (p x)) l = true -> p c = false ->
  dropwhile p (l ++ c :: rest) = l ++ c :: rest.
Proof.
  intros Hl Hc. destruct l as [|h l]; cbn in *; [now rewrite Hc|].
  apply andb_prop in Hl as [Hh _]. apply negb_true_iff in Hh.
  now rewrite Hh.
Qed.

Lemma rstrip_fixed (p : ascii -> bool) (l : list ascii) :
  forallb (fun x => negb (p x)) l = true -> rstrip_by p l = l.
Proof.
  intros Hall. destruct l as [|c l] using rev_ind; [reflexivity|].
  rewrite forallb_app in Hall. apply andb_prop in Hall as [_ Hc].
  cbn in Hc. rewrite andb_true_r in Hc. apply negb_true_iff in Hc.
  rewrite rstrip_stop by assumption. now rewrite (rstrip_all p []).
Qed.

Lemma startswith_l_app (sep l : list ascii) : startswith_l sep (sep ++ l) = true.
Proof.
  induction sep as [|c sep IH]; [reflexivity|].
  cbn. now rewrite Ascii.eqb_refl.
Qed.

Lemma startswith_l_first (c : ascii) (sep : list ascii) (x : ascii)
  (l : list ascii) :
  Ascii.eqb x c = false -> startswith_l (c :: sep) (x :: l) = false.
Proof. cbn. rewrite Ascii.eqb_sym. now intros ->. Qed.

(** Characters that differ from the first one of the separator are passed
    over. *)
Lemma break_on_skip (c : ascii) (sep pre l : list ascii) :
  forallb (fun x => negb (Ascii.eqb x c)) pre = true ->
  (break_on (c :: sep) (pre ++ l)).1 = pre ++ (break_on (c :: sep) l).1.
Proof.
  induction pre as [|x pre IH]; [reflexivity|].
  intros [Hx Hpre]%andb_prop. apply negb_true_iff in Hx.
  change ((x :: pre) ++ l) with (x :: (pre ++ l)).
  cbn [break_on]. rewrite (startswith_l_first c sep x _ Hx).
  specialize (IH Hpre). destruct (break_on (c :: sep) (pre ++ l)) as [a r].
  cbn in *. now rewrite IH.
Qed.

Lemma break_on_skip_all (c : ascii) (sep pre : list ascii) :
  forallb (fun x => negb (Ascii.eqb x c)) pre = true ->
  (break_on (c :: sep) pre).1 = pre.
Proof.
  intros Hpre. rewrite <- (app_nil_r pre) at 1.
  rewrite break_on_skip by assumption. cbn. apply app_nil_r.
Qed.

Lemma break_on_hit (c : ascii) (sep l : list ascii) :
  (break_on (c :: sep) ((c :: sep) ++ l)).1 = [].
Proof.
  change ((c :: sep) ++ l) with (c :: (sep ++ l)). cbn [break_on].
  change (c :: sep ++ l) with ((c :: sep) ++ l).
  now rewrite startswith_l_app.
Qed.

Lemma split_go_skip (sep pre acc l : list ascii) :
  split_go sep (length pre) acc (pre ++ l) = split_go sep 0 acc l.
Proof.
  induction pre as [|x pre IH]; [reflexivity|]. exact IH.
Qed.

Lemma split_go_head (sep acc l : list ascii) :
  head (split_go sep 0 acc l) = Some (rev acc ++ (break_on sep l).1).
Proof.
  revert acc. induction l as [|x l IH]; intros acc; cbn.
  { now rewrite app_nil_r. }
  destruct (startswith_l sep (x :: l)).
  - cbn. now rewrite app_nil_r.
  - rewrite IH. destruct (break_on sep l) as [a r]. cbn.
    now rewrite <- app_assoc.
Qed.

(** The second piece of a text that starts with the separator is what
    stands between that occurrence and the next one. *)
Lemma split_l_second (c : ascii) (sep l : list ascii) :
  split_l (c :: sep) ((c :: sep) ++ l) !! 1
  = Some (break_on (c :: sep) l).1.
Proof.
  unfold split_l. change ((c :: sep) ++ l) with (c :: (sep ++ l)).
  cbn [split_go]. change (c :: sep ++ l) with ((c :: sep) ++ l).
  rewrite startswith_l_app. cbn [length Nat.sub]. rewrite Nat.sub_0_r.
  rewrite split_go_skip.
  transitivity (head (split_go (c :: sep) 0 [] l)); [|apply split_go_head].
  now destruct (split_go (c :: sep) 0 [] l).
Qed.

End SplitFacts.

(** ** Resolving the port of a record *)

Section AsynReference.
Import PyStr.

Lemma lookup_map {A B} (f : A -> B) (l : list A) (i : nat) :
  map f l !! i = f <$> l !! i.
Proof.
  revert i. induction l as [|x l IH]; intros [|i]; cbn; auto.
Qed.

Lemma head_map {A B} (f : A -> B) (l : list A) : head (map f l) = f <$> head l.
Proof. now destruct l. Qed.

Lemma port_name_char_spec (c : ascii) :
  port_name_char c = true ->
  isspace c = false
  /\ mem (chars " ()") c = false
  /\ Ascii.eqb c "," = false
  /\ Ascii.eqb c "@" = false.
Proof.
  unfold port_name_char, mem. cbn [chars list_ascii_of_string existsb].
  destruct (isspace c) eqn:Hspace; [discriminate|].
  destruct (Ascii.eqb_spec c " ") as [->|_]; [discriminate|].
  destruct (Ascii.eqb c ","), (Ascii.eqb c "("), (Ascii.eqb c ")"),
    (Ascii.eqb c "@"); cbn; intros; try discriminate; auto.
Qed.

Lemma opening_char_spec (c : ascii) :
  mem (chars " ()") c = true -> Ascii.eqb c "@" = false /\ Ascii.eqb c "," = false.
Proof.
  unfold mem. cbn [chars list_ascii_of_string existsb].
  destruct (Ascii.eqb_spec c " ") as [->|_]; [now split|].
  destruct (Ascii.eqb_spec c "(") as [->|_]; [now split|].
  destruct (Ascii.eqb_spec c ")") as [->|_]; [now split|].
  discriminate.
Qed.

Lemma closing_char_spec (c : ascii) :
  mem (chars "()") c = true ->
  isspace c = false /\ mem (chars " ()") c = true /\ Ascii.eqb c "@" = false.
Proof.
  unfold mem. cbn [chars list_ascii_of_string existsb].
  destruct (Ascii.eqb_spec c "(") as [->|_]; [now repeat split|].
  destruct (Ascii.eqb_spec c ")") as [->|_]; [now repeat split|].
  discriminate.
Qed.

Lemma asyn_port_name_extracted (s : list ascii) :
  asyn_port_name (str s) = str <$> extracted s.
Proof.
  unfold asyn_port_name, extracted, split, strip_chars, strip.
  rewrite chars_str, lookup_map.
  destruct (split_l (chars "@asyn") s !! 1) as [piece|]; [|reflexivity].
  cbn [fmap option_fmap option_map mbind option_bind].
  rewrite !chars_str, head_map.
  destruct (head (split_l (chars ",") _)) as [h|]; [|reflexivity].
  cbn. now rewrite chars_str.
Qed.

Lemma extracted_port (opening port tail : list ascii) :
  forallb (mem (chars " ()")) opening = true ->
  forallb port_name_char port = true ->
  (exists rest, tail = ","%char :: rest)
  \/ (port <> [] /\ forallb (mem (chars "()")) tail = true) ->
  extracted (chars "@asyn" ++ opening ++ port ++ tail) = Some port.
Proof.
  intros Hopen Hport Htail. unfold extracted.
  assert (Hport_q : forallb (fun c => negb (mem (chars " ()") c)) port = true).
  { eapply forallb_weaken; [|exact Hport].
    intros c Hc. apply port_name_char_spec in Hc as (_ & -> & _). reflexivity. }
  assert (Hport_ws : forallb (fun c => negb (isspace c)) port = true).
  { eapply forallb_weaken; [|exact Hport].
    intros c Hc. apply port_name_char_spec in Hc as (-> & _). reflexivity. }
  assert (Hport_comma : forallb (fun c => negb (Ascii.eqb c ",")) port = true).
  { eapply forallb_weaken; [|exact Hport].
    intros c Hc. apply port_name_char_spec in Hc as (_ & _ & -> & _).
    reflexivity. }
  assert (Hport_at : forallb (fun c => negb (Ascii.eqb c "@")) port = true).
  { eapply forallb_weaken; [|exact Hport].
    intros c Hc. apply port_name_char_spec in Hc as (_ & _ & _ & ->).
    reflexivity. }
  assert (Hopen_at : forallb (fun c => negb (Ascii.eqb c "@")) opening = true).
  { eapply forallb_weaken; [|exact Hopen].
    intros c Hc. apply opening_char_spec in Hc as [-> _]. reflexivity. }
  change (chars "@asyn") with ("@"%char :: chars "asyn").
  rewrite split_l_second. cbn [mbind option_bind].
  change (chars ",") with [","%char].
  destruct Htail as [[rest ->]|[Hne Hclose]].
  - (* @asyn(PORT,rest *)
    replace (opening ++ port ++ ","%char :: rest)
      with ((opening ++ port ++ [","%char]) ++ rest)
      by now rewrite <- !app_assoc.
    rewrite break_on_skip
      by (rewrite !forallb_app, Hopen_at, Hport_at; reflexivity).
    rewrite <- !app_assoc. cbn [app].
    unfold strip_by, lstrip_by.
    rewrite dropwhile_all by assumption.
    rewrite lstrip_fixed by (assumption || reflexivity).
    rewrite rstrip_stop by reflexivity.
    unfold split_l. rewrite split_go_head. cbn [rev app].
    rewrite break_on_skip by assumption.
    rewrite (break_on_hit "," [] _ : (break_on [","%char] (","%char :: _)).1 = []),
      app_nil_r. cbn [mbind option_bind].
    f_equal. now apply strip_fixed.
  - (* @asyn(PORT) *)
    assert (Hclose_at :
              forallb (fun c => negb (Ascii.eqb c "@")) tail = true).
    { eapply forallb_weaken; [|exact Hclose].
      intros c Hc. apply closing_char_spec in Hc as (_ & _ & ->).
      reflexivity. }
    assert (Hclose_q : forallb (mem (chars " ()")) tail = true).
    { eapply forallb_weaken; [|exact Hclose].
      intros c Hc. now apply closing_char_spec in Hc as (_ & -> & _). }
    rewrite break_on_skip_all
      by (rewrite !forallb_app, Hopen_at, Hport_at, Hclose_at; reflexivity).
    unfold strip_by, lstrip_by.
    rewrite dropwhile_all by assumption.
    destruct port as [|p0 port]; [contradiction|].
    cbn [app]. rewrite dropwhile_stop.
    2:{ cbn in Hport_q. apply andb_prop in Hport_q as [Hp0 _].
        now apply negb_true_iff. }
    change (p0 :: port ++ tail) with ((p0 :: port) ++ tail).
    rewrite rstrip_app_all by assumption.
    rewrite rstrip_fixed by assumption.
    unfold split_l. rewrite split_go_head. cbn [rev app].
    rewrite break_on_skip_all by assumption. cbn [mbind option_bind].
    f_equal. now apply strip_fixed.
Qed.

Lemma strip_asyn_reference (before opening core after : list ascii) :
  forallb isspace before = true ->
  forallb isspace after = true ->
  core <> [] ->
  forallb (fun c => negb (isspace c)) core = true ->
  strip_by isspace (before ++ chars "@asyn" ++ opening ++ core ++ after)
  = chars "@asyn" ++ opening ++ core.
Proof.
  intros Hbefore Hafter Hne Hcore. unfold strip_by, lstrip_by.
  rewrite dropwhile_all by assumption.
  change (chars "@asyn") with ("@"%char :: chars "asyn").
  cbn [app]. rewrite dropwhile_stop by reflexivity.
  destruct (exists_last Hne) as (front & z & ->).
  rewrite forallb_app in Hcore. apply andb_prop in Hcore as [_ Hz].
  cbn in Hz. rewrite andb_true_r in Hz. apply negb_true_iff in Hz.
  replace ("@"%char :: chars "asyn" ++ opening ++ (front ++ [z]) ++ after)
    with (("@"%char :: chars "asyn" ++ opening ++ front) ++ z :: after)
    by (cbn [app]; rewrite <- !app_assoc; reflexivity).
  rewrite rstrip_stop by assumption. rewrite rstrip_all by assumption.
  cbn [app]. now rewrite <- !app_assoc.
Qed.

(** The code recovers the port name from an asyn reference. *)
Lemma asyn_port_name_reference (value port : string) :
  asyn_reference value port -> is_port_name port ->
  startswith (strip value) "@asyn" = true
  /\ asyn_port_name (strip value) = Some port.
Proof.
  intros (before & opening & after & Hbefore & Hopen & Hafter & Hform) Hport.
  unfold is_port_name in Hport.
  assert (Hport_ws : forallb (fun c => negb (isspace c)) (chars port) = true).
  { eapply forallb_weaken; [|exact Hport].
    intros c Hc. apply port_name_char_spec in Hc as (-> & _). reflexivity. }
  assert (Hstripped : exists tail,
             strip_by isspace (chars value)
             = chars "@asyn" ++ chars opening ++ chars port ++ tail
             /\ ((exists rest, tail = ","%char :: rest)
                 \/ (chars port <> []
                     /\ forallb (mem (chars "()")) tail = true))).
  { destruct Hform as [[rest ->]|(closing & Hne & Hclosing & ->)].
    - exists (","%char :: rstrip_by isspace (chars rest)).
      split; [|left; eauto].
      rewrite !chars_app. change (chars ",") with [","%char].
      unfold strip_by, lstrip_by. rewrite dropwhile_all by assumption.
      change (chars "@asyn") with ("@"%char :: chars "asyn").
      cbn [app]. rewrite dropwhile_stop by reflexivity.
      replace ("@"%char :: chars "asyn" ++ chars opening ++ chars port
               ++ ","%char :: chars rest)
        with (("@"%char :: chars "asyn" ++ chars opening ++ chars port)
              ++ ","%char :: chars rest)
        by (cbn [app]; now rewrite <- !app_assoc).
      rewrite rstrip_stop by reflexivity.
      cbn [app]. now rewrite <- !app_assoc.
    - exists (chars closing). split.
      + rewrite !chars_app. rewrite (app_assoc (chars port)), <- app_assoc.
        rewrite (app_assoc (chars port)).
        apply strip_asyn_reference; try assumption.
        * intros Hnil. apply app_eq_nil in Hnil as [Hnil _].
          apply chars_nil in Hnil. contradiction.
        * rewrite forallb_app, Hport_ws. cbn.
          eapply forallb_weaken; [|exact Hclosing].
          intros c Hc. apply closing_char_spec in Hc as (-> & _). reflexivity.
      + right. split; [|assumption].
        intros Hnil. apply chars_nil in Hnil. contradiction. }
  destruct Hstripped as (tail & Hstrip & Htail).
  unfold strip at 1 2. rewrite Hstrip. split.
  - unfold startswith. rewrite chars_str. apply startswith_l_app.
  - rewrite asyn_port_name_extracted, extracted_port by assumption.
    cbn. now rewrite str_chars.
Qed.

End AsynReference.

Lemma get_asyn_port_from_record_reference (st : ShellState)
  (inst : RecordInstance) (link : RecordField) (port : string) :
  primary_link inst link ->
  asyn_reference (rf_value link) port -> is_port_name port ->
  get_asyn_port_from_record st inst = asyn_ports st !! port.
Proof.
  intros Hlink Href Hname.
  destruct (asyn_port_name_reference _ _ Href Hname) as [Hstart Hextract].
  unfold get_asyn_port_from_record.
  destruct Hlink as [->|[-> ->]]; now rewrite Hstart, Hextract.
Qed.

(** The links that the parser recovers the port from.  When the classic
    database has the record and its [INP] field (or, without an [INP]
    field, its [OUT] field) is [@asyn(PORT,...] or [@asyn(PORT)] with
    nothing but closing parentheses and white space behind the name, and
    [PORT] is registered, [whatrec] returns a result that lists the
    record and that port; if the port object names a parent, the port
    list is the parent's registry entry followed by the port, so a
    registered parent stands ahead of the child; and the parent is
    registered in every state in which the parents of all port objects
    are, as they are in the states the interpreter builds.  When neither
    namespace has the name, [whatrec] returns [None]. *)
Theorem whatrec_port_linkage (st : ShellState) (rec : string)
  (field : option string) (include_pva : bool) :
  (forall inst link port ref,
     database st !! rec = Some inst ->
     primary_link inst link ->
     asyn_reference (rf_value link) port -> is_port_name port ->
     asyn_ports st !! port = Some ref ->
     exists wr,
       whatrec st rec field include_pva = Some wr
       /\ wr_name wr = rec
       /\ inst ∈ wr_instances wr
       /\ Some ref ∈ wr_asyn_ports wr
       /\ (forall child parent,
             port_objects st !! ref = Some child ->
             port_parent child = Some parent ->
             wr_asyn_ports wr = [asyn_ports st !! parent; Some ref]
             /\ (forall parent_ref,
                   asyn_ports st !! parent = Some parent_ref ->
                   wr_asyn_ports wr = [Some parent_ref; Some ref])
             /\ (parents_registered st ->
                 exists parent_ref,
                   asyn_ports st !! parent = Some parent_ref
                   /\ wr_asyn_ports wr = [Some parent_ref; Some ref]))
       /\ (forall child,
             port_objects st !! ref = Some child ->
             port_parent child = None ->
             wr_asyn_ports wr = [Some ref]))
  /\ (database st !! rec = None -> pva_database st !! rec = None ->
      whatrec st rec field include_pva = None).
Proof.
  split.
  - intros inst link port ref Hinst Hlink Href Hname Hport.
    pose proof (get_asyn_port_from_record_reference st inst link port
                  Hlink Href Hname) as Hget.
    rewrite Hport in Hget.
    eexists. split.
    { unfold whatrec. rewrite Hinst, Hget. reflexivity. }
    cbn. split; [reflexivity|]. split; [apply list_elem_of_here|].
    split.
    { destruct (port_objects st !! ref ≫= _); set_solver. }
    split.
    + intros child parent Hchild Hparent. rewrite Hchild. cbn.
      rewrite Hparent. split; [reflexivity|].
      split; [now intros parent_ref ->|].
      intros Hreg. destruct (Hreg ref child parent Hchild Hparent)
        as [parent_ref Hparent_ref].
      exists parent_ref. now rewrite Hparent_ref.
    + intros child Hchild Hparent. rewrite Hchild. cbn. now rewrite Hparent.
  - intros Hv3 Hpva. unfold whatrec. rewrite Hv3, Hpva.
    now destruct include_pva.
Qed.

Lemma whatrec_port_linkage_witness :
  (exists wr,
     whatrec World.with_motor "test:rbv" None true = Some wr
     /\ wr_asyn_ports wr = [Some 0; Some 1]
     /\ asyn_ports World.with_motor !! "L0" = Some 0
     /\ asyn_ports World.with_motor !! "M1" = Some 1)
  /\ whatrec World.with_motor "test:none" None true = None.
Proof.
  destruct (whatrec_port_linkage World.with_motor "test:rbv" None true)
    as [Hfound _].
  destruct (whatrec_port_linkage World.with_motor "test:none" None true)
    as [_ Hnone].
  split; [|apply Hnone; vm_compute; reflexivity].
  destruct (Hfound World.rbv
              (mkField "DBF_OUTLINK" "OUT" "@asyn(M1,0,1)POS"
                       [("/ioc/recs.db", 2)]) "M1" 1)
    as (wr & Hwr & _ & _ & _ & Hparent & _).
  - vm_compute. reflexivity.
  - right. split; vm_compute; reflexivity.
  - exists "", "(", "". repeat split; try reflexivity.
    left. exists "0,1)POS". reflexivity.
  - reflexivity.
  - vm_compute. reflexivity.
  - exists wr. split; [exact Hwr|].
    destruct (Hparent (mkPort AsynMotor [] "M1" [] (Some "L0")
                         (list_to_map [("num_axes", PyStr "4");
                                       ("move_poll_rate", PyFloatZero);
                                       ("idle_poll_rate", PyFloatZero)])
                         ∅ None ∅) "L0") as (_ & Hahead & _);
      [vm_compute; reflexivity | reflexivity |].
    split; [apply Hahead; vm_compute; reflexivity|].
    split; vm_compute; reflexivity.
Defined.

(** C4. A registered port [P1] and three records whose [INP] links name
    it.  [@asyn(P1,0,1)PARAM] resolves the port.  [@asyn(P1)PARAM] does
    not: [strip(" ()")] takes parentheses off the two ends of
    [(P1)PARAM] only, there is no comma to split at, and the registry is
    asked for [P1)PARAM].  Nor does [@asynMask(P1,0,255)PARAM], which
    passes [startswith("@asyn")]: the registry is asked for [Mask(P1].
    For these two records [whatrec] returns the record with an empty port
    list. *)
Theorem whatrec_asyn_link_unresolved :
  asyn_ports World.with_links !! "P1" = Some 0
  /\ database World.with_links !! "test:bare"
     = Some (World.linked "test:bare" "@asyn(P1)PARAM")
  /\ asyn_port_name "@asyn(P1)PARAM" = Some "P1)PARAM"
  /\ get_asyn_port_from_record World.with_links
       (World.linked "test:bare" "@asyn(P1)PARAM") = None
  /\ whatrec World.with_links "test:bare" None true
     = Some (mkWhatRecord "test:bare" None
               [World.linked "test:bare" "@asyn(P1)PARAM"] [] None)
  /\ asyn_port_name "@asynMask(P1,0,255)PARAM" = Some "Mask(P1"
  /\ whatrec World.with_links "test:mask" None true
     = Some (mkWhatRecord "test:mask" None
               [World.linked "test:mask" "@asynMask(P1,0,255)PARAM"] [] None)
  /\ whatrec World.with_links "test:addr" None true
     = Some (mkWhatRecord "test:addr" None
               [World.linked "test:addr" "@asyn(P1,0,1)PARAM"] [Some 0] None).
Proof. repeat split; vm_compute; reflexivity. Qed.

(** ** What the command handlers leave alone

    No command handler touches the load-context stack: it is written by
    [interpret_shell_script] alone.  And no handler creates a port whose
    parent is not registered. *)

#[global] Instance same_stack_frame : Frame same_stack.
Proof.
  split.
  - now split.
  - intros st1 st2 st3 [? ?] [? ?]. split; congruence.
  - now split.
Qed.

#[global] Instance parents_stay_frame : Frame parents_stay.
Proof.
  split.
  - now intros st H.
  - intros st1 st2 st3 H12 H23 H. auto.
  - intros mc st H. exact H.
Qed.

Section Keeps.
Context {R : ShellState -> ShellState -> Prop} `{!Frame R}.

Lemma keeps_ret {A} (a : A) : keeps R (ret a).
Proof. intros st st' out [= <- <-]. apply frame_refl. Qed.

Lemma keeps_raise {A} (e : Exc) : keeps R (raise (A := A) e).
Proof. intros st st' out [= <- <-]. apply frame_refl. Qed.

Lemma keeps_gets {A} (f : ShellState -> A) : keeps R (gets f).
Proof. intros st st' out [= <- <-]. apply frame_refl. Qed.

Lemma keeps_lift {A} (r : Exc + A) : keeps R (lift r).
Proof. destruct r; [apply keeps_raise|apply keeps_ret]. Qed.

Lemma keeps_modify (f : ShellState -> ShellState) :
  (forall st, R st (f st)) -> keeps R (modify f).
Proof. intros Hf st st' out [= <- <-]. apply Hf. Qed.

Lemma keeps_bind {A B} (m : M A) (k : A -> M B) :
  keeps R m -> (forall a, keeps R (k a)) -> keeps R (bind m k).
Proof.
  intros Hm Hk st st' out. unfold bind.
  destruct (m st) as [st1 [a|e]] eqn:Hrun.
  - intros Hrest. eapply frame_trans; [eapply Hm, Hrun|eapply Hk, Hrest].
  - intros [= <- <-]. eapply Hm, Hrun.
Qed.

Lemma keeps_try_except {A} (m : M A) (h : Exc -> M A) :
  keeps R m -> (forall e, keeps R (h e)) -> keeps R (try_except m h).
Proof.
  intros Hm Hh st st' out. unfold try_except.
  destruct (m st) as [st1 [a|e]] eqn:Hrun.
  - intros [= <- <-]. eapply Hm, Hrun.
  - intros Hrest. eapply frame_trans; [eapply Hm, Hrun|eapply Hh, Hrest].
Qed.

Lemma keeps_with_scoped `{Ext : External} {A} (macros : gmap string string)
  (body : M A) :
  keeps R body -> keeps R (with_scoped macros body).
Proof.
  intros Hbody st st' out. unfold with_scoped.
  destruct (body _) as [st2 o] eqn:Hrun. intros [= <- <-].
  apply Hbody in Hrun.
  eapply frame_trans; [apply frame_macro|].
  eapply frame_trans; [exact Hrun|apply frame_macro].
Qed.

Lemma keeps_fix_path `{Ext : External} (filename : string) :
  keeps R (fix_path filename).
Proof.
  intros st st' out. unfold fix_path.
  destruct (_fix_path st filename); intros [= <- <-]; apply frame_refl.
Qed.

Lemma keeps_object_at `{Ext : External} (ref : nat) : keeps R (object_at ref).
Proof.
  intros st st' out. unfold object_at.
  destruct (port_objects st !! ref); intros [= <- <-]; apply frame_refl.
Qed.

End Keeps.

(** Taking a computation apart: binds, branches, and the state updates
    that the relation at hand does not see. *)
Ltac keeps_step :=
  first
    [ apply keeps_ret | apply keeps_raise | apply keeps_gets | apply keeps_lift
    | apply keeps_fix_path | apply keeps_object_at
    | apply keeps_modify; intros ?;
      first [split; reflexivity | intros ?; assumption]
    | apply keeps_bind; [|intros ?]
    | apply keeps_try_except; [|intros ?]
    | apply keeps_with_scoped
    | match goal with
      | |- keeps _ (match ?x with _ => _ end) => destruct x
      end ].

Ltac keeps := repeat keeps_step.

Lemma keeps_load_file `{Ext : External} {R} `{!Frame R} (filename : string) :
  (forall f st, R st (set_loaded_files f st)) ->
  (forall i st, R st (set_ioc_info i st)) ->
  keeps R (load_file filename).
Proof.
  intros Hfiles Hinfo. unfold load_file. keeps;
    apply keeps_modify; intros st; [apply Hfiles|apply Hinfo].
Qed.

Lemma keeps_stack_load_file `{Ext : External} (filename : string) :
  keeps same_stack (load_file filename).
Proof. apply keeps_load_file; now split. Qed.

Lemma keeps_parents_load_file `{Ext : External} (filename : string) :
  keeps parents_stay (load_file filename).
Proof. apply keeps_load_file; intros ? st Hst; exact Hst. Qed.

Lemma keeps_merge_pva_groups `{Ext : External} {R} `{!Frame R}
  (context : FullLoadContext) (items : list (string * RecordInstance)) :
  (forall d st, R st (set_database d st)) ->
  (forall d st, R st (set_pva_database d st)) ->
  keeps R (merge_pva_groups context items).
Proof.
  intros Hdb Hpva.
  induction items as [|[name rec] rest IH]; cbn [merge_pva_groups]; [keeps|].
  apply keeps_bind; [|intros ?; exact IH]. unfold merge_pva_group.
  keeps; apply keeps_modify; intros st; auto.
Qed.

Lemma keeps_env_set_EPICS_BASE_loop `{Ext : External} {R} `{!Frame R}
  (prefixes : list string) (path : string) :
  (forall i st, R st (set_ioc_info i st)) ->
  keeps R (env_set_EPICS_BASE_loop prefixes path).
Proof.
  intros Hinfo.
  induction prefixes as [|prefix rest IH]; cbn [env_set_EPICS_BASE_loop];
    keeps; first [exact IH | apply keeps_modify; intros st; apply Hinfo].
Qed.

Lemma keeps_stack_new_object `{Ext : External} (p : AsynPort) :
  keeps same_stack (new_object p).
Proof. intros st st' out [= <- <-]. now split. Qed.

(** No handler, and so no dispatched command, changes the stack. *)
Lemma keeps_stack_call_handler `{Ext : External} (h : Handler)
  (args : list string) :
  keeps same_stack (call_handler h args).
Proof.
  revert h. induction args as [|a args IH]; intros h;
  destruct h; cbn [call_handler];
  unfold handle_NDPvaConfigure, handle_EthercatMCCreateController,
    handle_adsAsynPortDriverConfigure, handle_asynSetOption, handle_chdir,
    handle_cd, handle_dbLoadDatabase, handle_dbLoadRecords, handle_dbl,
    handle_drvAsynIPPortConfigure, handle_drvAsynMotorConfigure,
    handle_drvAsynSerialPortConfigure, handle_epicsEnvSet,
    handle_epicsEnvShow, handle_iocInit, handle_iocshCmd,
    handle_iocshRegisterVariable, _motor_wrapper, _generic_motor_handler,
    EthercatMCCreateController_body, adsAsynPortDriverConfigure_body,
    drvAsynMotorConfigure_body, lookup_port, update_object, register_port,
    env_set_EPICS_BASE, merge_records, unhandled;
  keeps;
  first [ apply keeps_stack_load_file | apply keeps_stack_new_object
        | apply keeps_merge_pva_groups; now split
        | apply keeps_env_set_EPICS_BASE_loop; now split
        | apply IH ].
Qed.

Lemma keeps_handle_command `{Ext : External} (command : string)
  (args : list string) :
  keeps same_stack (handle_command command args).
Proof.
  unfold handle_command, unhandled. keeps. apply keeps_stack_call_handler.
Qed.

(** With [recurse=False] no nested script runs, and a line leaves the
    stack as it found it, whatever the command does and however the run
    ends. *)
Lemma interpret_shell_line_keeps_stack `{Ext : External} (fuel : nat) :
  forall line raise_on_error st st' ys ex,
    interpret_shell_line fuel line false raise_on_error st = Some (st', ys, ex) ->
    same_stack st st'.
Proof.
  induction fuel as [|fuel IH]; [discriminate|].
  intros line raise_on_error st st' ys ex Hrun.
  cbn [interpret_shell_line] in Hrun.
  set (shresult := parse_iocsh_line _ _ _ _ _) in Hrun.
  assert (Hnested : forall res s s' ys' ex',
            match sr_result res with
            | ResCmdArgs a =>
                match interpret_shell_line fuel (ca_command a) false false s
                with
                | Some (s1, ys1, ex1) => Some (s1, res :: ys1, ex1)
                | None => None
                end
            | _ => Some (s, [res], None)
            end = Some (s', ys', ex') -> same_stack s s').
  { intros res s s' ys' ex' Hres.
    destruct (sr_result res); try (injection Hres as <- _ _; apply (frame_refl (R := same_stack))).
    destruct (interpret_shell_line fuel _ false false s) as [[[s1 ys1] ex1]|]
      eqn:Hinner; [|discriminate].
    injection Hres as <- _ _. eapply IH, Hinner. }
  destruct (truthy (sr_error shresult)).
  { injection Hrun as <- _ _. apply (frame_refl (R := same_stack)). }
  destruct (List.filter is_input_redirect (sr_redirects shresult)).
  2:{ injection Hrun as <- _ _. apply (frame_refl (R := same_stack)). }
  destruct (argv_of shresult) as [|command args].
  { injection Hrun as <- _ _. apply (frame_refl (R := same_stack)). }
  destruct (handle_command command args st) as [s1 out] eqn:Hcmd.
  apply keeps_handle_command in Hcmd.
  destruct out as [result|e].
  - eapply (frame_trans (R := same_stack)); [exact Hcmd|eapply Hnested, Hrun].
  - destruct raise_on_error.
    + injection Hrun as <- _ _. exact Hcmd.
    + eapply (frame_trans (R := same_stack)); [exact Hcmd|eapply Hnested, Hrun].
Qed.

Lemma set_line_last (id lineno current : nat) (name : string)
  (stack : list MutableLoadContext) :
  Forall (fun c => ctx_id c <> id) stack ->
  set_line id lineno (stack ++ [mkCtx id name current])
  = stack ++ [mkCtx id name lineno].
Proof.
  intros Hfresh. unfold set_line. rewrite map_app. cbn.
  rewrite Nat.eqb_refl. f_equal.
  induction Hfresh as [|c rest Hc _ IH]; [reflexivity|].
  cbn. rewrite IH. apply Nat.eqb_neq in Hc. now rewrite Hc.
Qed.

Lemma list_remove_last (x : MutableLoadContext)
  (stack : list MutableLoadContext) :
  Forall (fun c => ctx_equal c x = false) stack ->
  list_remove x (stack ++ [x]) = Some stack.
Proof.
  induction 1 as [|c rest Hc _ IH]; cbn.
  - unfold ctx_equal. now rewrite Nat.eqb_refl.
  - now rewrite Hc, IH.
Qed.

(** The loop of a script that runs no nested script only moves the line
    number of the script's own entry. *)
Lemma script_loop_keeps_stack `{Ext : External} (fuel : nat)
  (raise_on_error : bool) (id : nat) (name : string)
  (stack : list MutableLoadContext) (lines : list string) :
  Forall (fun c => ctx_id c <> id) stack ->
  forall lineno current st run final,
    load_context st = stack ++ [mkCtx id name current] ->
    script_loop
      (fun line => interpret_shell_line fuel line false raise_on_error)
      id lineno current lines st = Some (run, final) ->
    load_context run.1.1 = stack ++ [mkCtx id name final]
    /\ ctx_next run.1.1 = ctx_next st.
Proof.
  intros Hfresh. induction lines as [|line rest IH];
    intros lineno current st run final Hstack Hrun; cbn [script_loop] in Hrun.
  { injection Hrun as <- <-. now split. }
  set (st0 := set_load_context _ st) in Hrun.
  assert (Hst0 : load_context st0 = stack ++ [mkCtx id name lineno]).
  { unfold st0. cbn. rewrite Hstack. now apply set_line_last. }
  assert (Hnext0 : ctx_next st0 = ctx_next st) by reflexivity.
  clearbody st0.
  destruct (interpret_shell_line fuel line false raise_on_error st0)
    as [[[s1 ys] ex]|] eqn:Hline; [|discriminate].
  apply interpret_shell_line_keeps_stack in Hline as [Hctx Hnext].
  destruct ex as [e|].
  - injection Hrun as <- <-. cbn. split; congruence.
  - destruct (script_loop _ id (S lineno) lineno rest s1)
      as [[[[s2 ys'] ex'] final']|] eqn:Hrest; [|discriminate].
    injection Hrun as <- <-.
    apply IH in Hrest as [Hctx2 Hnext2]; [|congruence].
    cbn in *. split; congruence.
Qed.

(** Where the pushed entry cannot be mistaken for another one, C9 holds:
    a script interpreted with [recurse=False] on a stack that holds no
    entry of the same file name ends, normally or by a propagated
    exception, with the stack it started from. *)
Lemma interpret_shell_script_restores_stack `{Ext : External} (fuel : nat)
  (lines : list string) (name : string) (raise_on_error : bool)
  (st st' : ShellState) (ys : list IocshResult) (ex : option Exc) :
  Forall (fun c => ctx_id c < ctx_next st) (load_context st) ->
  Forall (fun c => ctx_name c <> name) (load_context st) ->
  interpret_shell_script fuel lines name false raise_on_error st
  = Some (st', ys, ex) ->
  load_context st' = load_context st.
Proof.
  intros Hids Hnames Hrun.
  unfold interpret_shell_script, interpret_shell_script_with in Hrun.
  set (st0 := set_load_context _ _) in Hrun.
  destruct (script_loop _ (ctx_next st) 1 0 lines st0)
    as [[[[s1 ys1] ex1] final]|] eqn:Hloop; [|discriminate].
  eapply (script_loop_keeps_stack fuel raise_on_error (ctx_next st) name
            (load_context st)) in Hloop as [Hctx _].
  - cbn in Hctx. rewrite Hctx, list_remove_last in Hrun.
    + now injection Hrun as <- _ _.
    + rewrite Forall_forall in Hids, Hnames. apply Forall_forall.
      intros c Hin. specialize (Hids c Hin). specialize (Hnames c Hin).
      unfold ctx_equal. cbn.
      destruct (String.eqb_spec (ctx_name c) name) as [Heq|_];
        [contradiction|].
      cbn. rewrite orb_false_r. apply Nat.eqb_neq. lia.
  - eapply Forall_impl; [exact Hids|]. cbn. intros c Hc. lia.
  - reflexivity.
Qed.

(** C9 fails when a file is entered again while it is being interpreted.
    [list.remove] drops the first entry EQUAL to the one pushed, and two
    entries are equal when their file name and line number are.  Here
    [a.cmd] includes [b.cmd] from its last line, and [b.cmd] includes
    [a.cmd]; the second pass over [a.cmd] ends on the same line number the
    first one is waiting at.  The nested interpretation of [a.cmd] then
    removes the entry of the outer one (number 1) and leaves its own
    (number 3) behind: the stack after the call lists [b.cmd] before
    [a.cmd], not as before the call.  In the run of the whole start-up
    script, the line of [b.cmd] that follows the inclusion is reported
    with that wrong provenance. *)
Theorem interpret_shell_script_reentered_file :
  let before := World.inside_b in
  let nested :=
    interpret_shell_script (Ext := World.world) 1 World.a_cmd "/ioc/a.cmd"
      true false before in
  let whole :=
    interpret_shell_script (Ext := World.world) 4 ["< /ioc/a.cmd"]
      "/ioc/st.cmd" true false World.fresh in
  run_exception nested = Some None
  /\ get_load_context before
     = [("/ioc/st.cmd", 1); ("/ioc/a.cmd", 2); ("/ioc/sub/b.cmd", 1)]
  /\ (get_load_context <$> run_state nested)
     = Some [("/ioc/st.cmd", 1); ("/ioc/sub/b.cmd", 1); ("/ioc/a.cmd", 2)]
  /\ map ctx_id (load_context before) = [0; 1; 2]
  /\ (map ctx_id <$> (load_context <$> run_state nested)) = Some [0; 2; 3]
  /\ (load_context <$> run_state nested) <> Some (load_context before)
  /\ run_exception whole = Some None
  /\ (last <$> (map sr_line <$> run_results whole)) = Some (Some "dbl")
  /\ (last <$> (map sr_context <$> run_results whole))
     = Some (Some [("/ioc/st.cmd", 1); ("/ioc/sub/b.cmd", 2);
                   ("/ioc/a.cmd", 2)]).
Proof.
  cbv zeta. repeat split; try (vm_compute; reflexivity).
  vm_compute. discriminate.
Qed.

(** ** Fuel

    A run that the fuel sufficed for is the run for every larger amount
    of fuel: the fuel bounds the nesting and decides nothing else. *)

Lemma script_loop_mono
  (f g : string -> ShellState -> option Run) :
  (forall line st r, f line st = Some r -> g line st = Some r) ->
  forall lines id lineno current st x,
    script_loop f id lineno current lines st = Some x ->
    script_loop g id lineno current lines st = Some x.
Proof.
  intros Hfg. induction lines as [|line rest IH];
    intros id lineno current st x Hrun; cbn [script_loop] in *; [exact Hrun|].
  destruct (f line _) as [[[s1 ys] ex]|] eqn:Hline; [|discriminate].
  rewrite (Hfg _ _ _ Hline). destruct ex; [exact Hrun|].
  destruct (script_loop f id (S lineno) lineno rest s1) as [x'|] eqn:Hrest;
    [|discriminate].
  now rewrite (IH _ _ _ _ _ Hrest).
Qed.

Lemma interpret_shell_script_with_mono `{Ext : External}
  (f g : string -> ShellState -> option Run) :
  (forall line st r, f line st = Some r -> g line st = Some r) ->
  forall lines name st r,
    interpret_shell_script_with f lines name st = Some r ->
    interpret_shell_script_with g lines name st = Some r.
Proof.
  intros Hfg lines name st r. unfold interpret_shell_script_with.
  destruct (script_loop f _ _ _ _ _) as [x|] eqn:Hloop; [|discriminate].
  now rewrite (script_loop_mono f g Hfg _ _ _ _ _ _ Hloop).
Qed.

Lemma interpret_shell_line_mono `{Ext : External} (fuel : nat) :
  forall fuel' line recurse raise_on_error st r,
    fuel <= fuel' ->
    interpret_shell_line fuel line recurse raise_on_error st = Some r ->
    interpret_shell_line fuel' line recurse raise_on_error st = Some r.
Proof.
  induction fuel as [|fuel IH]; [discriminate|].
  intros [|fuel'] line recurse raise_on_error st r Hle Hrun; [lia|].
  assert (Hle' : fuel <= fuel') by lia.
  cbn [interpret_shell_line] in *.
  set (shresult := parse_iocsh_line _ _ _ _ _) in *.
  assert (Hnested : forall res s,
            match sr_result res with
            | ResCmdArgs a =>
                match interpret_shell_line fuel (ca_command a) recurse false s
                with
                | Some (s1, ys1, ex1) => Some (s1, res :: ys1, ex1)
                | None => None
                end
            | _ => Some (s, [res], None)
            end = Some r ->
            match sr_result res with
            | ResCmdArgs a =>
                match interpret_shell_line fuel' (ca_command a) recurse false s
                with
                | Some (s1, ys1, ex1) => Some (s1, res :: ys1, ex1)
                | None => None
                end
            | _ => Some (s, [res], None)
            end = Some r).
  { intros res s Hres. destruct (sr_result res); try exact Hres.
    destruct (interpret_shell_line fuel _ recurse false s) as [r1|] eqn:Hinner;
      [|discriminate].
    now rewrite (IH _ _ _ _ _ _ Hle' Hinner). }
  destruct (truthy (sr_error shresult)); [exact Hrun|].
  destruct (List.filter is_input_redirect (sr_redirects shresult))
    as [|redir redirs].
  - destruct (argv_of shresult) as [|command args]; [exact Hrun|].
    destruct (handle_command command args st) as [s1 [result|e]].
    + now apply Hnested.
    + destruct raise_on_error; [exact Hrun|now apply Hnested].
  - destruct recurse; [|exact Hrun].
    unfold _handle_input_redirect in *.
    destruct (load_file (redir_name redir) st) as [s1 [[filename contents]|e]];
      [|exact Hrun].
    destruct (interpret_shell_script_with _ _ _ s1) as [r1|] eqn:Hscript;
      [|discriminate].
    erewrite interpret_shell_script_with_mono; [exact Hrun| |exact Hscript].
    intros l s r' Hl. cbn beta in *. now apply (IH fuel').
Qed.

(** ** Parents of registered ports

    Port objects are never dropped from the registry, and the one command
    that records a parent looks the parent up first.  So in every state
    the interpreter builds from a fresh one, a port that names a parent
    names a registered port, and the port list of [whatrec] holds the
    parent itself ahead of the child. *)

Lemma keeps_parents_new_orphan `{Ext : External} (p : AsynPort) :
  port_parent p = None -> keeps parents_stay (new_object p).
Proof.
  intros Horphan st st' out [= <- <-] Hst ref port parent Hobj Hparent.
  cbn in *. apply lookup_app_Some in Hobj as [Hold|[_ Hnew]].
  - eapply Hst; eauto.
  - apply list_lookup_singleton_Some in Hnew as [_ <-]. congruence.
Qed.

Lemma keeps_parents_register `{Ext : External} (name : string) (ref : nat) :
  keeps parents_stay (register_port name ref).
Proof.
  intros st st' out [= <- <-] Hst r port parent Hobj Hparent. cbn in *.
  destruct (decide (name = parent)) as [->|Hne].
  - rewrite lookup_insert_eq. eauto.
  - rewrite lookup_insert_ne by assumption. eapply Hst; eauto.
Qed.

(** Replacing an object by one with the same parent. *)
Lemma parents_registered_update (st : ShellState) (ref : nat)
  (old new : AsynPort) :
  parents_registered st ->
  port_objects st !! ref = Some old -> port_parent new = port_parent old ->
  parents_registered (set_port_objects (<[ref := new]> (port_objects st)) st).
Proof.
  intros Hst Hold Hsame r port parent Hobj Hparent. cbn in *.
  apply list_lookup_insert_Some in Hobj as [(-> & <- & _)|[_ Hobj]].
  - eapply Hst; [exact Hold|congruence].
  - eapply Hst; eauto.
Qed.

Lemma keeps_parents_asynSetOption `{Ext : External} (args : list string) :
  keeps parents_stay (handle_asynSetOption args).
Proof.
  intros st st' out Hrun Hst.
  unfold handle_asynSetOption, lookup_port, object_at, update_object in Hrun.
  destruct args as [|name [|addr [|key [|value rest]]]]; run_m;
    try (injection Hrun as <- _; exact Hst).
  destruct (asyn_ports st !! name) as [ref|]; cbn in Hrun;
    [|injection Hrun as <- _; exact Hst].
  destruct (port_objects st !! ref) as [port|] eqn:Hport; cbn in Hrun;
    [|injection Hrun as <- _; exact Hst].
  destruct (port_devices port) as [devices|]; cbn in Hrun.
  - destruct (devices !! addr); cbn in Hrun; injection Hrun as <- _;
      [|exact Hst].
    eapply parents_registered_update; eauto.
  - injection Hrun as <- _. eapply parents_registered_update; eauto.
Qed.

Lemma keeps_parents_EthercatMCCreateController `{Ext : External}
  (args : list string) :
  keeps parents_stay (EthercatMCCreateController_body args).
Proof.
  intros st st' out Hrun Hst.
  unfold EthercatMCCreateController_body, lookup_port, new_object, object_at,
    update_object, register_port in Hrun. run_m.
  set (motor_port := default "" (args !! 0)) in *.
  set (asyn_port := default "" (args !! 1)) in *.
  destruct (asyn_ports st !! asyn_port) as [parent_ref|] eqn:Hreg;
    cbn in Hrun; [|injection Hrun as <- _; exact Hst].
  set (motor := make_port AsynMotor _ _ _ _ _) in Hrun.
  assert (Hgrown : parents_registered
            (set_port_objects (port_objects st ++ [motor]) st)).
  { intros ref port parent Hobj Hparent. cbn in *.
    apply lookup_app_Some in Hobj as [Hold|[_ Hnew]]; [eapply Hst; eauto|].
    apply list_lookup_singleton_Some in Hnew as [_ <-].
    cbn in Hparent. injection Hparent as <-. rewrite Hreg. eauto. }
  destruct ((port_objects st ++ [motor]) !! parent_ref) as [port|] eqn:Hport;
    cbn in Hrun; injection Hrun as <- _; [|exact Hgrown].
  intros ref p parent Hobj Hparent. cbn in *.
  assert (is_Some (asyn_ports st !! parent)) as Hsome.
  { apply list_lookup_insert_Some in Hobj as [(-> & <- & _)|[_ Hobj]].
    - eapply (Hgrown ref port); [exact Hport|exact Hparent].
    - eapply (Hgrown ref p); [exact Hobj|exact Hparent]. }
  destruct (decide (motor_port = parent)) as [->|Hne].
  - rewrite lookup_insert_eq. eauto.
  - now rewrite lookup_insert_ne.
Qed.

Lemma keeps_parents_call_handler `{Ext : External} (h : Handler)
  (args : list string) :
  keeps parents_stay (call_handler h args).
Proof.
  revert h. induction args as [|a args IH]; intros h;
  destruct h; cbn [call_handler];
  unfold handle_NDPvaConfigure, handle_EthercatMCCreateController,
    handle_adsAsynPortDriverConfigure, handle_chdir, handle_epicsEnvShow,
    handle_cd, handle_dbLoadDatabase, handle_dbLoadRecords, handle_dbl,
    handle_drvAsynIPPortConfigure, handle_drvAsynMotorConfigure,
    handle_drvAsynSerialPortConfigure, handle_epicsEnvSet,
    handle_epicsEnvShow, handle_iocInit, handle_iocshCmd,
    handle_iocshRegisterVariable, _motor_wrapper, _generic_motor_handler,
    adsAsynPortDriverConfigure_body, drvAsynMotorConfigure_body,
    env_set_EPICS_BASE, merge_records, unhandled;
  repeat first
    [ apply keeps_parents_load_file
    | apply keeps_parents_new_orphan; reflexivity
    | apply keeps_parents_register
    | apply keeps_parents_asynSetOption
    | apply keeps_parents_EthercatMCCreateController
    | apply keeps_merge_pva_groups; intros ? st Hst; exact Hst
    | apply keeps_env_set_EPICS_BASE_loop; intros ? st Hst; exact Hst
    | apply IH
    | keeps_step ].
Qed.

Lemma keeps_parents_handle_command `{Ext : External} (command : string)
  (args : list string) :
  keeps parents_stay (handle_command command args).
Proof.
  unfold handle_command, unhandled. keeps. apply keeps_parents_call_handler.
Qed.

(** The interpreter adds nothing to what the commands and [load_file] do,
    except for its writes to the stack: a relation that those keep, and
    that does not see the stack, holds between the start and the end of
    every run. *)
Section InterpreterKeeps.
Context `{Ext : External} {R : ShellState -> ShellState -> Prop} `{!Frame R}.
Hypothesis R_stack : forall stack st, R st (set_load_context stack st).
Hypothesis R_next : forall n st, R st (set_ctx_next n st).
Hypothesis R_command : forall command args, keeps R (handle_command command args).
Hypothesis R_load_file : forall filename, keeps R (load_file filename).

Lemma script_loop_keeps (f : string -> ShellState -> option Run) :
  (forall line st st' ys ex, f line st = Some (st', ys, ex) -> R st st') ->
  forall lines id lineno current st st' ys ex final,
    script_loop f id lineno current lines st = Some ((st', ys, ex), final) ->
    R st st'.
Proof.
  intros Hf. induction lines as [|line rest IH];
    intros id lineno current st st' ys ex final Hrun;
    cbn [script_loop] in Hrun.
  { injection Hrun as <- _ _ _. apply frame_refl. }
  destruct (f line _) as [[[s1 ys1] ex1]|] eqn:Hline; [|discriminate].
  apply Hf in Hline.
  assert (R st s1) as Hstep
    by (eapply frame_trans; [apply R_stack|exact Hline]).
  destruct ex1.
  - injection Hrun as <- _ _ _. exact Hstep.
  - destruct (script_loop f id (S lineno) lineno rest s1)
      as [[[[s2 ys2] ex2] final2]|] eqn:Hrest; [|discriminate].
    injection Hrun as <- _ _ _.
    eapply frame_trans; [exact Hstep|eapply IH, Hrest].
Qed.

Lemma interpret_shell_script_with_keeps
  (f : string -> ShellState -> option Run) :
  (forall line st st' ys ex, f line st = Some (st', ys, ex) -> R st st') ->
  forall lines name st st' ys ex,
    interpret_shell_script_with f lines name st = Some (st', ys, ex) ->
    R st st'.
Proof.
  intros Hf lines name st st' ys ex. unfold interpret_shell_script_with.
  destruct (script_loop f _ _ _ _ _) as [[[[s1 ys1] ex1] final]|] eqn:Hloop;
    [|discriminate].
  apply (script_loop_keeps f Hf) in Hloop.
  assert (R st s1) as Hstep.
  { eapply frame_trans; [apply R_next|].
    eapply frame_trans; [apply R_stack|exact Hloop]. }
  destruct (list_remove _ _); intros [= <- _ _]; [|exact Hstep].
  eapply frame_trans; [exact Hstep|apply R_stack].
Qed.

Lemma interpret_shell_line_keeps (fuel : nat) :
  forall line recurse raise_on_error st st' ys ex,
    interpret_shell_line fuel line recurse raise_on_error st
    = Some (st', ys, ex) ->
    R st st'.
Proof.
  induction fuel as [|fuel IH]; [discriminate|].
  intros line recurse raise_on_error st st' ys ex Hrun.
  cbn [interpret_shell_line] in Hrun.
  set (shresult := parse_iocsh_line _ _ _ _ _) in Hrun.
  assert (Hnested : forall res s s' ys' ex',
            match sr_result res with
            | ResCmdArgs a =>
                match interpret_shell_line fuel (ca_command a) recurse false s
                with
                | Some (s1, ys1, ex1) => Some (s1, res :: ys1, ex1)
                | None => None
                end
            | _ => Some (s, [res], None)
            end = Some (s', ys', ex') -> R s s').
  { intros res s s' ys' ex' Hres.
    destruct (sr_result res);
      try (injection Hres as <- _ _; apply frame_refl).
    destruct (interpret_shell_line fuel _ recurse false s)
      as [[[s1 ys1] ex1]|] eqn:Hinner; [|discriminate].
    injection Hres as <- _ _. eapply IH, Hinner. }
  destruct (truthy (sr_error shresult)).
  { injection Hrun as <- _ _. apply frame_refl. }
  destruct (List.filter is_input_redirect (sr_redirects shresult))
    as [|redir redirs].
  - destruct (argv_of shresult) as [|command args].
    { injection Hrun as <- _ _. apply frame_refl. }
    destruct (handle_command command args st) as [s1 out] eqn:Hcmd.
    apply R_command in Hcmd.
    destruct out as [result|e].
    + eapply frame_trans; [exact Hcmd|eapply Hnested, Hrun].
    + destruct raise_on_error.
      * injection Hrun as <- _ _. exact Hcmd.
      * eapply frame_trans; [exact Hcmd|eapply Hnested, Hrun].
  - destruct recurse; [|injection Hrun as <- _ _; apply frame_refl].
    unfold _handle_input_redirect in Hrun.
    destruct (load_file (redir_name redir) st) as [s1 out] eqn:Hload.
    apply R_load_file in Hload.
    destruct out as [[filename contents]|e];
      [|injection Hrun as <- _ _; exact Hload].
    destruct (interpret_shell_script_with _ _ _ s1)
      as [[[s2 ys2] ex2]|] eqn:Hscript; [|discriminate].
    injection Hrun as <- _ _.
    eapply frame_trans; [exact Hload|].
    eapply interpret_shell_script_with_keeps; [|exact Hscript].
    intros l s s' ys' ex'. apply IH.
Qed.

End InterpreterKeeps.

Lemma new_ShellState_parents_registered `{Ext : External} (wd : Path)
  (mc : MacroContext) (md : IocMetadata) :
  parents_registered (new_ShellState wd mc md).
Proof. intros ref port parent Hobj. discriminate. Qed.

(** X26. Every state that the interpretation of a script reaches from a
    state with registered parents has registered parents: whatever the
    script, if every port object that names a parent named a registered
    port before, the same holds afterwards.  A freshly constructed state
    has no port, so every state the interpreter builds from one has the
    property. *)
Lemma interpret_shell_script_parents_registered `{Ext : External}
  (fuel : nat) (lines : list string) (name : string)
  (recurse raise_on_error : bool) (st st' : ShellState)
  (ys : list IocshResult) (ex : option Exc) :
  interpret_shell_script fuel lines name recurse raise_on_error st
  = Some (st', ys, ex) ->
  parents_registered st -> parents_registered st'.
Proof.
  intros Hrun.
  eapply (interpret_shell_script_with_keeps (R := parents_stay));
    [| | |exact Hrun]; try (intros ? s Hs; exact Hs).
  intros line s s' ys' ex'.
  apply (interpret_shell_line_keeps (R := parents_stay));
    try (intros ? s0 Hs; exact Hs).
  - apply keeps_parents_handle_command.
  - apply keeps_parents_load_file.
Qed.

(** ** What every run of the interpreter keeps *)

Lemma keeps_handle_command_of `{Ext : External}
  {R : ShellState -> ShellState -> Prop} `{!Frame R} :
  (forall h args, keeps R (call_handler h args)) ->
  forall command args, keeps R (handle_command command args).
Proof.
  intros Hcall command args. unfold handle_command, unhandled. keeps.
  apply Hcall.
Qed.

(** A relation that the commands and [load_file] keep, and that does not
    see the stack, holds across the interpretation of a script. *)
Lemma interpret_shell_script_keeps `{Ext : External}
  {R : ShellState -> ShellState -> Prop} `{!Frame R} :
  (forall stack st, R st (set_load_context stack st)) ->
  (forall n st, R st (set_ctx_next n st)) ->
  (forall h args, keeps R (call_handler h args)) ->
  (forall filename, keeps R (load_file filename)) ->
  forall fuel lines name recurse raise_on_error st st' ys ex,
    interpret_shell_script fuel lines name recurse raise_on_error st
    = Some (st', ys, ex) ->
    R st st'.
Proof.
  intros Hstack Hnext Hcall Hload fuel lines name recurse raise_on_error
    st st' ys ex Hrun.
  eapply (interpret_shell_script_with_keeps (R := R)); [exact Hstack|exact Hnext| |exact Hrun].
  intros line s s' ys' ex'.
  apply (interpret_shell_line_keeps (R := R)); try assumption.
  now apply keeps_handle_command_of.
Qed.

Ltac unfold_handlers :=
  unfold handle_NDPvaConfigure, handle_EthercatMCCreateController,
    handle_adsAsynPortDriverConfigure, handle_asynSetOption, handle_chdir,
    handle_cd, handle_dbLoadDatabase, handle_dbLoadRecords, handle_dbl,
    handle_drvAsynIPPortConfigure, handle_drvAsynMotorConfigure,
    handle_drvAsynSerialPortConfigure, handle_epicsEnvSet,
    handle_epicsEnvShow, handle_iocInit, handle_iocshCmd,
    handle_iocshRegisterVariable, _motor_wrapper, _generic_motor_handler,
    EthercatMCCreateController_body, adsAsynPortDriverConfigure_body,
    drvAsynMotorConfigure_body, lookup_port, update_object, register_port,
    new_object, env_set_EPICS_BASE, merge_records, unhandled.

#[global] Instance same_configuration_frame : Frame same_configuration.
Proof.
  split.
  - now intros st.
  - intros st1 st2 st3 (? & ? & ? & ?) (? & ? & ? & ?).
    repeat split; congruence.
  - now intros mc st.
Qed.

Lemma keeps_configuration_call_handler `{Ext : External} (h : Handler)
  (args : list string) :
  keeps same_configuration (call_handler h args).
Proof.
  assert (Hblind : forall f : ShellState -> ShellState,
            (forall st, same_configuration st (f st)) ->
            keeps same_configuration (modify f))
    by (intros f Hf; now apply keeps_modify).
  revert h. induction args as [|a args IH]; intros h;
  destruct h; cbn [call_handler]; unfold_handlers;
  repeat first
    [ apply keeps_load_file; intros ? st; now repeat split
    | apply keeps_merge_pva_groups; intros ? st; now repeat split
    | apply keeps_env_set_EPICS_BASE_loop; intros ? st; now repeat split
    | apply IH
    | apply Hblind; intros st; now repeat split
    | intros st st' out [= <- <-]; now repeat split
    | keeps_step ].
Qed.

#[global] Instance lifecycle_advances_frame : Frame lifecycle_advances.
Proof.
  split.
  - now intros st.
  - intros st1 st2 st3 [? ?] [? ?]. split; auto.
  - now intros mc st.
Qed.

Lemma keeps_lifecycle_dbLoadDatabase `{Ext : External} (args : list string) :
  keeps lifecycle_advances (handle_dbLoadDatabase args).
Proof.
  intros st st' out. unfold handle_dbLoadDatabase. run_m.
  destruct args as [|dbd rest]; [now intros [= <- <-]|].
  destruct (ioc_initialized st) eqn:Hinit; [now intros [= <- <-]|].
  destruct (database_definition st) eqn:Hdbd; [now intros [= <- <-]|].
  intros _. split; [congruence|]. intros dbd'. congruence.
Qed.

Lemma keeps_lifecycle_call_handler `{Ext : External} (h : Handler)
  (args : list string) :
  keeps lifecycle_advances (call_handler h args).
Proof.
  assert (Hblind : forall f : ShellState -> ShellState,
            (forall st, lifecycle_advances st (f st)) ->
            keeps lifecycle_advances (modify f))
    by (intros f Hf; now apply keeps_modify).
  revert h. induction args as [|a args IH]; intros h;
  destruct h; cbn [call_handler];
  (apply keeps_lifecycle_dbLoadDatabase ||
   (unfold_handlers;
    repeat first
      [ apply keeps_load_file; intros ? st; now split
      | apply keeps_merge_pva_groups; intros ? st; now split
      | apply keeps_env_set_EPICS_BASE_loop; intros ? st; now split
      | apply IH
      | apply Hblind; intros st; now split
      | intros st st' out [= <- <-]; now split
      | keeps_step ])).
Qed.

(** *** Registries *)

Lemma keys_kept_refl {V} (m : gmap string V) : keys_kept m m.
Proof. now intros k. Qed.

Lemma keys_kept_trans {U V W} (m1 : gmap string U) (m2 : gmap string V)
  (m3 : gmap string W) :
  keys_kept m1 m2 -> keys_kept m2 m3 -> keys_kept m1 m3.
Proof. intros H12 H23 k Hk. auto. Qed.

Lemma keys_kept_insert {V} (m : gmap string V) (k : string) (v : V) :
  keys_kept m (<[k := v]> m).
Proof.
  intros k' Hk. destruct (decide (k = k')) as [->|Hne].
  - rewrite lookup_insert_eq. eauto.
  - now rewrite lookup_insert_ne.
Qed.

Lemma keys_kept_union {V} (m other : gmap string V) :
  keys_kept m (other ∪ m).
Proof. intros k Hk. apply lookup_union_is_Some. now right. Qed.

Lemma extends_refl (r : RecordInstance) : extends r r.
Proof. repeat split; try reflexivity. apply keys_kept_refl. Qed.

Lemma extends_trans (r1 r2 r3 : RecordInstance) :
  extends r1 r2 -> extends r2 r3 -> extends r1 r3.
Proof.
  intros (? & ? & ? & ? & Hc12 & Hf12) (? & ? & ? & ? & Hc23 & Hf23).
  repeat split; try congruence.
  - etrans; eassumption.
  - eapply keys_kept_trans; eassumption.
Qed.

Lemma extends_redeclared (entry rec : RecordInstance) :
  extends entry (redeclared entry rec).
Proof.
  repeat split; cbn.
  - now apply prefix_app_r.
  - apply keys_kept_union.
Qed.

(** One step of the merge loop extends the stored records. *)
Lemma merge_record_extends `{Ext : External} (context : FullLoadContext)
  (db : gmap string RecordInstance) (item : string * RecordInstance)
  (name : string) (r : RecordInstance) :
  db !! name = Some r ->
  exists r', merge_record context db item !! name = Some r' /\ extends r r'.
Proof.
  intros Hr. destruct item as [n rec].
  destruct (decide (n = name)) as [->|Hne].
  - unfold merge_record. rewrite Hr, lookup_insert_eq.
    eexists. split; [reflexivity|]. apply extends_redeclared.
  - rewrite merge_record_other by assumption.
    exists r. split; [assumption|apply extends_refl].
Qed.

Lemma merge_records_extends `{Ext : External} (context : FullLoadContext)
  (items : list (string * RecordInstance)) :
  forall (db : gmap string RecordInstance) (name : string) (r : RecordInstance),
    db !! name = Some r ->
    exists r', foldl (merge_record context) db items !! name = Some r'
               /\ extends r r'.
Proof.
  induction items as [|item rest IH]; intros db name r Hr; cbn [foldl].
  - exists r. split; [assumption|apply extends_refl].
  - destruct (merge_record_extends context db item name r Hr)
      as (r1 & Hr1 & Hext1).
    destruct (IH _ _ _ Hr1) as (r2 & Hr2 & Hext2).
    exists r2. split; [assumption|]. eapply extends_trans; eassumption.
Qed.

Lemma merge_records_keys `{Ext : External} (context : FullLoadContext)
  (items : list (string * RecordInstance)) (db : gmap string RecordInstance) :
  keys_kept db (foldl (merge_record context) db items).
Proof.
  intros k [r Hr].
  destruct (merge_records_extends context items db k r Hr) as (r' & Hr' & _).
  eauto.
Qed.

#[global] Instance registries_grow_frame : Frame registries_grow.
Proof.
  split.
  - intros st. repeat split; apply keys_kept_refl.
  - intros st1 st2 st3 (? & ? & ? & ? & ?) (? & ? & ? & ? & ?).
    repeat split; eapply keys_kept_trans; eassumption.
  - intros mc st. repeat split; apply keys_kept_refl.
Qed.

Ltac grow :=
  repeat split; cbn;
  first [ apply keys_kept_refl | apply keys_kept_insert
        | apply merge_records_keys ].

(** The loop over the PVA groups of a file, for a relation that accepts a
    new group and the merge into a stored classic record. *)
Lemma keeps_merge_pva_groups_of `{Ext : External}
  {R : ShellState -> ShellState -> Prop} `{!Frame R}
  (context : FullLoadContext) (items : list (string * RecordInstance)) :
  (forall name rec st,
     R st (set_pva_database (<[name := rec]> (pva_database st)) st)) ->
  (forall name entry rec st, database st !! name = Some entry ->
     R st (set_database (<[name := redeclared entry rec]> (database st)) st)) ->
  keeps R (merge_pva_groups context items).
Proof.
  intros Hpva Hdb.
  induction items as [|[name rec] rest IH]; cbn [merge_pva_groups]; [keeps|].
  apply keeps_bind; [|intros ?; exact IH].
  intros st st' out. unfold merge_pva_group. run_m.
  destruct (pva_database st !! name).
  - destruct (database st !! name) as [entry|] eqn:Hentry;
      intros [= <- <-]; [now apply Hdb|apply frame_refl].
  - intros [= <- <-]. apply Hpva.
Qed.

Lemma keeps_grow_load_file `{Ext : External} (filename : string) :
  keeps registries_grow (load_file filename).
Proof.
  unfold load_file. keeps; apply keeps_modify; intros st; grow.
Qed.

Lemma keeps_grow_call_handler `{Ext : External} (h : Handler)
  (args : list string) :
  keeps registries_grow (call_handler h args).
Proof.
  assert (Hblind : forall f : ShellState -> ShellState,
            (forall st, registries_grow st (f st)) ->
            keeps registries_grow (modify f))
    by (intros f Hf; now apply keeps_modify).
  revert h. induction args as [|a args IH]; intros h;
  destruct h; cbn [call_handler]; unfold_handlers;
  repeat first
    [ apply IH
    | apply keeps_grow_load_file
    | apply keeps_merge_pva_groups_of; intros; grow
    | apply keeps_env_set_EPICS_BASE_loop; intros ? st; grow
    | apply Hblind; intros st; grow
    | intros st st' out [= <- <-]; grow
    | keeps_step ].
Qed.

#[global] Instance records_extended_frame : Frame records_extended.
Proof.
  split.
  - intros st name r Hr. exists r. split; [assumption|apply extends_refl].
  - intros st1 st2 st3 H12 H23 name r Hr.
    destruct (H12 _ _ Hr) as (r2 & Hr2 & Hext2).
    destruct (H23 _ _ Hr2) as (r3 & Hr3 & Hext3).
    exists r3. split; [assumption|]. eapply extends_trans; eassumption.
  - intros mc st name r Hr. exists r. split; [assumption|apply extends_refl].
Qed.

Lemma records_extended_blind (st st' : ShellState) :
  database st' = database st -> records_extended st st'.
Proof.
  intros Heq name r Hr. exists r. rewrite Heq.
  split; [assumption|apply extends_refl].
Qed.

Lemma records_extended_redeclared (st : ShellState) (name : string)
  (entry rec : RecordInstance) :
  database st !! name = Some entry ->
  records_extended st
    (set_database (<[name := redeclared entry rec]> (database st)) st).
Proof.
  intros Hentry n r Hr. cbn. destruct (decide (name = n)) as [->|Hne].
  - rewrite lookup_insert_eq. eexists. split; [reflexivity|].
    replace r with entry by congruence. apply extends_redeclared.
  - rewrite lookup_insert_ne by assumption.
    exists r. split; [assumption|apply extends_refl].
Qed.

Lemma keeps_records_call_handler `{Ext : External} (h : Handler)
  (args : list string) :
  keeps records_extended (call_handler h args).
Proof.
  assert (Hblind : forall f : ShellState -> ShellState,
            (forall st, database (f st) = database st) ->
            keeps records_extended (modify f)).
  { intros f Hf. apply keeps_modify. intros st.
    now apply records_extended_blind. }
  revert h. induction args as [|a args IH]; intros h;
  destruct h; cbn [call_handler]; unfold_handlers;
  repeat first
    [ apply IH
    | apply keeps_load_file; intros ? st; now apply records_extended_blind
    | apply keeps_merge_pva_groups_of;
      [ intros; now apply records_extended_blind
      | intros; now apply records_extended_redeclared ]
    | apply keeps_env_set_EPICS_BASE_loop; intros ? st;
      now apply records_extended_blind
    | apply Hblind; intros st; reflexivity
    | intros st st' out [= <- <-]; now apply records_extended_blind
    | apply keeps_modify; intros st name r Hr; cbn;
      now apply merge_records_extends
    | keeps_step ].
Qed.

(** *** The ledgers and the IOC metadata *)

#[global] Instance ledgers_stay_frame : Frame ledgers_stay.
Proof.
  split.
  - now intros st H.
  - intros st1 st2 st3 H12 H23 H. auto.
  - intros mc st H. exact H.
Qed.

Lemma keeps_ledgers_load_file `{Ext : External} (filename : string) :
  keeps ledgers_stay (load_file filename).
Proof.
  intros st st' out. unfold load_file. run_m.
  destruct (_fix_path st filename) as [e|p]; cbn; [now intros [= <- <-]|].
  destruct (read_text_file_with_hash _ _) as [e|[shasum contents]]; cbn;
    intros [= <- <-]; [now intros H|].
  intros Hagree. unfold ledgers_agree in *. cbn. now rewrite Hagree.
Qed.

Lemma keeps_ledgers_env_set_EPICS_BASE_loop `{Ext : External}
  (prefixes : list string) (path : string) :
  keeps ledgers_stay (env_set_EPICS_BASE_loop prefixes path).
Proof.
  induction prefixes as [|prefix rest IH]; cbn [env_set_EPICS_BASE_loop];
    keeps; first [exact IH | apply keeps_modify; intros st H; exact H].
Qed.

Lemma keeps_ledgers_call_handler `{Ext : External} (h : Handler)
  (args : list string) :
  keeps ledgers_stay (call_handler h args).
Proof.
  revert h. induction args as [|a args IH]; intros h;
  destruct h; cbn [call_handler]; unfold_handlers;
  repeat first
    [ apply IH
    | apply keeps_ledgers_load_file
    | apply keeps_merge_pva_groups; intros ? st H; exact H
    | apply keeps_ledgers_env_set_EPICS_BASE_loop
    | intros st st' out [= <- <-] H; exact H
    | keeps_step ].
Qed.

#[global] Instance metadata_settled_frame `{Ext : External} :
  Frame metadata_settled.
Proof.
  split.
  - now intros st.
  - intros st1 st2 st3 (? & ? & ? & ? & ? & H12) (? & ? & ? & ? & ? & H23).
    repeat split; try congruence.
    intros Hne. rewrite H23; [now apply H12|]. rewrite H12; assumption.
  - now intros mc st.
Qed.

Lemma keeps_metadata_load_file `{Ext : External} (filename : string) :
  keeps metadata_settled (load_file filename).
Proof.
  unfold load_file. keeps; apply keeps_modify; intros st; now repeat split.
Qed.

Lemma keeps_metadata_env_set_EPICS_BASE_loop `{Ext : External}
  (prefixes : list string) (path : string) :
  keeps metadata_settled (env_set_EPICS_BASE_loop prefixes path).
Proof.
  induction prefixes as [|prefix rest IH]; cbn [env_set_EPICS_BASE_loop];
    [keeps|].
  destruct (PyStr.startswith path prefix); [|exact IH].
  intros st st' out. run_m.
  destruct (String.eqb_spec (md_base_version (ioc_info st))
              DEFAULT_BASE_VERSION) as [Heq|Hne];
    intros [= <- <-]; [|now repeat split].
  repeat split. cbn. intros Hne. contradiction.
Qed.

Lemma keeps_metadata_call_handler `{Ext : External} (h : Handler)
  (args : list string) :
  keeps metadata_settled (call_handler h args).
Proof.
  assert (Hblind : forall f : ShellState -> ShellState,
            (forall st, ioc_info (f st) = ioc_info st) ->
            keeps metadata_settled (modify f)).
  { intros f Hf. apply keeps_modify. intros st. unfold metadata_settled.
    rewrite Hf. now repeat split. }
  revert h. induction args as [|a args IH]; intros h;
  destruct h; cbn [call_handler]; unfold_handlers;
  repeat first
    [ apply IH
    | apply keeps_metadata_load_file
    | apply keeps_merge_pva_groups; intros ? st; now repeat split
    | apply keeps_metadata_env_set_EPICS_BASE_loop
    | apply Hblind; intros st; reflexivity
    | intros st st' out [= <- <-]; now repeat split
    | keeps_step ].
Qed.

(** *** The working directory *)

#[global] Instance directory_checked_frame `{Ext : External} :
  Frame directory_checked.
Proof.
  split.
  - intros st. now left.
  - intros st1 st2 st3 [H12|H12] [H23|(d & Hd & H23)].
    + left. congruence.
    + right. eauto.
    + right. destruct H12 as (d & Hd & H12). exists d. split; congruence.
    + right. eauto.
  - intros mc st. now left.
Qed.

Lemma keeps_directory_cd `{Ext : External} (args : list string) :
  keeps directory_checked (handle_cd args).
Proof.
  intros st st' out. unfold handle_cd. run_m.
  destruct args as [|path rest]; [intros [= <- <-]; now left|].
  destruct (_fix_path st path) as [e|p]; cbn; [intros [= <- <-]; now left|].
  set (new_dir := if is_absolute p then p else _).
  destruct (path_exists new_dir) eqn:Hexists; cbn; intros [= <- <-];
    [|now left].
  right. exists new_dir. now split.
Qed.

Lemma keeps_directory_call_handler `{Ext : External} (h : Handler)
  (args : list string) :
  keeps directory_checked (call_handler h args).
Proof.
  assert (Hblind : forall f : ShellState -> ShellState,
            (forall st, working_directory (f st) = working_directory st) ->
            keeps directory_checked (modify f)).
  { intros f Hf. apply keeps_modify. intros st. left. apply Hf. }
  revert h. induction args as [|a args IH]; intros h;
  destruct h; cbn [call_handler];
  (apply keeps_directory_cd ||
   (unfold_handlers;
    repeat first
      [ apply IH
      | apply keeps_load_file; intros ? st; now left
      | apply keeps_merge_pva_groups; intros ? st; now left
      | apply keeps_env_set_EPICS_BASE_loop; intros ? st; now left
      | apply Hblind; intros st; reflexivity
      | intros st st' out [= <- <-]; now left
      | keeps_step ])).
Qed.

(** *** The port registries *)

#[global] Instance ports_stay_frame : Frame ports_stay.
Proof.
  split.
  - now intros st H.
  - intros st1 st2 st3 H12 H23 H. auto.
  - intros mc st H. exact H.
Qed.

(** Appending an object without motors to the store. *)
Lemma ports_consistent_new (st : ShellState) (p : AsynPort) :
  port_motors p = ∅ -> ports_consistent st ->
  ports_consistent (set_port_objects (port_objects st ++ [p]) st).
Proof.
  intros Hmotors [Hports Hmot]. split.
  - intros name ref Href. cbn in *.
    destruct (Hports _ _ Href) as (q & Hq & Hname).
    exists q. split; [|assumption]. now apply lookup_app_l_Some.
  - intros ref q m mref Hobj Hm. cbn in *.
    apply lookup_app_Some in Hobj as [Hold|[_ Hnew]].
    + destruct (Hmot _ _ _ _ Hold Hm) as (q' & Hq' & Hrest).
      exists q'. split; [|assumption]. now apply lookup_app_l_Some.
    + apply list_lookup_singleton_Some in Hnew as [_ <-].
      rewrite Hmotors in Hm. discriminate.
Qed.

(** Registering a name for an object of that name. *)
Lemma ports_consistent_register (st : ShellState) (name : string) (ref : nat)
  (p : AsynPort) :
  port_objects st !! ref = Some p -> port_name p = name ->
  ports_consistent st ->
  ports_consistent (set_asyn_ports (<[name := ref]> (asyn_ports st)) st).
Proof.
  intros Hobj Hname [Hports Hmot]. split; [|exact Hmot].
  intros n r Hr. cbn in *. destruct (decide (name = n)) as [->|Hne].
  - rewrite lookup_insert_eq in Hr. injection Hr as <-. eauto.
  - rewrite lookup_insert_ne in Hr by assumption. eauto.
Qed.

(** Replacing an object by one with the same name, class, parent and
    motors. *)
Lemma ports_consistent_update (st : ShellState) (ref : nat)
  (old new : AsynPort) :
  port_objects st !! ref = Some old ->
  port_name new = port_name old -> port_class new = port_class old ->
  port_parent new = port_parent old -> port_motors new = port_motors old ->
  ports_consistent st ->
  ports_consistent (set_port_objects (<[ref := new]> (port_objects st)) st).
Proof.
  intros Hold Hname Hclass Hparent Hmotors [Hports Hmot].
  assert (Halike : forall r q, port_objects st !! r = Some q ->
            exists q', <[ref := new]> (port_objects st) !! r = Some q'
                       /\ port_name q' = port_name q
                       /\ port_class q' = port_class q
                       /\ port_parent q' = port_parent q).
  { intros r q Hq. destruct (decide (ref = r)) as [->|Hne].
    - exists new. rewrite list_lookup_insert_eq by (eapply lookup_lt_Some, Hq).
      replace q with old by congruence. auto.
    - exists q. rewrite list_lookup_insert_ne by assumption. auto. }
  split.
  - intros name r Hr. cbn in *.
    destruct (Hports _ _ Hr) as (q & Hq & Hqname).
    destruct (Halike _ _ Hq) as (q' & Hq' & Hn & _).
    exists q'. split; [assumption|congruence].
  - intros r p m mref Hobj Hm. cbn in *.
    assert (exists p0, port_objects st !! r = Some p0
                       /\ port_motors p0 = port_motors p
                       /\ port_name p0 = port_name p) as (p0 & Hp0 & Hm0 & Hn0).
    { apply list_lookup_insert_Some in Hobj as [(-> & <- & _)|[_ Hobj]];
        [exists old|exists p]; auto. }
    rewrite <- Hm0 in Hm.
    destruct (Hmot _ _ _ _ Hp0 Hm) as (q & Hq & Hqn & Hqc & Hqp).
    destruct (Halike _ _ Hq) as (q' & Hq' & Hn & Hc & Hp).
    exists q'. split; [assumption|]. repeat split; congruence.
Qed.

Lemma keeps_ports_create `{Ext : External} {A} (p : AsynPort) (name : string)
  (k : M A) :
  port_name p = name -> port_motors p = ∅ -> keeps ports_stay k ->
  keeps ports_stay
    (bind (new_object p) (fun ref => bind (register_port name ref) (fun _ => k))).
Proof.
  intros Hname Hmotors Hk st st' out. unfold new_object, register_port. run_m.
  intros Hrun Hst. eapply Hk; [exact Hrun|].
  eapply ports_consistent_register; [| exact Hname |].
  - cbn. apply list_lookup_middle. reflexivity.
  - now apply ports_consistent_new.
Qed.

Lemma keeps_ports_asynSetOption `{Ext : External} (args : list string) :
  keeps ports_stay (handle_asynSetOption args).
Proof.
  intros st st' out Hrun Hst.
  unfold handle_asynSetOption, lookup_port, object_at, update_object in Hrun.
  destruct args as [|name [|addr [|key [|value rest]]]]; run_m;
    try (injection Hrun as <- _; exact Hst).
  destruct (asyn_ports st !! name) as [ref|]; cbn in Hrun;
    [|injection Hrun as <- _; exact Hst].
  destruct (port_objects st !! ref) as [port|] eqn:Hport; cbn in Hrun;
    [|injection Hrun as <- _; exact Hst].
  destruct (port_devices port) as [devices|]; cbn in Hrun.
  - destruct (devices !! addr); cbn in Hrun; injection Hrun as <- _;
      [|exact Hst].
    eapply ports_consistent_update; eauto.
  - injection Hrun as <- _. eapply ports_consistent_update; eauto.
Qed.

Lemma keeps_ports_EthercatMCCreateController `{Ext : External}
  (args : list string) :
  keeps ports_stay (EthercatMCCreateController_body args).
Proof.
  intros st st' out Hrun Hst.
  unfold EthercatMCCreateController_body, lookup_port, new_object, object_at,
    update_object, register_port in Hrun. run_m.
  set (motor_port := default "" (args !! 0)) in *.
  set (asyn_port := default "" (args !! 1)) in *.
  destruct (asyn_ports st !! asyn_port) as [port_ref|] eqn:Hreg;
    cbn in Hrun; [|injection Hrun as <- _; exact Hst].
  set (motor := make_port AsynMotor _ _ _ _ _) in Hrun.
  destruct (proj1 Hst _ _ Hreg) as (port & Hport & Hport_name).
  rewrite (lookup_app_l_Some _ _ _ _ Hport) in Hrun. cbn in Hrun.
  injection Hrun as <- _.
  set (st1 := set_port_objects (port_objects st ++ [motor]) st).
  assert (Hst1 : ports_consistent st1)
    by (now apply ports_consistent_new).
  set (port' := port_with_motors _ port).
  assert (Hmotor : <[port_ref := port']> (port_objects st ++ [motor])
                   !! length (port_objects st) = Some motor).
  { rewrite list_lookup_insert_ne.
    - apply list_lookup_middle. reflexivity.
    - apply lookup_lt_Some in Hport. lia. }
  assert (Halike : forall r q, port_objects st1 !! r = Some q ->
            exists q', <[port_ref := port']> (port_objects st1) !! r = Some q'
                       /\ port_name q' = port_name q
                       /\ port_class q' = port_class q
                       /\ port_parent q' = port_parent q).
  { intros r q Hq. destruct (decide (port_ref = r)) as [<-|Hne].
    - exists port'. rewrite list_lookup_insert_eq by (eapply lookup_lt_Some, Hq).
      replace q with port; [auto|].
      cbn in Hq. rewrite (lookup_app_l_Some _ _ _ _ Hport) in Hq. congruence.
    - exists q. rewrite list_lookup_insert_ne by assumption. auto. }
  destruct Hst1 as [Hports1 Hmot1]. split.
  - intros name r Hr. cbn in *. destruct (decide (motor_port = name)) as [<-|Hne].
    + rewrite lookup_insert_eq in Hr. injection Hr as <-.
      exists motor. split; [exact Hmotor|reflexivity].
    + rewrite lookup_insert_ne in Hr by assumption.
      destruct (Hports1 _ _ Hr) as (q & Hq & Hqn).
      destruct (Halike _ _ Hq) as (q' & Hq' & Hn & _).
      exists q'. split; [exact Hq'|congruence].
  - intros r p m mref Hobj Hm. cbn in Hobj.
    apply list_lookup_insert_Some in Hobj as [(<- & <- & _)|[Hne Hobj]].
    + cbn in Hm. destruct (decide (motor_port = m)) as [<-|Hne].
      * rewrite lookup_insert_eq in Hm. injection Hm as <-.
        exists motor. split; [exact Hmotor|].
        unfold motor, port', make_port. cbn. now rewrite Hport_name.
      * rewrite lookup_insert_ne in Hm by assumption.
        assert (Hport1 : port_objects st1 !! port_ref = Some port)
          by (cbn; now apply lookup_app_l_Some).
        destruct (Hmot1 _ _ _ _ Hport1 Hm) as (q & Hq & Hqn & Hqc & Hqp).
        destruct (Halike _ _ Hq) as (q' & Hq' & Hn & Hc & Hp).
        exists q'. split; [exact Hq'|]. unfold port'. cbn.
        repeat split; congruence.
    + destruct (Hmot1 _ _ _ _ Hobj Hm) as (q & Hq & Hqn & Hqc & Hqp).
      destruct (Halike _ _ Hq) as (q' & Hq' & Hn & Hc & Hp).
      exists q'. split; [exact Hq'|]. repeat split; congruence.
Qed.

Ltac unfold_plain_handlers :=
  unfold handle_NDPvaConfigure, handle_EthercatMCCreateController,
    handle_adsAsynPortDriverConfigure, handle_chdir,
    handle_cd, handle_dbLoadDatabase, handle_dbLoadRecords, handle_dbl,
    handle_drvAsynIPPortConfigure, handle_drvAsynMotorConfigure,
    handle_drvAsynSerialPortConfigure, handle_epicsEnvSet,
    handle_epicsEnvShow, handle_iocInit, handle_iocshCmd,
    handle_iocshRegisterVariable, _motor_wrapper, _generic_motor_handler,
    adsAsynPortDriverConfigure_body, drvAsynMotorConfigure_body,
    env_set_EPICS_BASE, merge_records, unhandled.

Lemma keeps_ports_call_handler `{Ext : External} (h : Handler)
  (args : list string) :
  keeps ports_stay (call_handler h args).
Proof.
  revert h. induction args as [|a args IH]; intros h;
  destruct h; cbn [call_handler]; unfold_plain_handlers;
  repeat first
    [ apply IH
    | apply keeps_load_file; intros ? st H; exact H
    | apply keeps_ports_create; [reflexivity|reflexivity|]
    | apply keeps_ports_asynSetOption
    | apply keeps_ports_EthercatMCCreateController
    | apply keeps_merge_pva_groups; intros ? st H; exact H
    | apply keeps_env_set_EPICS_BASE_loop; intros ? st H; exact H
    | keeps_step ].
Qed.

Lemma new_ShellState_ports_consistent `{Ext : External} (wd : Path)
  (mc : MacroContext) (md : IocMetadata) :
  ports_consistent (new_ShellState wd mc md).
Proof.
  split.
  - intros name ref Href. cbn in Href. now rewrite lookup_empty in Href.
  - intros ref p m mref Hobj. discriminate.
Qed.

(** The run of a script in the concrete world, taken apart: the goal
    [exists st' ys ex, run = Some (st', ys, ex) /\ _] is left with the
    second part to prove from the equation [Hrun]. *)
Ltac with_run :=
  match goal with
  | |- exists st' ys ex, ?run = Some (st', ys, ex) /\ _ =>
      let st' := fresh "st'" in
      let ys := fresh "ys" in
      let ex := fresh "ex" in
      let Hsome := fresh "Hsome" in
      assert (Hsome : match run with Some _ => true | None => false end = true)
        by (vm_compute; reflexivity);
      destruct run as [[[st' ys] ex]|] eqn:Hrun; [|discriminate Hsome];
      clear Hsome; exists st', ys, ex; split; [reflexivity|]
  end.

(** A fact about the end state of a run, from its evaluation. *)
Ltac from_run H := cbn in H; injection H as H; exact H.

(** X1. Whatever script is interpreted, and however the run ends, the
    prompt, the string encoding, the stand-in directories and the table of
    command handlers are afterwards what they were before: no command
    reconfigures the shell. *)
Theorem script_keeps_configuration `{Ext : External} (fuel : nat)
  (lines : list string) (name : string) (recurse raise_on_error : bool)
  (st st' : ShellState) (ys : list IocshResult) (ex : option Exc) :
  interpret_shell_script fuel lines name recurse raise_on_error st
  = Some (st', ys, ex) ->
  same_configuration st st'.
Proof.
  apply (interpret_shell_script_keeps (R := same_configuration)).
  - now intros stack s.
  - now intros n s.
  - apply keeps_configuration_call_handler.
  - intros filename. apply keeps_load_file; now intros ? s.
Qed.

Lemma script_keeps_configuration_witness :
  exists st' ys ex,
    interpret_shell_script (Ext := World.world) 1 World.boot "/ioc/st.cmd"
      true false World.fresh = Some (st', ys, ex)
    /\ same_configuration World.fresh st'.
Proof.
  with_run.
  exact (script_keeps_configuration (Ext := World.world) _ _ _ _ _ _ _ _ _ Hrun).
Defined.

(** X2. The life cycle only advances: across the interpretation of any
    script, an IOC that was initialized stays initialized, and a schema
    that was attached stays attached and is the same one (a later
    [dbLoadDatabase] never replaces it). *)
Theorem script_lifecycle_advances `{Ext : External} (fuel : nat)
  (lines : list string) (name : string) (recurse raise_on_error : bool)
  (st st' : ShellState) (ys : list IocshResult) (ex : option Exc) :
  interpret_shell_script fuel lines name recurse raise_on_error st
  = Some (st', ys, ex) ->
  lifecycle_advances st st'.
Proof.
  apply (interpret_shell_script_keeps (R := lifecycle_advances)).
  - now intros stack s.
  - now intros n s.
  - apply keeps_lifecycle_call_handler.
  - intros filename. apply keeps_load_file; now intros ? s.
Qed.

Lemma script_lifecycle_advances_witness :
  exists st' ys ex,
    interpret_shell_script (Ext := World.world) 1 World.boot "/ioc/st.cmd"
      true false World.initialized = Some (st', ys, ex)
    /\ ioc_initialized st' = true
    /\ database_definition st' = database_definition World.with_schema.
Proof.
  with_run.
  destruct (script_lifecycle_advances (Ext := World.world) _ _ _ _ _ _ _ _ _ Hrun)
    as [Hinit Hdbd].
  split; [apply Hinit; reflexivity|].
  rewrite (Hdbd (mkDatabase ∅ [] [])); reflexivity.
Defined.

(** X3. Nothing is ever unregistered: across the interpretation of any
    script, every shell variable, classic record, PVA group, port name and
    loaded-file entry that the state held is still a key of its mapping
    afterwards. *)
Theorem script_registries_grow `{Ext : External} (fuel : nat)
  (lines : list string) (name : string) (recurse raise_on_error : bool)
  (st st' : ShellState) (ys : list IocshResult) (ex : option Exc) :
  interpret_shell_script fuel lines name recurse raise_on_error st
  = Some (st', ys, ex) ->
  registries_grow st st'.
Proof.
  apply (interpret_shell_script_keeps (R := registries_grow)).
  - intros stack s. grow.
  - intros n s. grow.
  - apply keeps_grow_call_handler.
  - apply keeps_grow_load_file.
Qed.

Lemma script_registries_grow_witness :
  exists st' ys ex,
    interpret_shell_script (Ext := World.world) 1
      ["drvAsynSerialPortConfigure L1 /dev/ttyS1"; "NDPvaConfigure"]
      "/ioc/more.cmd" true false World.with_motor = Some (st', ys, ex)
    /\ is_Some (asyn_ports st' !! "M1")
    /\ is_Some (database st' !! "test:rbv")
    /\ is_Some (pva_database st' !! "test:grp").
Proof.
  with_run.
  destruct (script_registries_grow (Ext := World.world) _ _ _ _ _ _ _ _ _ Hrun)
    as (_ & Hdb & Hpva & Hports & _).
  split; [apply Hports|split; [apply Hdb|apply Hpva]];
    eexists; vm_compute; reflexivity.
Defined.

(** X4. A stored classic record is only ever extended: across the
    interpretation of any script, a record of [database] is still there
    under its name, with the same name, record type, PVA flag and
    metadata, with its earlier provenance as a prefix of the new one, and
    with every field it had (the values may have been overwritten). *)
Theorem script_records_extended `{Ext : External} (fuel : nat)
  (lines : list string) (name : string) (recurse raise_on_error : bool)
  (st st' : ShellState) (ys : list IocshResult) (ex : option Exc) :
  interpret_shell_script fuel lines name recurse raise_on_error st
  = Some (st', ys, ex) ->
  records_extended st st'.
Proof.
  apply (interpret_shell_script_keeps (R := records_extended)).
  - intros stack s. now apply records_extended_blind.
  - intros n s. now apply records_extended_blind.
  - apply keeps_records_call_handler.
  - intros filename. apply keeps_load_file;
      intros ? s; now apply records_extended_blind.
Qed.

Lemma script_records_extended_witness :
  exists st' ys ex,
    interpret_shell_script (Ext := World.world) 1
      ["dbLoadRecords recs.db P=test:"] "/ioc/again.cmd" true false
      World.loaded_once = Some (st', ys, ex)
    /\ exists r', database st' !! "test:rbv" = Some r'
                  /\ extends World.rbv r'.
Proof.
  with_run.
  apply (script_records_extended (Ext := World.world) _ _ _ _ _ _ _ _ _ Hrun).
  vm_compute. reflexivity.
Defined.

(** X5. The two ledgers of loaded files stay in step: if the mapping
    [loaded_files] of the state and the one of its IOC metadata hold the
    same entries before a script is interpreted, they hold the same
    entries afterwards. *)
Theorem script_ledgers_agree `{Ext : External} (fuel : nat)
  (lines : list string) (name : string) (recurse raise_on_error : bool)
  (st st' : ShellState) (ys : list IocshResult) (ex : option Exc) :
  interpret_shell_script fuel lines name recurse raise_on_error st
  = Some (st', ys, ex) ->
  ledgers_agree st -> ledgers_agree st'.
Proof.
  apply (interpret_shell_script_keeps (R := ledgers_stay)).
  - intros stack s H. exact H.
  - intros n s H. exact H.
  - apply keeps_ledgers_call_handler.
  - apply keeps_ledgers_load_file.
Qed.

Lemma script_ledgers_agree_witness :
  exists st' ys ex,
    interpret_shell_script (Ext := World.world) 1 World.boot "/ioc/st.cmd"
      true false World.fresh = Some (st', ys, ex)
    /\ ledgers_agree st'
    /\ loaded_files st' !! "/ioc/recs.db" = Some "sha-db".
Proof.
  assert (Hentry :
    ((fun s => loaded_files s !! "/ioc/recs.db")
       <$> run_state (interpret_shell_script (Ext := World.world) 1
                        World.boot "/ioc/st.cmd" true false World.fresh))
    = Some (Some "sha-db")) by (vm_compute; reflexivity).
  with_run. split.
  - apply (script_ledgers_agree (Ext := World.world) _ _ _ _ _ _ _ _ _ Hrun).
    reflexivity.
  - from_run Hentry.
Defined.

(** X6. A script leaves the name, the script path, the start-up
    directory, the macros and the stand-in directories of the IOC
    metadata as they are; and it writes the base version only while it
    is the default one: once it differs from
    [settings.DEFAULT_BASE_VERSION], no command changes it again. *)
Theorem script_metadata_settled `{Ext : External} (fuel : nat)
  (lines : list string) (name : string) (recurse raise_on_error : bool)
  (st st' : ShellState) (ys : list IocshResult) (ex : option Exc) :
  interpret_shell_script fuel lines name recurse raise_on_error st
  = Some (st', ys, ex) ->
  metadata_settled st st'.
Proof.
  apply (interpret_shell_script_keeps (R := metadata_settled)).
  - now intros stack s.
  - now intros n s.
  - apply keeps_metadata_call_handler.
  - apply keeps_metadata_load_file.
Qed.

Lemma script_metadata_settled_witness :
  exists st' ys ex,
    interpret_shell_script (Ext := World.world) 1
      ["epicsEnvSet EPICS_BASE /reg/g/pcds/epics/base/R7.0.2-2.0/";
       "epicsEnvSet EPICS_BASE /reg/g/pcds/epics/base/R3.14.12/"]
      "/ioc/st.cmd" true false World.fresh = Some (st', ys, ex)
    /\ metadata_settled (Ext := World.world) World.fresh st'
    /\ md_base_version (ioc_info st') = "7.0.2-2.0".
Proof.
  assert (Hversion :
    ((fun s => md_base_version (ioc_info s))
       <$> run_state (interpret_shell_script (Ext := World.world) 1
             ["epicsEnvSet EPICS_BASE /reg/g/pcds/epics/base/R7.0.2-2.0/";
              "epicsEnvSet EPICS_BASE /reg/g/pcds/epics/base/R3.14.12/"]
             "/ioc/st.cmd" true false World.fresh))
    = Some "7.0.2-2.0") by (vm_compute; reflexivity).
  with_run. split.
  - exact (script_metadata_settled (Ext := World.world) _ _ _ _ _ _ _ _ _ Hrun).
  - from_run Hversion.
Defined.

(** X7. The working directory after the interpretation of any script is
    the one before it, or the resolution of a directory that
    [Path.exists] confirmed: a failed [cd] does not move the shell, and no
    other command moves it. *)
Theorem script_directory_checked `{Ext : External} (fuel : nat)
  (lines : list string) (name : string) (recurse raise_on_error : bool)
  (st st' : ShellState) (ys : list IocshResult) (ex : option Exc) :
  interpret_shell_script fuel lines name recurse raise_on_error st
  = Some (st', ys, ex) ->
  directory_checked st st'.
Proof.
  apply (interpret_shell_script_keeps (R := directory_checked)).
  - intros stack s. now left.
  - intros n s. now left.
  - apply keeps_directory_call_handler.
  - intros filename. apply keeps_load_file; intros ? s; now left.
Qed.

Lemma script_directory_checked_witness :
  exists st' ys ex,
    interpret_shell_script (Ext := World.world) 1
      ["cd sub"; "cd /nowhere"; "chdir missing"] "/ioc/st.cmd" true false
      World.fresh = Some (st', ys, ex)
    /\ directory_checked (Ext := World.world) World.fresh st'
    /\ working_directory st' = mkPath "/ioc/sub".
Proof.
  assert (Hdir :
    (working_directory
       <$> run_state (interpret_shell_script (Ext := World.world) 1
             ["cd sub"; "cd /nowhere"; "chdir missing"] "/ioc/st.cmd" true
             false World.fresh))
    = Some (mkPath "/ioc/sub")) by (vm_compute; reflexivity).
  with_run. split.
  - exact (script_directory_checked (Ext := World.world) _ _ _ _ _ _ _ _ _ Hrun).
  - from_run Hdir.
Defined.

(** X8. The two registries of port objects stay consistent across the
    interpretation of any script: every name of [asyn_ports] leads to a
    port object whose [name] is that name, and every name in the [motors]
    of a port leads to an [AsynMotor] object of that name whose [parent]
    is the name of the port.  A freshly constructed state is consistent,
    so every state the interpreter builds from one is. *)
Theorem script_ports_consistent `{Ext : External} (fuel : nat)
  (lines : list string) (name : string) (recurse raise_on_error : bool)
  (st st' : ShellState) (ys : list IocshResult) (ex : option Exc) :
  interpret_shell_script fuel lines name recurse raise_on_error st
  = Some (st', ys, ex) ->
  ports_consistent st -> ports_consistent st'.
Proof.
  apply (interpret_shell_script_keeps (R := ports_stay)).
  - intros stack s H. exact H.
  - intros n s H. exact H.
  - apply keeps_ports_call_handler.
  - intros filename. apply keeps_load_file; intros ? s H; exact H.
Qed.

Lemma script_ports_consistent_witness :
  exists st' ys ex,
    interpret_shell_script (Ext := World.world) 1 World.boot "/ioc/st.cmd"
      true false World.fresh = Some (st', ys, ex)
    /\ ports_consistent st'
    /\ (port_parent <$> port_named st' "M1") = Some (Some "L0").
Proof.
  assert (Hparent :
    ((fun s => port_parent <$> port_named s "M1")
       <$> run_state (interpret_shell_script (Ext := World.world) 1
                        World.boot "/ioc/st.cmd" true false World.fresh))
    = Some (Some (Some "L0"))) by (vm_compute; reflexivity).
  with_run. split.
  - apply (script_ports_consistent (Ext := World.world) _ _ _ _ _ _ _ _ _ Hrun).
    apply (new_ShellState_ports_consistent (Ext := World.world)).
  - from_run Hparent.
Defined.

(** ** Loading records: the handler as a whole *)

Lemma merge_records_fresh `{Ext : External} (context : FullLoadContext)
  (items : list (string * RecordInstance)) (db : gmap string RecordInstance)
  (name : string) (rec : RecordInstance) :
  NoDup items.*1 -> (name, rec) ∈ items -> db !! name = None ->
  foldl (merge_record context) db items !! name
  = Some (ri_with_context (context ++ ri_context rec) rec).
Proof.
  revert db. induction items as [|[n r] rest IH]; intros db Hnodup Hin Hnone.
  { inversion Hin. }
  cbn in Hnodup. apply NoDup_cons in Hnodup as [Hfresh Hnodup].
  apply elem_of_cons in Hin as [Hhead|Hrest]; cbn [foldl].
  - injection Hhead as <- <-.
    rewrite merge_records_other by assumption.
    unfold merge_record. rewrite Hnone. apply lookup_insert_eq.
  - assert (n <> name) as Hne.
    { intros ->. apply Hfresh. apply list_elem_of_fmap. now exists (name, rec). }
    apply IH; [assumption..|].
    rewrite (merge_record_other context db (n, r) name) by assumption.
    exact Hnone.
Qed.

(** The loop over PVA groups none of which is stored yet: every group is
    stored with the load context put in front of its provenance, and
    nothing else changes. *)
Lemma merge_pva_groups_fresh `{Ext : External} (context : FullLoadContext)
  (items : list (string * RecordInstance)) :
  forall st : ShellState,
    NoDup items.*1 ->
    (forall name, name ∈ items.*1 -> pva_database st !! name = None) ->
    exists pva,
      merge_pva_groups context items st = (set_pva_database pva st, Return tt)
      /\ (forall name rec, (name, rec) ∈ items ->
            pva !! name
            = Some (ri_with_context (context ++ ri_context rec) rec))
      /\ (forall name, name ∉ items.*1 -> pva !! name = pva_database st !! name).
Proof.
  induction items as [|[n r] rest IH]; intros st Hnodup Hfresh.
  { exists (pva_database st). split; [now destruct st|].
    split; [intros name rec Hin; inversion Hin|reflexivity]. }
  cbn in Hnodup. apply NoDup_cons in Hnodup as [Hn Hnodup].
  cbn [merge_pva_groups]. unfold merge_pva_group at 1. run_m.
  rewrite (Hfresh n) by (cbn; apply elem_of_cons; now left).
  cbn.
  set (st1 := set_pva_database _ st).
  destruct (IH st1 Hnodup) as (pva & Hrun & Hin & Hout).
  { intros name Hname. cbn. rewrite lookup_insert_ne.
    - apply Hfresh. cbn. apply elem_of_cons. now right.
    - intros ->. contradiction. }
  exists pva. split; [exact Hrun|]. split.
  - intros name rec Hmem. apply elem_of_cons in Hmem as [[= -> ->]|Hmem].
    + rewrite Hout by assumption. cbn. apply lookup_insert_eq.
    + now apply Hin.
  - intros name Hname. cbn in Hname.
    apply not_elem_of_cons in Hname as [Hne Hname].
    rewrite Hout by assumption. cbn. now rewrite lookup_insert_ne.
Qed.

(** What [load_file] does when the path is fixed to [p] and the file
    reads. *)
Lemma load_file_reads `{Ext : External} (st : ShellState) (filename : string)
  (p : Path) (shasum contents : string) :
  _fix_path st filename = inr p ->
  read_text_file_with_hash (path_resolve p) (string_encoding st)
  = inr (shasum, contents) ->
  load_file filename st
  = (set_ioc_info
       (md_with_loaded_files
          (<[path_str (path_resolve p) := shasum]>
             (md_loaded_files (ioc_info st))) (ioc_info st))
       (set_loaded_files
          (<[path_str (path_resolve p) := shasum]> (loaded_files st)) st),
     Return (path_resolve p, contents)).
Proof.
  intros Hfix Hread. unfold load_file. run_m. rewrite Hfix. cbn.
  rewrite Hread. reflexivity.
Qed.

(** X9. [dbLoadRecords] of a file that parses, declaring PVA groups that
    are all new: the command returns; every classic record of the file is
    then stored under its name, a new one with the current load context in
    front of its provenance, a re-declared one as the stored record with
    the fields of the new declaration merged over its own and the new
    provenance appended; records the file does not name are untouched;
    the groups are stored; the file is entered in the ledger under its
    resolved path; and the macro scope entered for the load is left. *)
Theorem handle_dbLoadRecords_merges `{Ext : External} (st : ShellState)
  (filename macros : string) (rest : list string) (dbd db : Database)
  (p : Path) (shasum contents : string) (ms : gmap string string) :
  database_definition st = Some dbd ->
  ioc_initialized st = false ->
  _fix_path st filename = inr p ->
  read_text_file_with_hash (path_resolve p) (string_encoding st)
  = inr (shasum, contents) ->
  definitions_to_dict (macro_context st) macros = inr ms ->
  Database_from_file (path_resolve p) dbd
    (macro_scoped_enter (macro_context st) ms)
    (database_version_spec (entered (path_resolve p) shasum (ioc_info st)))
  = inr db ->
  NoDup (records db).*1 -> NoDup (pva_groups db).*1 ->
  (forall name, name ∈ (pva_groups db).*1 -> pva_database st !! name = None) ->
  exists st' r,
    handle_dbLoadRecords (filename :: macros :: rest) st = (st', Return r)
    /\ (forall name rec, (name, rec) ∈ records db ->
          database st' !! name
          = Some match database st !! name with
                 | None =>
                     ri_with_context (get_load_context st ++ ri_context rec) rec
                 | Some entry => redeclared entry rec
                 end)
    /\ (forall name, name ∉ (records db).*1 ->
          database st' !! name = database st !! name)
    /\ (forall name rec, (name, rec) ∈ pva_groups db ->
          pva_database st' !! name
          = Some (ri_with_context (get_load_context st ++ ri_context rec) rec))
    /\ (forall name, name ∉ (pva_groups db).*1 ->
          pva_database st' !! name = pva_database st !! name)
    /\ loaded_files st'
       = <[path_str (path_resolve p) := shasum]> (loaded_files st)
    /\ macro_context st'
       = macro_scoped_exit (macro_scoped_enter (macro_context st) ms).
Proof.
  intros Hdbd Hinit Hfix Hread Hdict Hparse Hrecords Hgroups Hfresh.
  unfold entered in Hparse.
  pose proof (load_file_reads st filename p shasum contents Hfix Hread)
    as Hload.
  unfold handle_dbLoadRecords, try_except, with_scoped, merge_records. run_m.
  rewrite Hdbd, Hinit, Hload. cbn. rewrite Hdict. cbn. rewrite Hparse. cbn.
  match goal with
  | |- context [merge_pva_groups ?c ?items ?s] =>
      destruct (merge_pva_groups_fresh c items s Hgroups)
        as (pva & Hrun & Hin & Hout); [exact Hfresh|]
  end.
  rewrite Hrun. cbn.
  eexists _, _. split; [reflexivity|]. cbn.
  split; [|split; [|split; [|split; [|split]]]]; try reflexivity.
  - intros name rec Hmem.
    destruct (database st !! name) as [entry|] eqn:Hentry.
    + now apply merge_records_redeclared.
    + now apply merge_records_fresh.
  - intros name Hname. now apply merge_records_other.
  - exact Hin.
  - exact Hout.
Qed.

Lemma handle_dbLoadRecords_merges_witness :
  let st := set_database {["test:rbv" := World.rbv_other]} World.with_schema in
  exists st' r,
    handle_dbLoadRecords (Ext := World.world) ["recs.db"; "P=test:"] st
    = (st', Return r)
    /\ database st' !! "test:rbv"
       = Some (redeclared World.rbv_other World.rbv)
    /\ pva_database st' !! "test:grp" = Some World.grp
    /\ loaded_files st' !! "/ioc/recs.db" = Some "sha-db".
Proof.
  intros st.
  destruct (handle_dbLoadRecords_merges (Ext := World.world) st
              "recs.db" "P=test:" [] (mkDatabase ∅ [] [])
              (mkDatabase ∅ [("test:rbv", World.rbv)] [("test:grp", World.grp)])
              (mkPath "/ioc/recs.db") "sha-db" "" ∅)
    as (st' & r & Hrun & Hrec & _ & Hgrp & _ & Hfiles & _);
    try reflexivity; try (cbn; apply NoDup_singleton).
  exists st', r. split; [exact Hrun|]. split; [|split].
  - rewrite (Hrec "test:rbv" World.rbv) by (apply list_elem_of_singleton; reflexivity).
    reflexivity.
  - rewrite (Hgrp "test:grp" World.grp) by (apply list_elem_of_singleton; reflexivity).
    reflexivity.
  - rewrite Hfiles. apply lookup_insert_eq.
Defined.

(** A failed [load_file] leaves the state as it was. *)
Lemma load_file_raises `{Ext : External} (st st' : ShellState)
  (filename : string) (e : Exc) :
  load_file filename st = (st', Raise e) -> st' = st.
Proof.
  unfold load_file. run_m.
  destruct (_fix_path st filename) as [e1|p]; cbn; [now intros [= <- _]|].
  destruct (read_text_file_with_hash _ _) as [e1|[shasum contents]]; cbn;
    [now intros [= <- _]|discriminate].
Qed.

(** X10. The failures of [dbLoadRecords] once the schema is attached and
    the IOC is not initialized.  When the file cannot be read, the
    exception of [load_file] is raised and the state is unchanged.  When
    the file reads but does not parse, the exception is wrapped in
    [DatabaseLoadFailure] with the resolved file name, the exception class
    and its message; neither database has changed, but the file is in the
    ledger of loaded files all the same, and the macro scope entered for
    the load has been left. *)
Theorem handle_dbLoadRecords_failure `{Ext : External} (st : ShellState)
  (filename macros : string) (rest : list string) (dbd : Database) :
  database_definition st = Some dbd ->
  ioc_initialized st = false ->
  (forall st1 e, load_file filename st = (st1, Raise e) ->
     handle_dbLoadRecords (filename :: macros :: rest) st = (st, Raise e))
  /\ (forall p shasum contents ms ex,
        _fix_path st filename = inr p ->
        read_text_file_with_hash (path_resolve p) (string_encoding st)
        = inr (shasum, contents) ->
        definitions_to_dict (macro_context st) macros = inr ms ->
        Database_from_file (path_resolve p) dbd
          (macro_scoped_enter (macro_context st) ms)
          (database_version_spec
             (entered (path_resolve p) shasum (ioc_info st))) = inl ex ->
        exists st',
          handle_dbLoadRecords (filename :: macros :: rest) st
          = (st', Raise (DatabaseLoadFailure (path_resolve p) ex))
          /\ database st' = database st
          /\ pva_database st' = pva_database st
          /\ loaded_files st' !! path_str (path_resolve p) = Some shasum
          /\ macro_context st'
             = macro_scoped_exit (macro_scoped_enter (macro_context st) ms)).
Proof.
  intros Hdbd Hinit. split.
  - intros st1 e Hload. pose proof (load_file_raises _ _ _ _ Hload) as ->.
    unfold handle_dbLoadRecords. run_m. now rewrite Hdbd, Hinit, Hload.
  - intros p shasum contents ms ex Hfix Hread Hdict Hparse.
    unfold entered in Hparse.
    pose proof (load_file_reads st filename p shasum contents Hfix Hread)
      as Hload.
    unfold handle_dbLoadRecords, try_except, with_scoped, merge_records. run_m.
    rewrite Hdbd, Hinit, Hload. cbn. rewrite Hdict. cbn. rewrite Hparse. cbn.
    eexists. split; [reflexivity|]. cbn.
    repeat split. apply lookup_insert_eq.
Qed.

Lemma handle_dbLoadRecords_failure_witness :
  handle_dbLoadRecords (Ext := World.world) ["none.db"; ""] World.with_schema
  = (World.with_schema, Raise (World.FileNotFoundError (mkPath "/ioc/none.db")))
  /\ exists st',
       handle_dbLoadRecords (Ext := World.world) ["base.dbd"; ""]
         World.with_schema
       = (st', Raise (mkExc "DatabaseLoadFailure"
                        "Failed to load /ioc/base.dbd: FileNotFoundError /ioc/base.dbd"))
       /\ database st' = database World.with_schema
       /\ loaded_files st' !! "/ioc/base.dbd" = Some "sha-dbd".
Proof.
  destruct (handle_dbLoadRecords_failure (Ext := World.world) World.with_schema
              "none.db" "" [] (mkDatabase ∅ [] []))
    as [Hunread _]; try reflexivity.
  destruct (handle_dbLoadRecords_failure (Ext := World.world) World.with_schema
              "base.dbd" "" [] (mkDatabase ∅ [] []))
    as [_ Hparse]; try reflexivity.
  split.
  - apply (Hunread World.with_schema). vm_compute. reflexivity.
  - destruct (Hparse (mkPath "/ioc/base.dbd") "sha-dbd" "" ∅
                (World.FileNotFoundError (mkPath "/ioc/base.dbd")))
      as (st' & Hrun & Hdb & _ & Hfiles & _); try reflexivity.
    exists st'. split; [exact Hrun|]. split; assumption.
Defined.

(** ** Environment variables and the base version *)

Section SearchFacts.
Import PyStr.

Lemma break_on_found_skip (c : ascii) (sep pre l : list ascii) :
  forallb (fun x => negb (Ascii.eqb x c)) pre = true ->
  (break_on (c :: sep) (pre ++ l)).2 = (break_on (c :: sep) l).2.
Proof.
  induction pre as [|x pre IH]; [reflexivity|]. cbn [forallb app].
  intros Hpre. apply andb_prop in Hpre as [Hx Hpre].
  apply negb_true_iff in Hx. cbn [break_on startswith_l].
  rewrite Ascii.eqb_sym, Hx. cbn.
  specialize (IH Hpre). destruct (break_on (c :: sep) (pre ++ l)). cbn in *.
  exact IH.
Qed.

(** A text in which a one-character separator is not found does not hold
    that character. *)
Lemma break_on_absent (c : ascii) (l : list ascii) :
  (break_on [c] l).2 = None ->
  forallb (fun x => negb (Ascii.eqb x c)) l = true.
Proof.
  induction l as [|x l IH]; [reflexivity|]. cbn [break_on startswith_l forallb].
  rewrite (Ascii.eqb_sym x c).
  destruct (Ascii.eqb c x); cbn; [discriminate|].
  destruct (break_on [c] l). cbn in *. exact IH.
Qed.

Lemma forallb_replicate (p : ascii -> bool) (n : nat) (c : ascii) :
  p c = true -> forallb p (replicate n c) = true.
Proof. intros Hc. induction n as [|n IH]; cbn; [reflexivity|]. now rewrite Hc. Qed.

Lemma startswith_prefix (a b : string) : startswith (a +:+ b) a = true.
Proof. unfold startswith. rewrite chars_app. apply startswith_l_app. Qed.

Lemma slice_from_prefix (a b : string) : slice_from (len a) (a +:+ b) = b.
Proof.
  unfold slice_from, len. rewrite chars_app, drop_app_length. apply str_chars.
Qed.

(** The release directory of a path below a prefix: what stands before
    the first [/], or all of it. *)
Lemma release_directory (release tail : string) :
  contains release "/" = false ->
  tail = "" \/ startswith tail "/" = true ->
  (if contains (release +:+ tail) "/"
   then default "" (head (split (release +:+ tail) "/"))
   else release +:+ tail) = release.
Proof.
  unfold contains, split, split_l, startswith. intros Hrelease Htail.
  assert (Hnone : (break_on (chars "/") (chars release)).2 = None)
    by (destruct (break_on _ _).2; [discriminate|reflexivity]).
  pose proof (break_on_absent _ _ Hnone) as Hall.
  rewrite head_map, split_go_head, chars_app.
  change (chars "/") with ["/"%char] in *.
  rewrite break_on_found_skip, break_on_skip by assumption.
  destruct Htail as [->|Htail].
  - cbn. rewrite <- (str_chars (release +:+ "")), chars_app.
    change (chars "") with (@nil ascii). now rewrite app_nil_r, str_chars.
  - destruct (chars tail) as [|x l]; [discriminate|].
    cbn [startswith_l] in Htail. rewrite andb_true_r in Htail.
    apply Ascii.eqb_eq in Htail as <-.
    cbn [break_on startswith_l]. rewrite Ascii.eqb_refl. cbn.
    now rewrite app_nil_r, str_chars.
Qed.

(** [lstrip("R")] of a run of [R] followed by a text that does not start
    with [R]. *)
Lemma lstrip_release (rs version : string) (n : nat) :
  chars rs = replicate n "R"%char ->
  startswith version "R" = false ->
  lstrip_chars "R" (rs +:+ version) = version.
Proof.
  unfold lstrip_chars, lstrip_by, startswith. intros Hrs Hversion.
  rewrite chars_app, Hrs, dropwhile_all by (now apply forallb_replicate).
  destruct (chars version) as [|x l] eqn:Hchars.
  - cbn [dropwhile]. rewrite <- Hchars. apply str_chars.
  - rewrite dropwhile_stop; [rewrite <- Hchars; apply str_chars|].
    change (chars "R") with ["R"%char] in *. unfold mem.
    cbn [startswith_l existsb] in *.
    rewrite andb_true_r in Hversion. rewrite orb_false_r.
    now rewrite Ascii.eqb_sym.
Qed.

End SearchFacts.

(** The hook of [EPICS_BASE] on a path below one of the two prefixes. *)
Lemma env_set_EPICS_BASE_below `{Ext : External} (st : ShellState)
  (value prefix rs version tail : string) (n : nat) :
  version_prefix prefix ->
  path_str (path_resolve (pathlib_Path value))
  = prefix +:+ (rs +:+ version) +:+ tail ->
  PyStr.chars rs = replicate n "R"%char ->
  PyStr.startswith version "R" = false ->
  PyStr.contains (rs +:+ version) "/" = false ->
  tail = "" \/ PyStr.startswith tail "/" = true ->
  env_set_EPICS_BASE value st
  = if String.eqb (md_base_version (ioc_info st)) DEFAULT_BASE_VERSION
    then (set_ioc_info (md_with_base_version version (ioc_info st)) st,
          Return (Some ("Set base version: " +:+ version)))
    else (st,
          Return (Some ("Found version (" +:+ version
                        +:+ ") but version already specified: "
                        +:+ md_base_version (ioc_info st)))).
Proof.
  intros Hprefix Hpath Hrs Hversion Hslash Htail.
  unfold env_set_EPICS_BASE. rewrite Hpath.
  assert (Hloop : forall p,
    (if PyStr.contains (PyStr.slice_from (PyStr.len p)
                          (p +:+ (rs +:+ version) +:+ tail)) "/"
     then default "" (head (PyStr.split
                              (PyStr.slice_from (PyStr.len p)
                                 (p +:+ (rs +:+ version) +:+ tail)) "/"))
     else PyStr.slice_from (PyStr.len p) (p +:+ (rs +:+ version) +:+ tail))
    = rs +:+ version).
  { intros p. rewrite slice_from_prefix. now apply release_directory. }
  destruct Hprefix as [-> | ->]; cbn [env_set_EPICS_BASE_loop].
  - rewrite startswith_prefix, Hloop, (lstrip_release rs version n) by assumption.
    run_m. now destruct (String.eqb _ _).
  - replace (PyStr.startswith
               ("/cds/group/pcds/epics/base/" +:+ (rs +:+ version) +:+ tail)
               "/reg/g/pcds/epics/base/") with false by reflexivity.
    rewrite startswith_prefix, Hloop, (lstrip_release rs version n) by assumption.
    run_m. now destruct (String.eqb _ _).
Qed.

(** X11. [epicsEnvSet variable value] defines the macro and returns the
    triple of variable, value and hook result.  For a variable other than
    [EPICS_BASE] there is no hook: the hook result is the empty string and
    nothing but the macro context changes.  For [EPICS_BASE] whose
    resolved value is one of the two base directories followed by a
    release directory (a run of [R], then the version) and possibly more
    path, the version is the release directory without the leading [R]s;
    it becomes the base version of the IOC if that is still the default
    one, and is only reported otherwise.  A value below neither directory
    gives the hook result [None], and the base version is left alone. *)
Theorem handle_epicsEnvSet_spec `{Ext : External} (st : ShellState)
  (variable value : string) (rest : list string) :
  let st1 :=
    set_macro_context
      (macro_define (macro_context st) {[variable := value]}) st in
  let path := path_str (path_resolve (pathlib_Path value)) in
  (variable <> "EPICS_BASE" ->
   handle_epicsEnvSet (variable :: value :: rest) st
   = (st1, Return (ResEnvSet variable value (Some ""))))
  /\ (variable = "EPICS_BASE" ->
      forall prefix rs version tail n,
        version_prefix prefix ->
        path = prefix +:+ (rs +:+ version) +:+ tail ->
        PyStr.chars rs = replicate n "R"%char ->
        PyStr.startswith version "R" = false ->
        PyStr.contains (rs +:+ version) "/" = false ->
        tail = "" \/ PyStr.startswith tail "/" = true ->
        handle_epicsEnvSet (variable :: value :: rest) st
        = if String.eqb (md_base_version (ioc_info st)) DEFAULT_BASE_VERSION
          then (set_ioc_info (md_with_base_version version (ioc_info st)) st1,
                Return (ResEnvSet variable value
                          (Some ("Set base version: " +:+ version))))
          else (st1,
                Return (ResEnvSet variable value
                          (Some ("Found version (" +:+ version
                                 +:+ ") but version already specified: "
                                 +:+ md_base_version (ioc_info st))))))
  /\ (variable = "EPICS_BASE" ->
      PyStr.startswith path "/reg/g/pcds/epics/base/" = false ->
      PyStr.startswith path "/cds/group/pcds/epics/base/" = false ->
      handle_epicsEnvSet (variable :: value :: rest) st
      = (st1, Return (ResEnvSet variable value None))).
Proof.
  intros st1 path. split; [|split].
  - intros Hne. unfold handle_epicsEnvSet. run_m.
    destruct (String.eqb_spec variable "EPICS_BASE") as [Heq|_];
      [contradiction|reflexivity].
  - intros -> prefix rs version tail n Hprefix Hpath Hrs Hversion Hslash Htail.
    unfold handle_epicsEnvSet. run_m. rewrite String.eqb_refl.
    fold st1.
    rewrite (env_set_EPICS_BASE_below st1 value prefix rs version tail n)
      by assumption.
    change (ioc_info st1) with (ioc_info st).
    now destruct (String.eqb _ _).
  - intros -> Hreg Hcds. unfold handle_epicsEnvSet, env_set_EPICS_BASE. run_m.
    rewrite String.eqb_refl. fold path. cbn [env_set_EPICS_BASE_loop]. now rewrite Hreg, Hcds.
Qed.

Lemma handle_epicsEnvSet_spec_witness :
  (exists st',
     handle_epicsEnvSet (Ext := World.world) ["IOC"; "ioc-test"] World.fresh
     = (st', Return (ResEnvSet "IOC" "ioc-test" (Some "")))
     /\ ioc_info st' = ioc_info World.fresh)
  /\ (exists st',
        handle_epicsEnvSet (Ext := World.world)
          ["EPICS_BASE"; "/cds/group/pcds/epics/base/R7.0.2-2.0/lib"]
          World.fresh
        = (st', Return (ResEnvSet "EPICS_BASE"
                          "/cds/group/pcds/epics/base/R7.0.2-2.0/lib"
                          (Some "Set base version: 7.0.2-2.0")))
        /\ md_base_version (ioc_info st') = "7.0.2-2.0")
  /\ (exists st',
        handle_epicsEnvSet (Ext := World.world) ["EPICS_BASE"; "/opt/epics"]
          World.fresh
        = (st', Return (ResEnvSet "EPICS_BASE" "/opt/epics" None))
        /\ md_base_version (ioc_info st') = "3.15").
Proof.
  split; [|split].
  - destruct (handle_epicsEnvSet_spec (Ext := World.world) World.fresh
                "IOC" "ioc-test" []) as [Hplain _].
    eexists. split; [apply Hplain; discriminate|reflexivity].
  - destruct (handle_epicsEnvSet_spec (Ext := World.world) World.fresh
                "EPICS_BASE" "/cds/group/pcds/epics/base/R7.0.2-2.0/lib" [])
      as (_ & Hbase & _).
    eexists. split.
    + rewrite (Hbase eq_refl "/cds/group/pcds/epics/base/" "R" "7.0.2-2.0"
                 "/lib" 1); try reflexivity; try (now left); now right.
    + reflexivity.
  - destruct (handle_epicsEnvSet_spec (Ext := World.world) World.fresh
                "EPICS_BASE" "/opt/epics" []) as (_ & _ & Hother).
    eexists. split; [apply Hother; reflexivity|reflexivity].
Defined.

(** ** Groups created by [NDPvaConfigure] *)

(** X12. [NDPvaConfigure] with fewer than six arguments ([pvName] left
    at [None]) returns [None] and changes nothing.  With a [pvName] it
    stores under that name a new PVA group: record type [PVA], no fields,
    the current load context as provenance, and under [areaDetector] the
    metadata it returns, in which each of the ten parameters has the
    argument given for it, or the empty string.  A group stored under the
    name before is replaced, not merged; the classic database is
    untouched.  [whatrec] then finds the group, as the last of the
    instances, and without PVA groups it answers as before. *)
Theorem handle_NDPvaConfigure_group (st : ShellState)
  (args : list string) :
  (args !! 5 = None -> handle_NDPvaConfigure args st = (st, Return ResNone))
  /\ (forall pvName, args !! 5 = Some pvName ->
      exists st' metadata,
        let group := NDPva_group (get_load_context st) pvName metadata in
        handle_NDPvaConfigure args st = (st', Return (ResMetadata metadata))
        /\ (forall i parameter, NDPva_parameters !! i = Some parameter ->
              metadata !! parameter = Some (or_empty (args !! i)))
        /\ pva_database st' = <[pvName := group]> (pva_database st)
        /\ database st' = database st
        /\ forall field,
             (exists info, whatrec st' pvName field true = Some info
                           /\ last (wr_instances info) = Some group)
             /\ whatrec st' pvName field false = whatrec st pvName field false).
Proof.
  split.
  - intros Hnone. unfold handle_NDPvaConfigure. now rewrite Hnone.
  - intros pvName Hname. unfold handle_NDPvaConfigure. rewrite Hname. run_m.
    eexists _, _. split; [reflexivity|]. cbn.
    split; [|split; [reflexivity|split; [reflexivity|]]].
    + intros i parameter Hi.
      do 10 (destruct i as [|i];
            [injection Hi as <-; rewrite ?Hname; reflexivity|]).
      discriminate.
    + intros field. split; [|reflexivity].
      unfold whatrec. cbn. rewrite lookup_insert_eq.
      destruct (database st !! pvName); eexists; (split; [reflexivity|]).
      * cbn. reflexivity.
      * reflexivity.
Qed.

Lemma handle_NDPvaConfigure_group_witness :
  handle_NDPvaConfigure ["CAM"; "10"] World.loaded_once
  = (World.loaded_once, Return ResNone)
  /\ exists st' metadata,
       handle_NDPvaConfigure
         ["PVA1"; "10"; "0"; "CAM"; "0"; "test:grp"] World.loaded_once
       = (st', Return (ResMetadata metadata))
       /\ metadata !! "NDArrayPort" = Some "CAM"
       /\ metadata !! "stackSize" = Some ""
       /\ (ri_fields <$> pva_database World.loaded_once !! "test:grp")
          = Some (ri_fields World.grp)
       /\ (ri_fields <$> pva_database st' !! "test:grp") = Some ∅.
Proof.
  split.
  - apply handle_NDPvaConfigure_group. reflexivity.
  - destruct (handle_NDPvaConfigure_group
                World.loaded_once ["PVA1"; "10"; "0"; "CAM"; "0"; "test:grp"])
      as [_ Hgroup].
    destruct (Hgroup "test:grp" eq_refl)
      as (st' & metadata & Hrun & Hmeta & Hpva & _).
    exists st', metadata. split; [exact Hrun|].
    split; [apply (Hmeta 3); reflexivity|].
    split; [apply (Hmeta 9); reflexivity|].
    split; [vm_compute; reflexivity|].
    rewrite Hpva, lookup_insert_eq. reflexivity.
Defined.

(** ** The dispatch table *)

Lemma find_handlers_lookup (name : string) (h : Handler) :
  (name, h) ∈ find_handlers ->
  (list_to_map find_handlers : gmap string Handler) !! name = Some h.
Proof.
  intros Hin. apply elem_of_list_to_map; [|exact Hin].
  apply (bool_decide_unpack _). vm_compute. exact I.
Qed.

(** A [handle_] method is in the table under its command name, whatever
    the table given to the constructor holds. *)
Lemma post_init_handlers_method `{Ext : External}
  (given : gmap string Handler) (name : string) (h : Handler) :
  (name, h) ∈ find_handlers -> post_init_handlers given !! name = Some h.
Proof.
  intros Hin. unfold post_init_handlers, _setup_dynamic_handlers.
  apply lookup_union_Some_l, lookup_union_Some_l.
  now apply find_handlers_lookup.
Qed.

(** X13. The dispatch table that [__post_init__] builds from the table
    given to the constructor.  Every [handle_] method is in it under its
    command name, whatever the given table said for that name; a name
    that is no method keeps the handler given for it; and a name that is
    neither gets the generic motor handler exactly when
    [motor.shell_commands] knows it, and no handler otherwise. *)
Theorem post_init_handlers_lookup `{Ext : External}
  (given : gmap string Handler) (name : string) :
  (forall h, (name, h) ∈ find_handlers ->
     post_init_handlers given !! name = Some h)
  /\ (name ∉ find_handlers.*1 ->
      post_init_handlers given !! name
      = match given !! name with
        | Some h => Some h
        | None =>
            (fun _ => H_generic_motor name) <$> motor_shell_commands !! name
        end).
Proof.
  split; [apply post_init_handlers_method|].
  unfold post_init_handlers, _setup_dynamic_handlers.
  - intros Hnot.
    assert ((list_to_map find_handlers : gmap string Handler) !! name = None)
      as Hnone by (now apply not_elem_of_list_to_map).
    rewrite lookup_union, lookup_union, Hnone, map_lookup_imap.
    destruct (given !! name) as [h|]; cbn.
    + now destruct (motor_shell_commands !! name).
    + now destruct (motor_shell_commands !! name).
Qed.

Lemma post_init_handlers_lookup_witness :
  post_init_handlers (Ext := World.world) {["dbl" := H_iocInit]} !! "dbl"
  = Some H_dbl
  /\ post_init_handlers (Ext := World.world) {["asynReport" := H_dbl]}
     !! "asynReport" = Some H_dbl
  /\ post_init_handlers (Ext := World.world) ∅ !! "drvAsynMotorConfigure"
     = Some H_drvAsynMotorConfigure
  /\ post_init_handlers (Ext := World.world) ∅ !! "asynReport" = None.
Proof.
  split; [|split; [|split]].
  - apply (post_init_handlers_lookup (Ext := World.world)).
    now apply (list_elem_of_lookup_2 _ 9).
  - destruct (post_init_handlers_lookup (Ext := World.world)
                {["asynReport" := H_dbl]} "asynReport") as [_ Hother].
    rewrite Hother; [reflexivity|].
    apply (bool_decide_unpack _). vm_compute. exact I.
  - apply (post_init_handlers_lookup (Ext := World.world)).
    now apply (list_elem_of_lookup_2 _ 11).
  - destruct (post_init_handlers_lookup (Ext := World.world) ∅ "asynReport")
      as [_ Hother].
    rewrite Hother; [reflexivity|].
    apply (bool_decide_unpack _). vm_compute. exact I.
Defined.

(** X14. [command] is itself a command.  [find_handlers] takes every
    attribute whose name starts with [handle_], and [handle_command] is
    one: in a state whose table was built by [__post_init__], the command
    [command] followed by a command and its arguments does what that
    command does with those arguments, and [command] alone raises
    [TypeError]. *)
Theorem handle_command_command `{Ext : External} (st : ShellState)
  (given : gmap string Handler) :
  _handlers st = post_init_handlers given ->
  (forall command args,
     handle_command "command" (command :: args) st
     = handle_command command args st)
  /\ handle_command "command" [] st
     = (st, Raise (missing_arguments "handle_command")).
Proof.
  intros Htable.
  assert (_handlers st !! "command" = Some H_command) as Hcommand.
  { rewrite Htable. apply post_init_handlers_method.
    now apply (list_elem_of_lookup_2 _ 6). }
  split.
  - intros command args. unfold handle_command at 1. run_m.
    rewrite Hcommand. cbn [call_handler]. reflexivity.
  - unfold handle_command. run_m. now rewrite Hcommand.
Qed.

Lemma handle_command_command_witness :
  handle_command (Ext := World.world) "command" ["command"; "cd"; "sub"]
    World.fresh
  = handle_command (Ext := World.world) "cd" ["sub"] World.fresh
  /\ (working_directory
        (handle_command (Ext := World.world) "command" ["command"; "cd"; "sub"]
           World.fresh).1)
     = mkPath "/ioc/sub".
Proof.
  destruct (handle_command_command (Ext := World.world) World.fresh ∅ eq_refl)
    as [Hcommand _].
  split.
  - now rewrite !Hcommand.
  - rewrite !Hcommand. vm_compute. reflexivity.
Defined.

(** ** The generic motor handler *)

Lemma zip_take_length {A B} (l : list A) (k : list B) :
  zip l (take (length l) k) = zip l k.
Proof.
  revert k. induction l as [|x l IH]; intros [|y k]; cbn; try reflexivity.
  now rewrite IH.
Qed.

(** X15. The generic motor handler describes the arguments it is given,
    one line for each, against the parameters that [motor.shell_commands]
    lists for the command, and touches nothing.  For a command that is not
    listed it raises [KeyError].  For a listed one it returns whatever the
    number of arguments: there are as many lines as the shorter of the two
    lists has elements, so arguments beyond the listed parameters are
    ignored, parameters without an argument are left out, and no argument
    at all gives the empty string. *)
Theorem generic_motor_handler_arity `{Ext : External} (st : ShellState)
  (name : string) (args : list string) :
  (motor_shell_commands !! name = None ->
   _generic_motor_handler name args st = (st, Raise (KeyError name)))
  /\ (forall params, motor_shell_commands !! name = Some params ->
      (exists lines,
         _generic_motor_handler name args st
         = (st, Return (PyStr.join (String "010" "") lines))
         /\ length lines = length params `min` length args)
      /\ _generic_motor_handler name (take (length params) args) st
         = _generic_motor_handler name args st
      /\ _generic_motor_handler name [] st = (st, Return "")).
Proof.
  unfold _generic_motor_handler. split.
  - intros Hnone. now rewrite Hnone.
  - intros params Hsome. rewrite Hsome. split; [|split].
    + eexists. split; [reflexivity|].
      now rewrite length_map, length_zip_with.
    + now rewrite zip_take_length.
    + now destruct params.
Qed.

Lemma generic_motor_handler_arity_witness :
  _generic_motor_handler (Ext := World.world) "adsAsynPortDriverConfigure"
    ["ADS"; "10.0.0.1"; "x"] World.fresh
  = (World.fresh, Return "(str) portName = 'ADS'")
  /\ _generic_motor_handler (Ext := World.world) "asynReport" [] World.fresh
     = (World.fresh, Raise (KeyError (Ext := World.world) "asynReport")).
Proof.
  destruct (generic_motor_handler_arity (Ext := World.world) World.fresh
              "adsAsynPortDriverConfigure" ["ADS"; "10.0.0.1"; "x"])
    as [_ Hlisted].
  destruct (Hlisted [("portName", "str")] eq_refl) as (_ & Htake & _).
  destruct (generic_motor_handler_arity (Ext := World.world) World.fresh
              "asynReport" []) as [Hmissing _].
  split.
  - rewrite <- Htake. reflexivity.
  - apply Hmissing. reflexivity.
Defined.

(** ** Lines that run no command *)

Lemma input_redirect_cases (shresult : IocshResult) :
  match List.filter is_input_redirect (sr_redirects shresult) with
  | [] => input_redirect shresult = None
  | redir :: _ => input_redirect shresult = Some redir
  end.
Proof. unfold input_redirect. now destruct (List.filter _ _). Qed.

(** X16. The lines that run no command.  A line with a parse error
    yields its result and nothing else happens, even if it carries
    arguments or redirections.  A line with an input redirection is not
    even yielded when recursion is off.  With recursion on, when the file
    it names cannot be loaded, the line is yielded with the error text
    made of the exception class and the name as written, no exception
    leaves the interpreter even in strict mode, and the command on the
    line, if any, is not run.  A line without arguments is yielded as it
    is.  In all four cases the state is left as it was. *)
Theorem interpret_shell_line_no_command `{Ext : External} (fuel : nat)
  (line : string) (recurse raise_on_error : bool) (st : ShellState) :
  let shresult := parsed st line in
  (truthy (sr_error shresult) = true ->
   interpret_shell_line (S fuel) line recurse raise_on_error st
   = Some (st, [shresult], None))
  /\ (truthy (sr_error shresult) = false ->
      is_Some (input_redirect shresult) -> recurse = false ->
      interpret_shell_line (S fuel) line recurse raise_on_error st
      = Some (st, [], None))
  /\ (forall redir st1 ex,
        truthy (sr_error shresult) = false ->
        input_redirect shresult = Some redir -> recurse = true ->
        load_file (redir_name redir) st = (st1, Raise ex) ->
        interpret_shell_line (S fuel) line recurse raise_on_error st
        = Some (st,
                [sr_with_error (exc_type ex +:+ ": " +:+ redir_name redir)
                   shresult],
                None))
  /\ (truthy (sr_error shresult) = false ->
      input_redirect shresult = None -> argv_of shresult = [] ->
      interpret_shell_line (S fuel) line recurse raise_on_error st
      = Some (st, [shresult], None)).
Proof.
  intros shresult. pose proof (input_redirect_cases shresult) as Hcases.
  cbn [interpret_shell_line]. fold (parsed st line). fold shresult.
  split; [|split; [|split]].
  - intros Herr. now rewrite Herr.
  - intros Herr [redir Hredir] ->. rewrite Herr.
    destruct (List.filter _ _); [congruence|reflexivity].
  - intros redir st1 ex Herr Hredir -> Hload. rewrite Herr.
    destruct (List.filter _ _) as [|r rs]; [congruence|].
    replace r with redir by congruence.
    unfold _handle_input_redirect. rewrite Hload.
    now rewrite (load_file_raises _ _ _ _ Hload).
  - intros Herr Hredir Hargv. rewrite Herr, Hargv.
    destruct (List.filter _ _); [reflexivity|congruence].
Qed.

Lemma interpret_shell_line_no_command_witness :
  interpret_shell_line (Ext := World.world) 1 "< /ioc/a.cmd" false true
    World.fresh = Some (World.fresh, [], None)
  /\ interpret_shell_line (Ext := World.world) 1 "< nofile.cmd" true true
       World.fresh
     = Some (World.fresh,
             [mkResult [] "< nofile.cmd" [] None
                (Some "FileNotFoundError: nofile.cmd")
                [mkRedirect 0 "nofile.cmd" "r"] ResNone],
             None)
  /\ interpret_shell_line (Ext := World.world) 1 "" true true World.fresh
     = Some (World.fresh, [mkResult [] "" [] (Some []) None [] ResNone], None).
Proof.
  destruct (interpret_shell_line_no_command (Ext := World.world) 0
              "< /ioc/a.cmd" false true World.fresh) as (_ & Hoff & _).
  destruct (interpret_shell_line_no_command (Ext := World.world) 0
              "< nofile.cmd" true true World.fresh) as (_ & _ & Hmissing & _).
  destruct (interpret_shell_line_no_command (Ext := World.world) 0
              "" true true World.fresh) as (_ & _ & _ & Hempty).
  split; [|split].
  - apply Hoff; [reflexivity|eexists; reflexivity|reflexivity].
  - apply (Hmissing (mkRedirect 0 "nofile.cmd" "r") World.fresh
             (World.FileNotFoundError (mkPath "/ioc/nofile.cmd")));
      reflexivity.
  - apply Hempty; reflexivity.
Defined.

(** X17. Strict mode does not reach into included files.  For a line
    with an input redirection, the flag [raise_on_error] makes no
    difference to the run; when the named file loads, the run is the line
    itself followed by the run of the file's lines as a script named by
    the resolved path, interpreted with [raise_on_error=False], and the
    command on the line, if any, is not run. *)
Theorem input_redirect_ignores_strict_mode `{Ext : External} (fuel : nat)
  (line : string) (recurse : bool) (st : ShellState) (redir : IocshRedirect) :
  let shresult := parsed st line in
  truthy (sr_error shresult) = false ->
  input_redirect shresult = Some redir ->
  interpret_shell_line (S fuel) line recurse true st
  = interpret_shell_line (S fuel) line recurse false st
  /\ forall st1 filename contents,
       load_file (redir_name redir) st = (st1, Return (filename, contents)) ->
       interpret_shell_line (S fuel) line true true st
       = match
           interpret_shell_script fuel (PyStr.splitlines contents)
             (path_str filename) true false st1
         with
         | Some (st', ys, ex) => Some (st', shresult :: ys, ex)
         | None => None
         end.
Proof.
  intros shresult Herr Hredir.
  pose proof (input_redirect_cases shresult) as Hcases.
  cbn [interpret_shell_line]. fold (parsed st line). fold shresult.
  rewrite Herr. destruct (List.filter _ _) as [|r rs]; [congruence|].
  replace r with redir by congruence. split; [reflexivity|].
  intros st1 filename contents Hload.
  unfold _handle_input_redirect. rewrite Hload. reflexivity.
Qed.

Lemma input_redirect_ignores_strict_mode_witness :
  let st := set_working_directory (mkPath "/ioc/sub/sub") World.fresh in
  run_exception
    (interpret_shell_line (Ext := World.world) 3 "< /ioc/a.cmd" true true st)
  = Some None
  /\ run_exception
       (interpret_shell_script (Ext := World.world) 3 World.a_cmd "/ioc/a.cmd"
          true true st)
     = Some (Some (RuntimeError "Path does not exist: /ioc/sub/sub/sub")).
Proof.
  intros st.
  destruct (input_redirect_ignores_strict_mode (Ext := World.world) 2
              "< /ioc/a.cmd" true st (mkRedirect 0 "/ioc/a.cmd" "r"))
    as [Hsame _]; [reflexivity..|].
  split; [rewrite Hsame|]; vm_compute; reflexivity.
Defined.

(** ** Tolerant and strict runs *)

(** Without recursion and without strict mode, no line ends with an
    exception. *)
Lemma interpret_shell_line_tolerant `{Ext : External} (fuel : nat) :
  forall line st st' ys ex,
    interpret_shell_line fuel line false false st = Some (st', ys, ex) ->
    ex = None.
Proof.
  induction fuel as [|fuel IH]; [discriminate|].
  intros line st st' ys ex Hrun. cbn [interpret_shell_line] in Hrun.
  set (shresult := parse_iocsh_line _ _ _ _ _) in Hrun.
  assert (Hnested : forall res s s' ys' ex',
            match sr_result res with
            | ResCmdArgs a =>
                match interpret_shell_line fuel (ca_command a) false false s
                with
                | Some (s1, ys1, ex1) => Some (s1, res :: ys1, ex1)
                | None => None
                end
            | _ => Some (s, [res], None)
            end = Some (s', ys', ex') -> ex' = None).
  { intros res s s' ys' ex' Hres.
    destruct (sr_result res); try (now injection Hres as _ _ <-).
    destruct (interpret_shell_line fuel _ false false s)
      as [[[s1 ys1] ex1]|] eqn:Hinner; [|discriminate].
    injection Hres as _ _ <-. eapply IH, Hinner. }
  destruct (truthy (sr_error shresult)); [now injection Hrun as _ _ <-|].
  destruct (List.filter is_input_redirect (sr_redirects shresult));
    [|now injection Hrun as _ _ <-].
  destruct (argv_of shresult) as [|command args];
    [now injection Hrun as _ _ <-|].
  destruct (handle_command command args st) as [s1 [result|e]];
    eapply Hnested, Hrun.
Qed.

Lemma script_loop_tolerant (f : string -> ShellState -> option Run) :
  (forall line st st' ys ex, f line st = Some (st', ys, ex) -> ex = None) ->
  forall lines id lineno current st st' ys ex final,
    script_loop f id lineno current lines st = Some ((st', ys, ex), final) ->
    ex = None.
Proof.
  intros Hf. induction lines as [|line rest IH];
    intros id lineno current st st' ys ex final Hrun;
    cbn [script_loop] in Hrun; [now injection Hrun as _ _ <- _|].
  destruct (f line _) as [[[s1 ys1] ex1]|] eqn:Hline; [|discriminate].
  apply Hf in Hline as ->.
  destruct (script_loop f id (S lineno) lineno rest s1)
    as [[[[s2 ys2] ex2] final2]|] eqn:Hrest; [|discriminate].
  injection Hrun as _ _ <- _. eapply IH, Hrest.
Qed.

(** The stack after the loop of a script that runs no nested script, and
    what [list.remove] then does. *)
Lemma interpret_shell_script_flat `{Ext : External} (fuel : nat)
  (lines : list string) (name : string) (raise_on_error : bool)
  (st st' : ShellState) (ys : list IocshResult) (ex : option Exc) :
  Forall (fun c => ctx_id c < ctx_next st) (load_context st) ->
  Forall (fun c => ctx_name c <> name) (load_context st) ->
  interpret_shell_script fuel lines name false raise_on_error st
  = Some (st', ys, ex) ->
  exists s1 final,
    script_loop
      (fun line => interpret_shell_line fuel line false raise_on_error)
      (ctx_next st) 1 0 lines
      (set_load_context (load_context st ++ [mkCtx (ctx_next st) name 0])
         (set_ctx_next (S (ctx_next st)) st))
    = Some ((s1, ys, ex), final)
    /\ st' = set_load_context (load_context st) s1.
Proof.
  intros Hids Hnames Hrun.
  unfold interpret_shell_script, interpret_shell_script_with in Hrun.
  set (st0 := set_load_context _ _) in *.
  destruct (script_loop _ (ctx_next st) 1 0 lines st0)
    as [[[[s1 ys1] ex1] final]|] eqn:Hloop; [|discriminate].
  pose proof Hloop as Hstack.
  eapply (script_loop_keeps_stack fuel raise_on_error (ctx_next st) name
            (load_context st)) in Hstack as [Hctx _].
  - cbn in Hctx. rewrite Hctx, list_remove_last in Hrun.
    + injection Hrun as <- <- <-. eauto.
    + rewrite Forall_forall in Hids, Hnames. apply Forall_forall.
      intros c Hin. specialize (Hids c Hin). specialize (Hnames c Hin).
      unfold ctx_equal. cbn.
      destruct (String.eqb_spec (ctx_name c) name) as [Heq|_];
        [contradiction|].
      cbn. rewrite orb_false_r. apply Nat.eqb_neq. lia.
  - eapply Forall_impl; [exact Hids|]. cbn. intros c Hc. lia.
  - reflexivity.
Qed.

(** *** Termination without nested scripts

    With [recurse=False] the only nested interpretation is the one of a
    command that [handle_iocshCmd] hands back.  That command is an
    argument of the line; when the parser returns arguments shorter than
    the line, the nesting is bounded by the length of the line. *)

Section Returns.
Context {A : Type} (P : A -> Prop).

Lemma returns_ret (a : A) : P a -> returns P (ret a).
Proof. intros Ha st st' a' [= <- <-]. exact Ha. Qed.

Lemma returns_raise (e : Exc) : returns P (raise e).
Proof. intros st st' a. discriminate. Qed.

Lemma returns_bind {B} (m : M B) (k : B -> M A) :
  (forall b, returns P (k b)) -> returns P (bind m k).
Proof.
  intros Hk st st' a. unfold bind.
  destruct (m st) as [st1 [b|e]]; [apply Hk|discriminate].
Qed.

Lemma returns_weaken (Q : A -> Prop) (m : M A) :
  (forall a, Q a -> P a) -> returns Q m -> returns P m.
Proof. intros HQ Hm st st' a Hrun. eapply HQ, Hm, Hrun. Qed.

End Returns.

Ltac returns_step :=
  first
    [ apply returns_raise
    | apply returns_ret; intros ? ?; discriminate
    | apply returns_bind; intros ?
    | match goal with
      | |- returns _ (match ?x with _ => _ end) => destruct x
      end ].

(** Only [handle_iocshCmd] returns the marker, and it carries the first
    argument of the call; through [handle_command] as a command of its
    own, it is an argument all the same. *)
Lemma call_handler_reinvoked `{Ext : External} (h : Handler)
  (args : list string) :
  returns (reinvoked_from args) (call_handler h args).
Proof.
  revert h. induction args as [|arg args IH]; intros h;
  destruct h; cbn [call_handler]; unfold_handlers;
  repeat first
    [ apply returns_ret; intros ? [= <-]; apply list_elem_of_here
    | eapply returns_weaken; [|apply IH];
      intros r Hr a Ha; apply list_elem_of_further, Hr, Ha
    | returns_step ].
Qed.

Lemma handle_command_reinvoked `{Ext : External} (command : string)
  (args : list string) :
  returns (reinvoked_from args) (handle_command command args).
Proof.
  unfold handle_command, unhandled.
  repeat first [apply call_handler_reinvoked | returns_step].
Qed.

Lemma interpret_shell_line_flat_total `{Ext : External} (fuel : nat) :
  parser_shortens ->
  forall line raise_on_error st,
    String.length line < fuel ->
    is_Some (interpret_shell_line fuel line false raise_on_error st).
Proof.
  intros Hparser. induction fuel as [|fuel IH];
    intros line raise_on_error st Hlen; [lia|].
  cbn [interpret_shell_line].
  destruct (Hparser line (get_load_context st) (prompt st) (macro_context st)
              (string_encoding st)) as [Hresult Hargs].
  set (shresult := parse_iocsh_line _ _ _ _ _) in *.
  destruct (truthy (sr_error shresult)); [eauto|].
  destruct (List.filter is_input_redirect (sr_redirects shresult)); [|eauto].
  destruct (argv_of shresult) as [|command args]; [eauto|].
  cbn [tail] in Hargs.
  destruct (handle_command command args st) as [s1 [result|e]] eqn:Hcommand.
  - cbn. destruct result; eauto.
    pose proof (handle_command_reinvoked _ _ _ _ _ Hcommand a eq_refl) as Hin.
    rewrite Forall_forall in Hargs. specialize (Hargs _ Hin).
    destruct (IH (ca_command a) false s1) as [[[s2 ys] ex] ->]; [lia|eauto].
  - destruct raise_on_error; [eauto|]. cbn.
    destruct (sr_result shresult) eqn:Hres; eauto.
    now destruct (Hresult a).
Qed.

Lemma script_loop_total (f : string -> ShellState -> option Run)
  (lines : list string) :
  Forall (fun line => forall st, is_Some (f line st)) lines ->
  forall id lineno current st,
    is_Some (script_loop f id lineno current lines st).
Proof.
  induction 1 as [|line rest Hline _ IH]; intros id lineno current st;
    cbn [script_loop]; [eauto|].
  destruct (Hline (set_load_context (set_line id lineno (load_context st)) st))
    as [[[s1 ys] [ex|]] ->]; [eauto|].
  destruct (IH id (S lineno) lineno s1) as [[[[s2 ys2] ex2] final] ->]. eauto.
Qed.

Lemma interpret_shell_script_flat_total `{Ext : External} (fuel : nat)
  (lines : list string) (name : string) (raise_on_error : bool)
  (st : ShellState) :
  parser_shortens ->
  Forall (fun line => String.length line < fuel) lines ->
  is_Some (interpret_shell_script fuel lines name false raise_on_error st).
Proof.
  intros Hparser Hlines.
  unfold interpret_shell_script, interpret_shell_script_with.
  match goal with
  | |- context [script_loop ?f ?i ?n ?c lines ?s] =>
      assert (Hloop : Forall (fun line => forall s', is_Some (f line s')) lines)
        by (eapply Forall_impl; [exact Hlines|]; cbn; intros line Hlen s';
            now apply interpret_shell_line_flat_total);
      destruct (script_loop_total f lines Hloop i n c s)
        as [[[[s1 ys] ex] final] ->]
  end.
  destruct (list_remove _ _); eauto.
Qed.

(** The tokenizer of the concrete world returns pieces of the line. *)
Lemma length_str (l : list ascii) : String.length (PyStr.str l) = length l.
Proof.
  unfold PyStr.str. induction l as [|c l IH]; cbn; [reflexivity|now rewrite IH].
Qed.

Lemma length_chars (s : string) : length (PyStr.chars s) = String.length s.
Proof.
  unfold PyStr.chars.
  induction s as [|c s IH]; cbn; [reflexivity|now rewrite IH].
Qed.

Lemma tokens_length (l : list ascii) :
  forall quoted cur started,
    Forall (fun t => String.length t <= length cur + length l)
           (World.tokens l quoted cur started)
    /\ Forall (fun t => String.length t < length cur + length l)
              (tail (World.tokens l quoted cur started)).
Proof.
  induction l as [|c l IH]; intros quoted cur started; cbn [World.tokens].
  - destruct started; cbn; split; repeat constructor.
    rewrite length_str, length_rev. lia.
  - destruct (Ascii.eqb c "034").
    { destruct (IH (negb quoted) cur true) as [Hall Htail].
      split; (eapply Forall_impl; [eassumption|]); cbn; intros; lia. }
    destruct (Ascii.eqb c " " && negb quoted).
    + destruct (IH false [] false) as [Hall Htail]. cbn in Hall, Htail.
      destruct started; cbn [app tail].
      * split.
        -- constructor; [rewrite length_str, length_rev; cbn; lia|].
           eapply Forall_impl; [exact Hall|]. cbn. intros. lia.
        -- eapply Forall_impl; [exact Hall|]. cbn. intros. lia.
      * split; (eapply Forall_impl; [eassumption|]); cbn; intros; lia.
    + destruct (IH quoted (c :: cur) true) as [Hall Htail].
      split; (eapply Forall_impl; [eassumption|]); cbn; intros; lia.
Qed.

Lemma world_parser_shortens : parser_shortens (Ext := World.world).
Proof.
  intros line context prompt mc encoding. cbn. unfold World.parse.
  destruct (tokens_length (PyStr.chars line) false [] false) as [_ Htail].
  rewrite length_chars in Htail. cbn in Htail.
  destruct (World.tokens _ _ _ _) as [|t ts] eqn:Htokens;
    [split; [discriminate|constructor]|].
  assert (Hplain :
    (forall a, sr_result (mkResult context line [] (Some (t :: ts)) None []
                            ResNone) <> ResCmdArgs a)
    /\ Forall (fun arg => String.length arg < String.length line)
         (tail (argv_of (mkResult context line [] (Some (t :: ts)) None []
                           ResNone))))
    by (split; [discriminate|exact Htail]).
  destruct (String.eqb_spec t "<") as [->|Hne].
  - destruct ts; [exact Hplain|]. split; [discriminate|constructor].
  - revert Hplain. clear -Hne.
    destruct t as [|c t]; [trivial|].
    destruct c as [[] [] [] [] [] [] [] []]; trivial.
    destruct t; trivial. contradiction.
Qed.



(** A loop that ended with an exception is not changed by lines that
    follow. *)
Lemma script_loop_stops (f : string -> ShellState -> option Run)
  (more : list string) :
  forall lines id lineno current st st' ys e final,
    script_loop f id lineno current lines st
    = Some ((st', ys, Some e), final) ->
    script_loop f id lineno current (lines ++ more) st
    = Some ((st', ys, Some e), final).
Proof.
  induction lines as [|line rest IH];
    intros id lineno current st st' ys e final Hrun;
    cbn [script_loop app] in *; [discriminate|].
  destruct (f line _) as [[[s1 ys1] [e1|]]|]; [exact Hrun| |discriminate].
  destruct (script_loop f id (S lineno) lineno rest s1)
    as [[[[s2 ys2] ex2] final2]|] eqn:Hrest; [|discriminate].
  injection Hrun as <- <- -> <-. now rewrite (IH _ _ _ _ _ _ _ _ Hrest).
Qed.

(** X19. Nothing is interpreted after the line whose exception leaves
    the script.  If the interpretation of a script ends with an exception
    other than the [ValueError] of a failed [list.remove], the same script
    with more lines after it ends with the same state, the same results
    and the same exception. *)
Theorem interpret_shell_script_stops `{Ext : External} (fuel : nat)
  (lines more : list string) (name : string) (recurse raise_on_error : bool)
  (st st' : ShellState) (ys : list IocshResult) (e : Exc) :
  interpret_shell_script fuel lines name recurse raise_on_error st
  = Some (st', ys, Some e) ->
  e <> ValueError "list.remove(x): x not in list" ->
  interpret_shell_script fuel (lines ++ more) name recurse raise_on_error st
  = Some (st', ys, Some e).
Proof.
  unfold interpret_shell_script, interpret_shell_script_with.
  intros Hrun Hne.
  destruct (script_loop _ (ctx_next st) 1 0 lines _)
    as [[[[s1 ys1] ex1] final]|] eqn:Hloop; [|discriminate].
  destruct (list_remove _ (load_context s1)) as [stack|] eqn:Hremove.
  - injection Hrun as <- <- ->.
    rewrite (script_loop_stops _ more _ _ _ _ _ _ _ _ _ Hloop).
    now rewrite Hremove.
  - injection Hrun as _ _ <-. contradiction.
Qed.

Lemma interpret_shell_script_stops_witness :
  exists st' ys ex,
    interpret_shell_script (Ext := World.world) 1
      ["iocInit"; "dbLoadDatabase base.dbd"] "/ioc/st.cmd" true true
      World.fresh = Some (st', ys, ex)
    /\ interpret_shell_script (Ext := World.world) 1
         ["iocInit"; "dbLoadDatabase base.dbd"; "cd sub"] "/ioc/st.cmd" true
         true World.fresh
       = Some (st', ys,
               Some (RuntimeError "Database cannot be loaded after iocInit")).
Proof.
  assert (Hraised :
    run_exception
      (interpret_shell_script (Ext := World.world) 1
         ["iocInit"; "dbLoadDatabase base.dbd"] "/ioc/st.cmd" true true
         World.fresh)
    = Some (Some (RuntimeError "Database cannot be loaded after iocInit")))
    by (vm_compute; reflexivity).
  with_run. cbn in Hraised. injection Hraised as ->.
  apply (interpret_shell_script_stops (Ext := World.world) 1
           ["iocInit"; "dbLoadDatabase base.dbd"] ["cd sub"] _ _ _ _ _ _ _ Hrun).
  discriminate.
Defined.

(** ** Queries *)

(** An answer of [whatrec] has no owner and no IOC yet. *)
Lemma whatrec_unowned (st : ShellState) (rec : string)
  (field : option string) (include_pva : bool) (info : WhatRecord) :
  whatrec st rec field include_pva = Some info ->
  wr_owner info = None /\ wr_ioc info = None.
Proof.
  unfold whatrec.
  destruct (database st !! rec), (if include_pva then _ else _);
    try discriminate; now intros [= <-].
Qed.

(** X20. [whatrec] answers [None] exactly when the state holds neither
    a classic record nor, if PVA groups are asked for, a group of that
    name.  Otherwise the answer carries the name, no owner and no IOC, and
    as instances the classic record, if any, followed by the group, if
    any and asked for; it lists no port when there is no classic record,
    and never more than two; and the [field] argument has no influence on
    it. *)
Theorem whatrec_instances (st : ShellState) (rec : string)
  (field : option string) (include_pva : bool) :
  let classic := database st !! rec in
  let group := if include_pva then pva_database st !! rec else None in
  (whatrec st rec field include_pva = None <-> classic = None /\ group = None)
  /\ forall info,
       whatrec st rec field include_pva = Some info ->
       wr_name info = rec
       /\ wr_owner info = None
       /\ wr_ioc info = None
       /\ wr_instances info = option_list classic ++ option_list group
       /\ (classic = None -> wr_asyn_ports info = [])
       /\ length (wr_asyn_ports info) <= 2
       /\ forall field', whatrec st rec field' include_pva = Some info.
Proof.
  intros classic group. unfold whatrec. fold classic. fold group. split.
  - destruct classic, group; split; intros H;
      try discriminate; try (now destruct H); now split.
  - intros info Hinfo.
    assert (exists ports,
              info = mkWhatRecord rec None
                       (option_list classic ++ option_list group) ports None
              /\ (classic = None -> ports = [])
              /\ length ports <= 2) as (ports & -> & Hnone & Hlen).
    { destruct classic as [inst|], group; try discriminate;
        injection Hinfo as <-; eexists; (split; [reflexivity|]);
        (split; [try reflexivity; discriminate|]);
        try (cbn; lia).
      - destruct (get_asyn_port_from_record st inst) as [ref|]; [|cbn; lia].
        destruct (_ ≫= _); cbn; lia.
      - destruct (get_asyn_port_from_record st inst) as [ref|]; [|cbn; lia].
        destruct (_ ≫= _); cbn; lia. }
    cbn. repeat split; try assumption.
    intros field'. destruct classic, group; try discriminate; exact Hinfo.
Qed.

Lemma whatrec_instances_witness :
  whatrec World.with_motor "test:none" None true = None
  /\ (wr_instances <$> whatrec World.with_motor "test:grp" None true)
     = Some [World.grp]
  /\ whatrec World.with_motor "test:grp" (Some "VAL") false = None.
Proof.
  destruct (whatrec_instances World.with_motor "test:none" None true)
    as [[_ Hnone] _].
  destruct (whatrec_instances World.with_motor "test:grp" None true)
    as [_ Hgroup].
  destruct (whatrec_instances World.with_motor "test:grp" (Some "VAL") false)
    as [[_ Hclassic] _].
  split; [apply Hnone; split; reflexivity|].
  split; [|apply Hclassic; split; reflexivity].
  destruct (whatrec World.with_motor "test:grp" None true) as [info|] eqn:Hinfo.
  - destruct (Hgroup info eq_refl) as (_ & _ & _ & Hinst & _).
    cbn. rewrite Hinst. reflexivity.
  - vm_compute in Hinfo. discriminate Hinfo.
Defined.

Lemma knows_whatrec (rec : string) (field : option string)
  (include_pva : bool) (item : string * LoadedIoc) :
  knows rec include_pva item
  = match whatrec (li_shell_state item.2) rec field include_pva with
    | Some _ => true
    | None => false
    end.
Proof.
  unfold knows, whatrec. destruct item as [stcmd loaded]. cbn [snd].
  destruct (database (li_shell_state loaded) !! rec), include_pva;
    try destruct (pva_database (li_shell_state loaded) !! rec); reflexivity.
Qed.

Lemma whatrec_printed_length (loaded : LoadedIoc) (info : WhatRecord) :
  length (whatrec_printed loaded info true)
  = length (wr_instances info) * S (length (wr_asyn_ports info)).
Proof.
  unfold whatrec_printed.
  induction (wr_instances info) as [|inst rest IH]; [reflexivity|].
  cbn [flat_map]. rewrite length_app, IH. cbn. now rewrite length_map.
Qed.



(** ** Filling a container *)

Lemma last_cons_cases {A} (x : A) (l : list A) :
  last (x :: l) = match last l with Some y => Some y | None => Some x end.
Proof.
  destruct l as [|y l]; [reflexivity|].
  change (last (x :: y :: l)) with (last (y :: l)).
  destruct (last (y :: l)) eqn:Hlast; [reflexivity|].
  apply last_None in Hlast. discriminate.
Qed.

Lemma dict_update_idemp {V} (d other : gmap string V) :
  dict_update (dict_update d other) other = dict_update d other.
Proof.
  apply map_eq. intros k. rewrite !dict_update_lookup.
  now destruct (other !! k).
Qed.

(** The entry of a key after a sequence of [dict.update]s: the last value
    given for it, or the entry it had. *)
Lemma dict_updates_lookup {V X} (f : X -> gmap string V) (xs : list X) :
  forall (d : gmap string V) (k : string),
    foldl (fun acc x => dict_update acc (f x)) d xs !! k
    = match last (omap (fun x => f x !! k) xs) with
      | Some v => Some v
      | None => d !! k
      end.
Proof.
  induction xs as [|x xs IH]; intros d k; [reflexivity|].
  cbn [foldl]. rewrite IH, dict_update_lookup. cbn [omap list_omap].
  destruct (f x !! k) as [v|]; [|reflexivity].
  rewrite last_cons_cases. now destruct (last _).
Qed.

Lemma add_scripts_parts (loaded : list LoadedIoc) :
  forall self : ScriptContainer,
    sc_database (add_scripts self loaded)
    = foldl (fun acc l => dict_update acc (database (li_shell_state l)))
        (sc_database self) loaded
    /\ sc_pva_database (add_scripts self loaded)
       = foldl (fun acc l => dict_update acc (pva_database (li_shell_state l)))
           (sc_pva_database self) loaded
    /\ sc_loaded_files (add_scripts self loaded)
       = foldl (fun acc l => dict_update acc (loaded_files (li_shell_state l)))
           (sc_loaded_files self) loaded
    /\ sc_scripts (add_scripts self loaded)
       = foldl (fun acc l =>
                  dict_update acc
                    {[path_str (md_script (li_metadata l)) := l]})
           (sc_scripts self) loaded.
Proof.
  unfold add_scripts.
  induction loaded as [|l rest IH]; intros self; [now repeat split|].
  cbn [foldl]. destruct (IH (add_script self l)) as (-> & -> & -> & ->).
  cbn. repeat split. f_equal. unfold dict_update.
  now rewrite insert_union_singleton_l.
Qed.

(** X22. A container filled by a sequence of [add_script] calls holds,
    under every record name, the record that the last of the loaded IOCs
    declaring the name has for it, or its own earlier entry when none
    declares it; the same holds for the PVA groups and for the file
    ledger; and under every script path it holds the last IOC loaded from
    that path.  Adding the same loaded IOC twice in a row is the same as
    adding it once. *)
Theorem add_scripts_last_declaration (self : ScriptContainer)
  (loaded : list LoadedIoc) :
  let c := add_scripts self loaded in
  (forall name,
     sc_database c !! name
     = latest loaded (fun l => database (li_shell_state l) !! name)
         (sc_database self !! name))
  /\ (forall name,
        sc_pva_database c !! name
        = latest loaded (fun l => pva_database (li_shell_state l) !! name)
            (sc_pva_database self !! name))
  /\ (forall file,
        sc_loaded_files c !! file
        = latest loaded (fun l => loaded_files (li_shell_state l) !! file)
            (sc_loaded_files self !! file))
  /\ (forall path,
        sc_scripts c !! path
        = latest loaded
            (fun l =>
               if decide (path_str (md_script (li_metadata l)) = path)
               then Some l else None)
            (sc_scripts self !! path))
  /\ forall l, add_script (add_script self l) l = add_script self l.
Proof.
  cbn zeta. unfold latest.
  destruct (add_scripts_parts loaded self) as (-> & -> & -> & ->).
  split; [|split; [|split; [|split]]].
  - intros name. apply dict_updates_lookup.
  - intros name. apply dict_updates_lookup.
  - intros file. apply dict_updates_lookup.
  - intros path. rewrite dict_updates_lookup.
    replace (omap (fun x : LoadedIoc =>
                     ({[path_str (md_script (li_metadata x)) := x]}
                        : gmap string LoadedIoc) !! path) loaded)
      with (omap (fun l : LoadedIoc =>
                    if decide (path_str (md_script (li_metadata l)) = path)
                    then Some l else None) loaded); [reflexivity|].
    apply list_omap_ext, Forall_Forall2_diag, Forall_forall. intros l _.
    destruct (decide _) as [<-|Hne].
    + symmetry. apply lookup_singleton_eq.
    + symmetry. now apply lookup_singleton_ne.
  - intros l. unfold add_script. cbn. f_equal.
    + apply dict_update_idemp.
    + apply dict_update_idemp.
    + apply insert_insert_eq.
    + apply dict_update_idemp.
Qed.

(** ** Loading *)

(** X23. An IOC that failed to load is filed like any other, and brings
    nothing with it.  [from_errored_load] gives a loaded IOC named and
    placed by the metadata, with one script line for each line of the
    exception text, a fresh shell state, and the error text [class:
    message] for the metadata.  Adding it to a container files it under
    the script path and leaves the merged records, PVA groups and file
    ledger exactly as they were; and [whatrec] finds nothing in its
    state. *)
Theorem from_errored_load_adds_no_records `{Ext : External} `{Load : Loading}
  (self : ScriptContainer) (md : IocMetadata) (ex : Exc) :
  let errored := (from_errored_load md ex).1 in
  let c := add_script self errored in
  sc_scripts c !! path_str (md_script md) = Some errored
  /\ sc_database c = sc_database self
  /\ sc_pva_database c = sc_pva_database self
  /\ sc_loaded_files c = sc_loaded_files self
  /\ li_name errored = md_name md
  /\ li_path errored = md_script md
  /\ length (script_lines (li_script errored))
     = length (PyStr.splitlines (exc_msg ex))
  /\ (from_errored_load md ex).2 = exc_type ex +:+ ": " +:+ exc_msg ex
  /\ forall rec field include_pva,
       whatrec (li_shell_state errored) rec field include_pva = None.
Proof.
  cbn zeta. unfold add_script, from_errored_load, dict_update. cbn.
  rewrite !(left_id_L ∅ (∪)), length_map.
  repeat split; [apply lookup_insert_eq|].
  intros rec field include_pva. unfold whatrec. cbn.
  rewrite !lookup_empty. now destruct include_pva.
Qed.

(** *** The order of [str] *)

#[global] Instance str_le_total : Total str_le.
Proof. intros a b. apply String.leb_total. Qed.

#[global] Instance str_le_antisymm : AntiSymm (=) str_le.
Proof. intros a b. apply String.leb_antisym. Qed.

#[global] Instance str_le_trans : Transitive str_le.
Proof.
  assert (Hle : forall a b, str_le a b <-> String_as_OT.lt a b \/ a = b).
  { intros a b. unfold str_le, String.leb.
    change (String.compare a b) with (String_as_OT.compare a b).
    destruct (String_as_OT.compare_spec a b) as [Heq|Hlt|Hgt]; split;
      try (intros _; auto; fail); try discriminate; try reflexivity.
    intros [Hlt| ->].
    - exfalso. eapply (StrictOrder_Irreflexive a).
      eapply (StrictOrder_Transitive a b a); eassumption.
    - exfalso. eapply (StrictOrder_Irreflexive b), Hgt. }
  intros a b c Hab Hbc. apply Hle in Hab, Hbc. apply Hle.
  destruct Hab as [Hab| ->], Hbc as [Hbc| ->]; auto.
  left. eapply (StrictOrder_Transitive a b c); eassumption.
Qed.

(** [sorted(set(fns))] is determined by the names that occur in [fns]:
    it is the sorted list without repetition of those names. *)
Lemma sorted_set_spec (fns : list string) :
  Sorted str_le (sorted_set fns)
  /\ NoDup (sorted_set fns)
  /\ forall fn, fn ∈ sorted_set fns <-> fn ∈ fns.
Proof.
  unfold sorted_set. split; [apply Sorted_merge_sort, _|]. split.
  - rewrite merge_sort_Permutation. apply NoDup_remove_dups.
  - intros fn. rewrite merge_sort_Permutation. apply elem_of_remove_dups.
Qed.

Lemma sorted_set_ext (fns1 fns2 : list string) :
  (forall fn, fn ∈ fns1 <-> fn ∈ fns2) -> sorted_set fns1 = sorted_set fns2.
Proof.
  intros Hsame.
  destruct (sorted_set_spec fns1) as (Hsorted1 & Hnodup1 & Hin1).
  destruct (sorted_set_spec fns2) as (Hsorted2 & Hnodup2 & Hin2).
  apply (Sorted_unique str_le); [assumption..|].
  apply NoDup_Permutation; [assumption..|].
  intros fn. now rewrite Hin1, Hin2.
Qed.

(** X24. [load_startup_scripts] asked for more than one process loads
    nothing: it returns an empty container whatever the file names.  With
    one process (or fewer) it loads the distinct names in sorted order,
    so the container it returns, or the exception it raises, depends only
    on which names are given, not on their order or on repetitions. *)
Theorem load_startup_scripts_processes `{Ext : External} `{Load : Loading}
  (fns : list string) (standin_directories : option (list (string * string)))
  (processes : Z) :
  ((1 < processes)%Z ->
   load_startup_scripts fns standin_directories processes
   = inr new_ScriptContainer)
  /\ ((processes <= 1)%Z ->
      load_startup_scripts fns standin_directories processes
      = load_each standin_directories new_ScriptContainer (sorted_set fns))
  /\ forall fns',
       (forall fn, fn ∈ fns <-> fn ∈ fns') ->
       load_startup_scripts fns' standin_directories processes
       = load_startup_scripts fns standin_directories processes.
Proof.
  unfold load_startup_scripts. split; [|split].
  - intros Hmany. apply Z.ltb_lt in Hmany. now rewrite Hmany.
  - intros Hone. apply Z.ltb_ge in Hone. now rewrite Hone.
  - intros fns' Hsame. now rewrite (sorted_set_ext fns fns' Hsame).
Qed.

Lemma load_startup_scripts_processes_witness :
  load_startup_scripts (Ext := World.world) (Load := World.loading)
    ["/ioc/st.cmd"] None 8 = inr new_ScriptContainer
  /\ load_startup_scripts (Ext := World.world) (Load := World.loading)
       ["/ioc/st.cmd"; "/ioc/st.cmd"] None 1
     = load_startup_scripts (Ext := World.world) (Load := World.loading)
         ["/ioc/st.cmd"] None 1
  /\ match
       load_startup_scripts (Ext := World.world) (Load := World.loading)
         ["/ioc/st.cmd"] None 1
     with
     | inr container =>
         (li_name <$> sc_scripts container !! "/ioc/st.cmd",
          sc_loaded_files container !! "/ioc/sub/b.cmd")
     | inl _ => (None, None)
     end = (Some "ioc", Some "sha-b").
Proof.
  destruct (load_startup_scripts_processes (Ext := World.world)
              (Load := World.loading) ["/ioc/st.cmd"] None 8) as [Hmany _].
  destruct (load_startup_scripts_processes (Ext := World.world)
              (Load := World.loading) ["/ioc/st.cmd"] None 1)
    as (_ & _ & Hsame).
  split; [apply Hmany; reflexivity|]. split.
  - apply Hsame. intros fn. rewrite !elem_of_cons. tauto.
  - vm_compute. reflexivity.
Defined.

(** X25. What [dbLoadDatabase] does on a state without a schema and not
    initialized.  When the file cannot be loaded, the exception of
    [load_file] is raised and the state is unchanged.  When it reads, the
    file is entered in the ledger; the schema becomes what
    [Database.from_string] makes of the contents, parsed inside a macro
    scope that holds the substitutions of the third argument (none when
    it is missing or empty) and that is left afterwards; the second
    argument is not used.  When the parser raises, its exception is
    raised as it is, not wrapped as [dbLoadRecords] does, and no schema is
    attached. *)
Theorem handle_dbLoadDatabase_effect `{Ext : External} (st : ShellState)
  (dbd : string) (rest : list string) :
  database_definition st = None ->
  ioc_initialized st = false ->
  (forall st1 e, load_file dbd st = (st1, Raise e) ->
     handle_dbLoadDatabase (dbd :: rest) st = (st, Raise e))
  /\ (forall p shasum contents macros,
        _fix_path st dbd = inr p ->
        read_text_file_with_hash (path_resolve p) (string_encoding st)
        = inr (shasum, contents) ->
        (if truthy (rest !! 1)
         then definitions_to_dict (macro_context st) (default "" (rest !! 1))
         else inr ∅) = inr macros ->
        exists st' out,
          handle_dbLoadDatabase (dbd :: rest) st = (st', out)
          /\ loaded_files st'
             = <[path_str (path_resolve p) := shasum]> (loaded_files st)
          /\ macro_context st'
             = macro_scoped_exit (macro_scoped_enter (macro_context st) macros)
          /\ ioc_initialized st' = false
          /\ match
               Database_from_string contents
                 (database_version_spec
                    (entered (path_resolve p) shasum (ioc_info st)))
                 (path_resolve p)
             with
             | inr db =>
                 out = Return (ResStr ("Loaded database: "
                                       +:+ path_str (path_resolve p)))
                 /\ database_definition st' = Some db
             | inl ex => out = Raise ex /\ database_definition st' = None
             end).
Proof.
  intros Hdbd Hinit. split.
  - intros st1 e Hload. pose proof (load_file_raises _ _ _ _ Hload) as ->.
    unfold handle_dbLoadDatabase. run_m. now rewrite Hinit, Hdbd, Hload.
  - intros p shasum contents macros Hfix Hread Hmacros.
    pose proof (load_file_reads st dbd p shasum contents Hfix Hread) as Hload.
    unfold handle_dbLoadDatabase, with_scoped. run_m.
    rewrite Hinit, Hdbd, Hload. cbn.
    destruct (truthy (rest !! 1));
      [rewrite Hmacros|injection Hmacros as <-]; cbn;
      destruct (Database_from_string _ _ _); cbn;
      eexists _, _; (split; [reflexivity|]); cbn; now repeat split.
Qed.

Lemma handle_dbLoadDatabase_effect_witness :
  handle_dbLoadDatabase (Ext := World.world) ["none.dbd"] World.fresh
  = (World.fresh,
     Raise (World.FileNotFoundError (mkPath "/ioc/none.dbd")))
  /\ exists st',
       handle_dbLoadDatabase (Ext := World.world) ["base.dbd"; "."; "A=1"]
         World.fresh
       = (st', Return (ResStr "Loaded database: /ioc/base.dbd"))
       /\ database_definition st' = Some (mkDatabase ∅ [] [])
       /\ loaded_files st' !! "/ioc/base.dbd" = Some "sha-dbd".
Proof.
  destruct (handle_dbLoadDatabase_effect (Ext := World.world) World.fresh
              "none.dbd" [] eq_refl eq_refl) as [Hunread _].
  destruct (handle_dbLoadDatabase_effect (Ext := World.world) World.fresh
              "base.dbd" ["."; "A=1"] eq_refl eq_refl) as [_ Hreads].
  split.
  - apply (Hunread World.fresh). vm_compute. reflexivity.
  - destruct (Hreads (mkPath "/ioc/base.dbd") "sha-dbd" "" ∅)
      as (st' & out & Hrun & Hfiles & _ & _ & Hparse); try reflexivity.
    cbn in Hparse. destruct Hparse as [-> Hschema].
    exists st'. split; [exact Hrun|]. split; [exact Hschema|].
    rewrite Hfiles. apply lookup_insert_eq.
Defined.

Lemma interpret_shell_script_parents_registered_witness :
  exists st' ys ex,
    interpret_shell_script (Ext := World.world) 1 World.boot "/ioc/st.cmd"
      true false World.fresh = Some (st', ys, ex)
    /\ parents_registered st'.
Proof.
  with_run.
  apply (interpret_shell_script_parents_registered (Ext := World.world)
           _ _ _ _ _ _ _ _ _ Hrun).
  apply (new_ShellState_parents_registered (Ext := World.world)).
Defined.

(** ** Provenance of the results *)

(** Without recursion, every result that a line yields carries the load
    context in which the line was interpreted. *)
Lemma interpret_shell_line_context `{Ext : External} (fuel : nat) :
  parser_keeps_context ->
  forall line raise_on_error st st' ys ex,
    interpret_shell_line fuel line false raise_on_error st = Some (st', ys, ex) ->
    Forall (fun y => sr_context y = get_load_context st) ys.
Proof.
  intros Hparser. induction fuel as [|fuel IH]; [discriminate|].
  intros line raise_on_error st st' ys ex Hrun.
  cbn [interpret_shell_line] in Hrun.
  pose proof (Hparser line (get_load_context st) (prompt st)
                (macro_context st) (string_encoding st)) as Hstamp.
  set (shresult := parse_iocsh_line _ _ _ _ _) in *.
  assert (Hnested : forall res s s' ys' ex',
            sr_context res = get_load_context st ->
            get_load_context s = get_load_context st ->
            match sr_result res with
            | ResCmdArgs a =>
                match interpret_shell_line fuel (ca_command a) false false s
                with
                | Some (s1, ys1, ex1) => Some (s1, res :: ys1, ex1)
                | None => None
                end
            | _ => Some (s, [res], None)
            end = Some (s', ys', ex') ->
            Forall (fun y => sr_context y = get_load_context st) ys').
  { intros res s s' ys' ex' Hres Hs Hrest.
    destruct (sr_result res);
      try (injection Hrest as _ <- _; now repeat constructor).
    destruct (interpret_shell_line fuel _ false false s)
      as [[[s1 ys1] ex1]|] eqn:Hinner; [|discriminate].
    injection Hrest as _ <- _. constructor; [exact Hres|].
    rewrite <- Hs. eapply IH, Hinner. }
  destruct (truthy (sr_error shresult)).
  { injection Hrun as _ <- _. now repeat constructor. }
  destruct (List.filter is_input_redirect (sr_redirects shresult)).
  2:{ injection Hrun as _ <- _. constructor. }
  destruct (argv_of shresult) as [|command args].
  { injection Hrun as _ <- _. now repeat constructor. }
  destruct (handle_command command args st) as [s1 out] eqn:Hcmd.
  apply keeps_handle_command in Hcmd as [Hstack _].
  assert (get_load_context s1 = get_load_context st) as Hs1
    by (unfold get_load_context; now rewrite Hstack).
  destruct out as [result|e].
  - eapply Hnested, Hrun; [exact Hstamp|exact Hs1].
  - destruct raise_on_error.
    + injection Hrun as _ <- _. constructor.
    + eapply Hnested, Hrun; [exact Hstamp|exact Hs1].
Qed.

(** The results of the loop, line by line. *)
Lemma script_loop_blocks `{Ext : External} (fuel : nat)
  (raise_on_error : bool) (id : nat) (name : string)
  (stack : list MutableLoadContext) :
  parser_keeps_context ->
  Forall (fun c => ctx_id c <> id) stack ->
  forall lines lineno current st st' ys ex final,
    load_context st = stack ++ [mkCtx id name current] ->
    script_loop
      (fun line => interpret_shell_line fuel line false raise_on_error)
      id lineno current lines st = Some ((st', ys, ex), final) ->
    exists blocks,
      ys = concat blocks
      /\ length blocks <= length lines
      /\ forall i block, blocks !! i = Some block ->
           Forall (fun y => sr_context y
                            = map to_load_context stack ++ [(name, lineno + i)])
                  block.
Proof.
  intros Hparser Hfresh. induction lines as [|line rest IH];
    intros lineno current st st' ys ex final Hstack Hrun;
    cbn [script_loop] in Hrun.
  { injection Hrun as _ <- _ _. exists []. repeat split; [cbn; lia|].
    intros i block Hi. discriminate. }
  set (st0 := set_load_context _ st) in Hrun.
  assert (Hst0 : load_context st0 = stack ++ [mkCtx id name lineno]).
  { unfold st0. cbn. rewrite Hstack. now apply set_line_last. }
  clearbody st0.
  destruct (interpret_shell_line fuel line false raise_on_error st0)
    as [[[s1 ys1] ex1]|] eqn:Hline; [|discriminate].
  pose proof (interpret_shell_line_context fuel Hparser _ _ _ _ _ _ Hline)
    as Hcontext.
  assert (Hhere : Forall (fun y => sr_context y
                    = map to_load_context stack ++ [(name, lineno + 0)]) ys1).
  { eapply Forall_impl; [exact Hcontext|]. cbn. intros y ->.
    unfold get_load_context. rewrite Hst0, map_app, Nat.add_0_r. reflexivity. }
  apply interpret_shell_line_keeps_stack in Hline as [Hs1 _].
  destruct ex1 as [e|].
  - injection Hrun as _ <- _ _. exists [ys1].
    split; [cbn; now rewrite app_nil_r|]. split; [cbn; lia|].
    intros [|i] block Hi; [injection Hi as <-; exact Hhere|discriminate].
  - destruct (script_loop _ id (S lineno) lineno rest s1)
      as [[[[s2 ys2] ex2] final2]|] eqn:Hrest; [|discriminate].
    injection Hrun as _ <- _ _.
    destruct (IH (S lineno) lineno s1 s2 ys2 ex2 final2) as (blocks & -> & Hlen & Hblocks);
      [congruence|exact Hrest|].
    exists (ys1 :: blocks). split; [reflexivity|]. split; [cbn; lia|].
    intros [|i] block Hi.
    + injection Hi as <-. exact Hhere.
    + replace (lineno + S i) with (S lineno + i) by lia. now apply Hblocks.
Qed.


